(** * DI Architect Platform: the annotation graph store

    A shallow embedding of the store in [src/store/annotationStore.ts], of the
    corridor utilities in [utils/corridorUtils.ts], of the types in
    [src/types/index.ts] and of the helpers of the canvas in
    [src/components/Canvas.tsx] that call the store, with the properties of
    the specification stated and proved (or refuted) over it, and further
    properties of the code after them.

    Conventions of the embedding.
    - A TypeScript interface is a record inside a module of the same name, so
      that the fields keep their names ([Node.id], [Corridor.from], ...).  The
      field [end] of a segment and [where] of a design intent are keywords
      here and are written [end_] and [where_].
    - An optional field [f?: T] is a field of type [option T]; [None] is the
      absent (undefined) value.
    - Plan coordinates and scales are JavaScript numbers that the store only
      copies: each is given by its value, a rational [Q].  The numbers that
      the hit tests compute from them are doubles ([double]); their
      arithmetic is a class ([Arithmetic]), of which IEEE 754 is the
      instance [ieee754].  Floor indices, sequence orders and vertex indices
      are integers [Z].
    - The zustand calls [set(...)] and [get()] become explicit state passing
      over the record [Store].
    - [processPath] is recursive along the corridor graph and does not return
      on every store (the program then exhausts its call stack); it takes a
      recursion budget ([fuel]) and every action that runs the sequencer
      inherits it.  [None] means the budget was exhausted.  The loop of
      [generateId] takes a budget of its own.
    - The drawing buffer is not a field of [Store]: the drawing actions take
      and return it, and read the store for the current floor only. *)

From Stdlib Require Import ZArith QArith Lia Sorted.
From stdpp Require Import base gmap strings list pretty.

Open Scope string_scope.
Open Scope list_scope.
Open Scope Z_scope.

(** ** Data model ([src/types/index.ts]) *)

Module Position.
Record t := mk { x : Q; y : Q; z : option Z }.
End Position.
Abbreviation Position := Position.t.

(** The nested annotation payloads ([SpaceAnnotation], [BehaviorExpectation],
    [DPAnnotation]) are only ever copied by the store; they are kept as one
    opaque value each. *)
Definition Payload := string.

Inductive NodeType :=
| EntranceExit | DecisionPoint | DecisionZone
| VerticalConnection | ActivityDestination | ConnectingSegment.

Definition NodeType_label (t : NodeType) : string :=
  match t with
  | EntranceExit => "Entrance/Exit (E)"
  | DecisionPoint => "Decision Point (DP)"
  | DecisionZone => "Decision Zone (DZ)"
  | VerticalConnection => "Vertical Connection (VC)"
  | ActivityDestination => "Activity Destination (AD)"
  | ConnectingSegment => "Connecting Segment (CS)"
  end.

Inductive NodeShape :=
| shape_circle | shape_star | shape_square | shape_polygon | shape_diamond.

Inductive Importance := imp_no | imp_neutral | imp_yes.

Module Node.
Record t := mk {
  id : string;
  type : NodeType;
  shape : NodeShape;
  position : Position;
  floorIndex : Z;
  polygon : option (list Position);
  design_importance : option Importance;
  space_annotation : Payload;
  behavior_expectation : Payload;
  dp_annotation : option Payload
}.
End Node.
Abbreviation Node := Node.t.

Module CorridorSegment.
Record t := mk {
  start : Position;
  end_ : Position;
  startFloor : Z;
  endFloor : Z;
  isCrossFloor : bool
}.
End CorridorSegment.
Abbreviation CorridorSegment := CorridorSegment.t.

(** The value of [Math.min] and [Math.max] over floor indices: an integer, or
    an infinity when the argument list is empty. *)
Inductive number := NegInf | Fin (v : Z) | PosInf | NaN.

Module Corridor.
Record t := mk {
  id : string;
  path : list Position;
  segments : list CorridorSegment;
  floorIndex : Z;
  fromFloor : option number;
  toFloor : option number;
  isCrossFloor : bool;
  width : option Q;
  height : option Q;
  from : option string;
  to : option string;
  design_importance : option Importance;
  space_annotation : Payload;
  behavior_expectation : Payload;
  notes : option string
}.
End Corridor.
Abbreviation Corridor := Corridor.t.

Module Floor.
Record t := mk {
  id : string;
  name : string;
  index : Z;
  backgroundImage : string;
  scale : Q;
  pan : Position
}.
End Floor.
Abbreviation Floor := Floor.t.

Module DecisionProperties.
Record t := mk {
  importance : Importance;
  rationale : list string;
  rationale_other : option string
}.
End DecisionProperties.
Abbreviation DecisionProperties := DecisionProperties.t.

Module DesignCues.
Record t := mk {
  cue_medium_how : list string;
  verticality : option bool;
  importance : option Q;
  explanation : option string;
  confidence : option Q;
  cue_target_where : option string
}.
End DesignCues.
Abbreviation DesignCues := DesignCues.t.

Module DesignIntent.
Record t := mk {
  where_ : string;
  how : list string;
  description : option string;
  design_cues : option DesignCues
}.
End DesignIntent.
Abbreviation DesignIntent := DesignIntent.t.

Module Edge.
Record t := mk {
  id : string;
  from : string;
  to : string;
  design_importance : Importance;
  decision_properties : DecisionProperties;
  design_intent : DesignIntent
}.
End Edge.
Abbreviation Edge := Edge.t.

Inductive ItemType := item_node | item_corridor.

Module PathSequenceItem.
Record t := mk {
  id : string;
  type : ItemType;
  order : Z
}.
End PathSequenceItem.
Abbreviation PathSequenceItem := PathSequenceItem.t.

Module ProjectIdentification.
Record t := mk {
  buildingId : string;
  architectId : string;
  routeId : string
}.
End ProjectIdentification.
Abbreviation ProjectIdentification := ProjectIdentification.t.

Module JourneyReflection.
Record t := mk {
  confidence : Q;
  adherence_expectation : Q;
  team_alignment : Q;
  notes : option string
}.
End JourneyReflection.
Abbreviation JourneyReflection := JourneyReflection.t.

Module CanvasState.
Record t := mk {
  scale : Q;
  pan : Position;
  backgroundImage : option string;
  currentFloorIndex : Z
}.
End CanvasState.
Abbreviation CanvasState := CanvasState.t.

(** The store.  The tool selection, the drawing buffer, the modal flags and
    the image-dimension lookup are left out: no action below reads or writes
    them. *)
Module Store.
Record t := mk {
  nodes : list Node;
  corridors : list Corridor;
  edges : list Edge;
  pathSequence : list PathSequenceItem;
  floors : list Floor;
  projectId : ProjectIdentification;
  journeyReflection : option JourneyReflection;
  canvasState : CanvasState;
  currentNode : option Node;
  currentCorridor : option Corridor
}.
End Store.
Abbreviation Store := Store.t.

#[global] Instance ItemType_eq_dec : EqDecision ItemType.
Proof. solve_decision. Defined.
#[global] Instance NodeType_eq_dec : EqDecision NodeType.
Proof. solve_decision. Defined.
#[global] Instance NodeShape_eq_dec : EqDecision NodeShape.
Proof. solve_decision. Defined.
#[global] Instance number_eq_dec : EqDecision number.
Proof. solve_decision. Defined.

(** ** Corridor segmentation ([utils/corridorUtils.ts]) *)

(** [p.z ?? d] *)
Definition z_or (p : Position) (d : Z) : Z := default d (Position.z p).

Definition mkSegment (start end_ : Position) : CorridorSegment :=
  let startFloor := z_or start 0 in
  let endFloor := z_or end_ 0 in
  CorridorSegment.mk start end_ startFloor endFloor
    (negb (startFloor =? endFloor)).

(** One segment per consecutive pair; nothing for fewer than two vertices. *)
Fixpoint generateCorridorSegments (path : list Position) : list CorridorSegment :=
  match path with
  | start :: (end_ :: _) as rest => mkSegment start end_ :: generateCorridorSegments rest
  | _ => []
  end.

Definition touchesFloor (floorIndex : Z) (segment : CorridorSegment) : bool :=
  (CorridorSegment.startFloor segment =? floorIndex)
  || (CorridorSegment.endFloor segment =? floorIndex).

Definition getSegmentsForFloor (segments : list CorridorSegment) (floorIndex : Z)
  : list CorridorSegment :=
  List.filter (touchesFloor floorIndex) segments.

(** [Math.min(...l)] and [Math.max(...l)]. *)
Definition Math_min (l : list Z) : number :=
  match l with
  | [] => PosInf
  | v :: l' => Fin (fold_left Z.min l' v)
  end.

Definition Math_max (l : list Z) : number :=
  match l with
  | [] => NegInf
  | v :: l' => Fin (fold_left Z.max l' v)
  end.

(** [a - b] on numbers. *)
Definition number_sub (a b : number) : number :=
  match a, b with
  | NaN, _ | _, NaN => NaN
  | Fin u, Fin v => Fin (u - v)
  | PosInf, PosInf | NegInf, NegInf => NaN
  | PosInf, _ | _, NegInf => PosInf
  | NegInf, _ | _, PosInf => NegInf
  end.

(** [a > k] for an integer literal [k]. *)
Definition number_gtb (a : number) (k : Z) : bool :=
  match a with
  | Fin u => k <? u
  | PosInf => true
  | NegInf | NaN => false
  end.

Definition pathFloors (path : list Position) : list Z :=
  map (fun p => z_or p 0) path.

Module FloorRange.
Record t := mk { min : number; max : number }.
End FloorRange.

Definition getCorridorFloorRange (path : list Position) : FloorRange.t :=
  let floors := pathFloors path in
  FloorRange.mk (Math_min floors) (Math_max floors).

Module Validation.
Record t := mk { isValid : bool; errors : list string }.
End Validation.

Definition err_too_few : string := "Corridor must have at least 2 vertices".
Definition err_missing_z : string :=
  "All vertices must have floor information (Z coordinate)".
Definition err_too_many_floors : string :=
  "Corridor spans too many floors (max 5 floors)".

Definition missingZ (path : list Position) : bool :=
  existsb (fun p => bool_decide (Position.z p = None)) path.

Definition spanTooLarge (path : list Position) : bool :=
  let floorRange := getCorridorFloorRange path in
  number_gtb (number_sub (FloorRange.max floorRange) (FloorRange.min floorRange)) 5.

Definition validateCorridorPath (path : list Position) : Validation.t :=
  let errors := [] in
  let errors := if (length path <? 2)%nat then errors ++ [err_too_few] else errors in
  let errors := if missingZ path then errors ++ [err_missing_z] else errors in
  let errors := if spanTooLarge path then errors ++ [err_too_many_floors] else errors in
  Validation.mk (bool_decide (errors = [])) errors.


(** ** Store updates *)

Definition set_nodes (v : list Node) (s : Store) : Store :=
  Store.mk v (Store.corridors s) (Store.edges s) (Store.pathSequence s)
    (Store.floors s) (Store.projectId s) (Store.journeyReflection s)
    (Store.canvasState s) (Store.currentNode s) (Store.currentCorridor s).

Definition set_corridors (v : list Corridor) (s : Store) : Store :=
  Store.mk (Store.nodes s) v (Store.edges s) (Store.pathSequence s)
    (Store.floors s) (Store.projectId s) (Store.journeyReflection s)
    (Store.canvasState s) (Store.currentNode s) (Store.currentCorridor s).

Definition set_edges (v : list Edge) (s : Store) : Store :=
  Store.mk (Store.nodes s) (Store.corridors s) v (Store.pathSequence s)
    (Store.floors s) (Store.projectId s) (Store.journeyReflection s)
    (Store.canvasState s) (Store.currentNode s) (Store.currentCorridor s).

Definition set_pathSequence (v : list PathSequenceItem) (s : Store) : Store :=
  Store.mk (Store.nodes s) (Store.corridors s) (Store.edges s) v
    (Store.floors s) (Store.projectId s) (Store.journeyReflection s)
    (Store.canvasState s) (Store.currentNode s) (Store.currentCorridor s).

Definition set_floors (v : list Floor) (s : Store) : Store :=
  Store.mk (Store.nodes s) (Store.corridors s) (Store.edges s)
    (Store.pathSequence s) v (Store.projectId s) (Store.journeyReflection s)
    (Store.canvasState s) (Store.currentNode s) (Store.currentCorridor s).

Definition set_canvasState (v : CanvasState) (s : Store) : Store :=
  Store.mk (Store.nodes s) (Store.corridors s) (Store.edges s)
    (Store.pathSequence s) (Store.floors s) (Store.projectId s)
    (Store.journeyReflection s) v (Store.currentNode s) (Store.currentCorridor s).

Definition set_currentNode (v : option Node) (s : Store) : Store :=
  Store.mk (Store.nodes s) (Store.corridors s) (Store.edges s)
    (Store.pathSequence s) (Store.floors s) (Store.projectId s)
    (Store.journeyReflection s) (Store.canvasState s) v (Store.currentCorridor s).

Definition set_currentCorridor (v : option Corridor) (s : Store) : Store :=
  Store.mk (Store.nodes s) (Store.corridors s) (Store.edges s)
    (Store.pathSequence s) (Store.floors s) (Store.projectId s)
    (Store.journeyReflection s) (Store.canvasState s) (Store.currentNode s) v.

Definition currentFloorIndex (s : Store) : Z :=
  CanvasState.currentFloorIndex (Store.canvasState s).

(** The store of a fresh session. *)
Definition initialStore : Store :=
  Store.mk [] [] [] [] [] (ProjectIdentification.mk "" "" "") None
    (CanvasState.mk 1 (Position.mk 0 0 None) None 0) None None.

(** [{ ...p, z: floor }] *)
Definition with_z (p : Position) (floor : Z) : Position :=
  Position.mk (Position.x p) (Position.y p) (Some floor).

(** [{ ...item, order }] *)
Definition with_order (item : PathSequenceItem) (order : Z) : PathSequenceItem :=
  PathSequenceItem.mk (PathSequenceItem.id item) (PathSequenceItem.type item) order.

(** [.map((item, index) => ({ ...item, order: index }))] *)
Definition renumber (l : list PathSequenceItem) : list PathSequenceItem :=
  imap (fun index item => with_order item (Z.of_nat index)) l.

(** A string is truthy when it is present and not empty. *)
Definition truthy (o : option string) : bool :=
  match o with
  | Some s => negb (bool_decide (s = ""))
  | None => false
  end.

(** [hay.includes(needle)] *)
Fixpoint includes (needle hay : string) : bool :=
  String.prefix needle hay ||
  match hay with
  | EmptyString => false
  | String _ hay' => includes needle hay'
  end.

(** ** The journey edges: [regenerateEdges] *)

(** [[...l].sort((a, b) => a.order - b.order)]: the sort of the language is
    stable, so its result is the one of a stable insertion by [order]. *)
Fixpoint insertByOrder (a : PathSequenceItem) (l : list PathSequenceItem)
  : list PathSequenceItem :=
  match l with
  | [] => [a]
  | b :: l' =>
      if PathSequenceItem.order a <=? PathSequenceItem.order b
      then a :: b :: l'
      else b :: insertByOrder a l'
  end.

Definition sortByOrder (l : list PathSequenceItem) : list PathSequenceItem :=
  fold_right insertByOrder [] l.

Definition edgeId (current next : PathSequenceItem) : string :=
  PathSequenceItem.id current +:+ "-" +:+ PathSequenceItem.id next.

Definition defaultDecisionProperties : DecisionProperties :=
  DecisionProperties.mk imp_neutral [] (Some "").

Definition defaultDesignIntent (current : PathSequenceItem) : DesignIntent :=
  DesignIntent.mk
    (if bool_decide (PathSequenceItem.type current = item_node)
     then PathSequenceItem.id current else "")
    [] None (Some (DesignCues.mk [] None None None None None)).

(** The body of the loop of [regenerateEdges]: the edge of one consecutive
    pair, given the edges the store held before. *)
Definition newEdge (edges : list Edge) (current next : PathSequenceItem) : Edge :=
  let edgeId := edgeId current next in
  let existingEdge := find (fun e => bool_decide (Edge.id e = edgeId)) edges in
  Edge.mk edgeId (PathSequenceItem.id current) (PathSequenceItem.id next)
    (from_option Edge.design_importance imp_neutral existingEdge)
    (from_option Edge.decision_properties defaultDecisionProperties existingEdge)
    (from_option Edge.design_intent (defaultDesignIntent current) existingEdge).

(** [for (i = 0; i < sorted.length - 1; i++)] over [sorted[i], sorted[i+1]]. *)
Fixpoint edgesOfSequence (edges : list Edge) (sorted : list PathSequenceItem)
  : list Edge :=
  match sorted with
  | current :: (next :: _) as rest => newEdge edges current next :: edgesOfSequence edges rest
  | _ => []
  end.

Definition regenerateEdges (s : Store) : Store :=
  let sortedSequence := sortByOrder (Store.pathSequence s) in
  set_edges (edgesOfSequence (Store.edges s) sortedSequence) s.

(** ** The topological sequencer: [reorderPathSequence] *)

(** The two closures of [reorderPathSequence] share the set [processedItems]
    and the array [reorderedSequence]; the running [order] is passed and
    returned.  (The maps [nodeConnections] and [corridorConnections] that the
    function also builds are never read and are not modelled.) *)
Module SeqState.
Record t := mk {
  processedItems : gset string;
  reorderedSequence : list PathSequenceItem
}.
End SeqState.
Abbreviation SeqState := SeqState.t.

Definition hasItemId (itemId : string) (p : PathSequenceItem) : bool :=
  bool_decide (PathSequenceItem.id p = itemId).

Definition addItemToSequence (s : Store) (itemId : string) (order : Z) (st : SeqState)
  : Z * SeqState :=
  if bool_decide (itemId ∈ SeqState.processedItems st) then (order, st)
  else
    match find (hasItemId itemId) (Store.pathSequence s) with
    | None => (order, st)
    | Some item =>
        (order + 1,
         SeqState.mk ({[ itemId ]} ∪ SeqState.processedItems st)
           (SeqState.reorderedSequence st ++ [with_order item order]))
    end.

(** The [for] loop of [processPath] over the outgoing corridors; [recurse] is
    [processPath] itself, one level of recursion deeper. *)
Fixpoint processCorridors (recurse : string -> Z -> SeqState -> option (Z * SeqState))
    (s : Store) (outgoingCorridors : list Corridor) (order : Z) (st : SeqState)
  : option (Z * SeqState) :=
  match outgoingCorridors with
  | [] => Some (order, st)
  | corridor :: rest =>
      let '(order, st) := addItemToSequence s (Corridor.id corridor) order st in
      let continue_ :=
        match Corridor.to corridor with
        | Some target =>
            if truthy (Some target)
               && negb (bool_decide (target ∈ SeqState.processedItems st))
            then recurse target order st
            else Some (order, st)
        | None => Some (order, st)
        end in
      match continue_ with
      | Some (order, st) => processCorridors recurse s rest order st
      | None => None
      end
  end.

Definition startsAt (nodeId : string) (c : Corridor) : bool :=
  bool_decide (Corridor.from c = Some nodeId).

Fixpoint processPath (fuel : nat) (s : Store) (nodeId : string) (order : Z)
    (st : SeqState) : option (Z * SeqState) :=
  match fuel with
  | O => None
  | S fuel' =>
      let '(order, st) := addItemToSequence s nodeId order st in
      let outgoingCorridors := List.filter (startsAt nodeId) (Store.corridors s) in
      processCorridors (processPath fuel' s) s outgoingCorridors order st
  end.

Definition isStartNode (s : Store) (node : Node) : bool :=
  let isEntrance := includes "Entrance" (NodeType_label (Node.type node)) in
  let hasIncoming :=
    existsb (fun corridor => bool_decide (Corridor.to corridor = Some (Node.id node)))
      (Store.corridors s) in
  isEntrance || negb hasIncoming.

(** [for (const startNode of startNodes)] *)
Fixpoint processStartNodes (fuel : nat) (s : Store) (startNodes : list Node)
    (currentOrder : Z) (st : SeqState) : option (Z * SeqState) :=
  match startNodes with
  | [] => Some (currentOrder, st)
  | startNode :: rest =>
      if bool_decide (Node.id startNode ∈ SeqState.processedItems st)
      then processStartNodes fuel s rest currentOrder st
      else
        match processPath fuel s (Node.id startNode) currentOrder st with
        | Some (currentOrder, st) => processStartNodes fuel s rest currentOrder st
        | None => None
        end
  end.

(** [for (const item of state.pathSequence)]: the items never processed, in
    their old relative order. *)
Fixpoint addRemaining (processedItems : gset string) (items : list PathSequenceItem)
    (currentOrder : Z) (reorderedSequence : list PathSequenceItem)
  : list PathSequenceItem :=
  match items with
  | [] => reorderedSequence
  | item :: rest =>
      if bool_decide (PathSequenceItem.id item ∈ processedItems)
      then addRemaining processedItems rest currentOrder reorderedSequence
      else addRemaining processedItems rest (currentOrder + 1)
             (reorderedSequence ++ [with_order item currentOrder])
  end.

Definition reorderedSequenceOf (fuel : nat) (s : Store) : option (list PathSequenceItem) :=
  let startNodes := List.filter (isStartNode s) (Store.nodes s) in
  match processStartNodes fuel s startNodes 0 (SeqState.mk ∅ []) with
  | Some (currentOrder, st) =>
      Some (addRemaining (SeqState.processedItems st) (Store.pathSequence s)
              currentOrder (SeqState.reorderedSequence st))
  | None => None
  end.

Definition reorderPathSequence (fuel : nat) (s : Store) : option Store :=
  match reorderedSequenceOf fuel s with
  | Some reorderedSequence => Some (regenerateEdges (set_pathSequence reorderedSequence s))
  | None => None
  end.

Definition updatePathSequence (sequence : list PathSequenceItem) (s : Store) : Store :=
  regenerateEdges (set_pathSequence sequence s).

(** ** Node actions *)

(** [node.design_importance || 'neutral'] *)
Definition importance_or_neutral (o : option Importance) : option Importance :=
  Some (default imp_neutral o).

Definition nodeWithFloor (s : Store) (node : Node) : Node :=
  Node.mk (Node.id node) (Node.type node) (Node.shape node)
    (with_z (Node.position node) (currentFloorIndex s))
    (currentFloorIndex s)
    (Node.polygon node)
    (importance_or_neutral (Node.design_importance node))
    (Node.space_annotation node) (Node.behavior_expectation node)
    (Node.dp_annotation node).

(** The [set(...)] of [addNode], before the sequencer runs. *)
Definition addNode_set (node : Node) (s : Store) : Store :=
  let newPathItem :=
    PathSequenceItem.mk (Node.id node) item_node
      (Z.of_nat (length (Store.pathSequence s))) in
  set_pathSequence (Store.pathSequence s ++ [newPathItem])
    (set_nodes (Store.nodes s ++ [nodeWithFloor s node]) s).

Definition addNode (fuel : nat) (node : Node) (s : Store) : option Store :=
  reorderPathSequence fuel (addNode_set node s).

(** [Partial<Node>]: a field is [Some v] when the update carries it. *)
Module NodeUpdate.
Record t := mk {
  id : option string;
  type : option NodeType;
  shape : option NodeShape;
  position : option Position;
  floorIndex : option Z;
  polygon : option (list Position);
  design_importance : option Importance;
  space_annotation : option Payload;
  behavior_expectation : option Payload;
  dp_annotation : option Payload
}.
End NodeUpdate.

(** [o2 ?? o1] on an optional field of a spread [{ ...a, ...b }]. *)
Definition override {A} (old new : option A) : option A :=
  match new with
  | Some v => Some v
  | None => old
  end.

(** [{ ...node, ...updates }] *)
Definition mergeNode (node : Node) (updates : NodeUpdate.t) : Node :=
  Node.mk
    (default (Node.id node) (NodeUpdate.id updates))
    (default (Node.type node) (NodeUpdate.type updates))
    (default (Node.shape node) (NodeUpdate.shape updates))
    (default (Node.position node) (NodeUpdate.position updates))
    (default (Node.floorIndex node) (NodeUpdate.floorIndex updates))
    (override (Node.polygon node) (NodeUpdate.polygon updates))
    (override (Node.design_importance node) (NodeUpdate.design_importance updates))
    (default (Node.space_annotation node) (NodeUpdate.space_annotation updates))
    (default (Node.behavior_expectation node) (NodeUpdate.behavior_expectation updates))
    (override (Node.dp_annotation node) (NodeUpdate.dp_annotation updates)).

Definition with_position (node : Node) (p : Position) : Node :=
  Node.mk (Node.id node) (Node.type node) (Node.shape node) p
    (Node.floorIndex node) (Node.polygon node) (Node.design_importance node)
    (Node.space_annotation node) (Node.behavior_expectation node)
    (Node.dp_annotation node).

(** The callback of [state.nodes.map] in [updateNode]. *)
Definition updateNode_one (id : string) (updates : NodeUpdate.t) (node : Node) : Node :=
  if bool_decide (Node.id node = id) then
    let updatedNode := mergeNode node updates in
    match NodeUpdate.position updates with
    | Some _ =>
        with_position updatedNode
          (with_z (Node.position updatedNode) (Node.floorIndex updatedNode))
    | None => updatedNode
    end
  else node.

Definition updateNode_set (id : string) (updates : NodeUpdate.t) (s : Store) : Store :=
  let updatedNodes := map (updateNode_one id updates) (Store.nodes s) in
  let newCurrentNode :=
    match Store.currentNode s with
    | Some current =>
        if bool_decide (Node.id current = id)
        then Some (mergeNode current updates) else Some current
    | None => None
    end in
  set_currentNode newCurrentNode (set_nodes updatedNodes s).

Definition updateNode (fuel : nat) (id : string) (updates : NodeUpdate.t) (s : Store)
  : option Store :=
  reorderPathSequence fuel (updateNode_set id updates s).

Definition deleteNode_set (id : string) (s : Store) : Store :=
  set_pathSequence
    (renumber (List.filter (fun item => negb (hasItemId id item)) (Store.pathSequence s)))
    (set_corridors
       (List.filter
          (fun corridor =>
             negb (bool_decide (Corridor.from corridor = Some id))
             && negb (bool_decide (Corridor.to corridor = Some id)))
          (Store.corridors s))
       (set_nodes
          (List.filter (fun node => negb (bool_decide (Node.id node = id))) (Store.nodes s))
          s)).

Definition deleteNode (fuel : nat) (id : string) (s : Store) : option Store :=
  reorderPathSequence fuel (deleteNode_set id s).

(** [moveNode] does not run the sequencer. *)
Definition moveNode (id : string) (position : Position) (s : Store) : Store :=
  let positionWithZ := with_z position (currentFloorIndex s) in
  set_nodes
    (map (fun node =>
            if bool_decide (Node.id node = id)
            then with_position node positionWithZ else node)
       (Store.nodes s))
    s.

(** ** Corridor actions *)

Definition hasFloorTransition (segments : list CorridorSegment) : bool :=
  existsb CorridorSegment.isCrossFloor segments.

(** [{ ...p, z: p.z ?? state.canvasState.currentFloorIndex }] *)
Definition stampFloor (s : Store) (p : Position) : Position :=
  with_z p (z_or p (currentFloorIndex s)).

Definition corridorWithFloor (s : Store) (corridor : Corridor) : Corridor :=
  let path := map (stampFloor s) (Corridor.path corridor) in
  let segments := generateCorridorSegments path in
  let crosses := hasFloorTransition segments in
  let floors := pathFloors path in
  Corridor.mk (Corridor.id corridor) path segments (currentFloorIndex s)
    (if crosses then Some (Math_min floors) else Corridor.fromFloor corridor)
    (if crosses then Some (Math_max floors) else Corridor.toFloor corridor)
    crosses
    (Corridor.width corridor) (Corridor.height corridor)
    (Corridor.from corridor) (Corridor.to corridor)
    (importance_or_neutral (Corridor.design_importance corridor))
    (Corridor.space_annotation corridor) (Corridor.behavior_expectation corridor)
    (Corridor.notes corridor).

Definition addCorridor_set (corridor : Corridor) (s : Store) : Store :=
  let newPathItem :=
    PathSequenceItem.mk (Corridor.id corridor) item_corridor
      (Z.of_nat (length (Store.pathSequence s))) in
  set_pathSequence (Store.pathSequence s ++ [newPathItem])
    (set_corridors (Store.corridors s ++ [corridorWithFloor s corridor]) s).

Definition addCorridor (fuel : nat) (corridor : Corridor) (s : Store) : option Store :=
  reorderPathSequence fuel (addCorridor_set corridor s).

(** [Partial<Corridor>] *)
Module CorridorUpdate.
Record t := mk {
  id : option string;
  path : option (list Position);
  segments : option (list CorridorSegment);
  floorIndex : option Z;
  fromFloor : option number;
  toFloor : option number;
  isCrossFloor : option bool;
  width : option Q;
  height : option Q;
  from : option string;
  to : option string;
  design_importance : option Importance;
  space_annotation : option Payload;
  behavior_expectation : option Payload;
  notes : option string
}.
Definition empty : t :=
  mk None None None None None None None None None None None None None None None.
Definition ofPath (p : list Position) : t :=
  mk None (Some p) None None None None None None None None None None None None None.
End CorridorUpdate.

(** [{ ...corridor, ...updates }] *)
Definition mergeCorridor (corridor : Corridor) (updates : CorridorUpdate.t) : Corridor :=
  Corridor.mk
    (default (Corridor.id corridor) (CorridorUpdate.id updates))
    (default (Corridor.path corridor) (CorridorUpdate.path updates))
    (default (Corridor.segments corridor) (CorridorUpdate.segments updates))
    (default (Corridor.floorIndex corridor) (CorridorUpdate.floorIndex updates))
    (override (Corridor.fromFloor corridor) (CorridorUpdate.fromFloor updates))
    (override (Corridor.toFloor corridor) (CorridorUpdate.toFloor updates))
    (default (Corridor.isCrossFloor corridor) (CorridorUpdate.isCrossFloor updates))
    (override (Corridor.width corridor) (CorridorUpdate.width updates))
    (override (Corridor.height corridor) (CorridorUpdate.height updates))
    (override (Corridor.from corridor) (CorridorUpdate.from updates))
    (override (Corridor.to corridor) (CorridorUpdate.to updates))
    (override (Corridor.design_importance corridor) (CorridorUpdate.design_importance updates))
    (default (Corridor.space_annotation corridor) (CorridorUpdate.space_annotation updates))
    (default (Corridor.behavior_expectation corridor)
       (CorridorUpdate.behavior_expectation updates))
    (override (Corridor.notes corridor) (CorridorUpdate.notes updates)).

(** The re-derivation of [updateCorridor] when the update carries a path. *)
Definition rederive (c : Corridor) (path : list Position) : Corridor :=
  let segments := generateCorridorSegments path in
  let crosses := hasFloorTransition segments in
  let floors := pathFloors path in
  Corridor.mk (Corridor.id c) (Corridor.path c) segments (Corridor.floorIndex c)
    (if crosses then Some (Math_min floors) else None)
    (if crosses then Some (Math_max floors) else None)
    crosses
    (Corridor.width c) (Corridor.height c) (Corridor.from c) (Corridor.to c)
    (Corridor.design_importance c) (Corridor.space_annotation c)
    (Corridor.behavior_expectation c) (Corridor.notes c).

(** The callback of [state.corridors.map] in [updateCorridor]. *)
Definition updateCorridor_one (id : string) (updates : CorridorUpdate.t)
    (corridor : Corridor) : Corridor :=
  if bool_decide (Corridor.id corridor = id) then
    let updatedCorridor := mergeCorridor corridor updates in
    match CorridorUpdate.path updates with
    | Some path => rederive updatedCorridor path
    | None => updatedCorridor
    end
  else corridor.

Definition updateCorridor_set (id : string) (updates : CorridorUpdate.t) (s : Store)
  : Store :=
  let updatedCorridors := map (updateCorridor_one id updates) (Store.corridors s) in
  let newCurrentCorridor :=
    match Store.currentCorridor s with
    | Some current =>
        if bool_decide (Corridor.id current = id)
        then Some (mergeCorridor current updates) else Some current
    | None => None
    end in
  set_currentCorridor newCurrentCorridor (set_corridors updatedCorridors s).

Definition updateCorridor (fuel : nat) (id : string) (updates : CorridorUpdate.t)
    (s : Store) : option Store :=
  reorderPathSequence fuel (updateCorridor_set id updates s).

Definition deleteCorridor_set (id : string) (s : Store) : Store :=
  set_pathSequence
    (renumber (List.filter (fun item => negb (hasItemId id item)) (Store.pathSequence s)))
    (set_corridors
       (List.filter (fun corridor => negb (bool_decide (Corridor.id corridor = id)))
          (Store.corridors s))
       s).

Definition deleteCorridor (fuel : nat) (id : string) (s : Store) : option Store :=
  reorderPathSequence fuel (deleteCorridor_set id s).

(** What an action that may raise gives back.  A [TypeError] raised inside
    the callback of [set] leaves the store as it was. *)
Inductive Outcome :=
| Returned (s : Store)
| Thrown
| OutOfFuel.

Definition outcomeOf (o : option Store) : Outcome :=
  match o with
  | Some s => Returned s
  | None => OutOfFuel
  end.

(** The bound [2 ^ 32 - 1] of the length of an array: a whole number is an
    array index when it is at least 0 and below this bound. *)
Definition maxArrayLength : Z := 4294967295.

(** [updatedPath[vertexIndex] = v] on a copy of the path.  An index inside
    the array replaces the element; the index [length] appends; a larger
    array index leaves holes ([None]) before the new element.  A negative
    index, and an index of [2 ^ 32 - 1] or more, is not an array index: the
    assignment only adds a property to the array object and leaves its
    elements and its length alone. *)
Definition assignVertex (path : list Position) (vertexIndex : Z) (v : Position)
  : list (option Position) :=
  if vertexIndex <? 0 then map Some path
  else
    let i := Z.to_nat vertexIndex in
    if (i <? length path)%nat then <[ i := Some v ]> (map Some path)
    else if vertexIndex <? maxArrayLength then
      map Some path ++ replicate (i - length path) None ++ [Some v]
    else map Some path.

(** The elements of an array without holes. *)
Fixpoint dense (a : list (option Position)) : option (list Position) :=
  match a with
  | [] => Some []
  | Some p :: a' => option_map (cons p) (dense a')
  | None :: _ => None
  end.

(** [newFloor ?? newPosition.z ?? currentFloorIndex] *)
Definition vertexFloor (s : Store) (newPosition : Position) (newFloor : option Z) : Z :=
  match newFloor with
  | Some f => f
  | None => z_or newPosition (currentFloorIndex s)
  end.

(** A hole of [updatedPath] is never its last element, so the loop of
    [generateCorridorSegments] reads it and fails on [start.z] or [end.z]:
    the call of [updateCorridor] raises a [TypeError] before the store is
    written. *)
Definition updateCorridorVertex (fuel : nat) (corridorId : string) (vertexIndex : Z)
    (newPosition : Position) (newFloor : option Z) (s : Store) : Outcome :=
  match find (fun c => bool_decide (Corridor.id c = corridorId)) (Store.corridors s) with
  | None => Returned s
  | Some corridor =>
      let updatedPath :=
        assignVertex (Corridor.path corridor) vertexIndex
          (with_z newPosition (vertexFloor s newPosition newFloor)) in
      match dense updatedPath with
      | Some path => outcomeOf (updateCorridor fuel corridorId (CorridorUpdate.ofPath path) s)
      | None => Thrown
      end
  end.

(** ** Floor actions *)

(** [addFloor], without the detached loading of the image dimensions. *)
Definition addFloor (floor : Floor) (s : Store) : Store :=
  let newFloors := Store.floors s ++ [floor] in
  match Store.floors s with
  | [] =>
      set_canvasState
        (CanvasState.mk (Floor.scale floor) (Floor.pan floor)
           (Some (Floor.backgroundImage floor)) (Floor.index floor))
        (set_floors newFloors s)
  | _ :: _ => set_floors newFloors s
  end.

Definition setCurrentFloor (floorIndex : Z) (s : Store) : Store :=
  match find (fun f => Floor.index f =? floorIndex) (Store.floors s) with
  | Some floor =>
      set_canvasState
        (CanvasState.mk (Floor.scale floor) (Floor.pan floor)
           (Some (Floor.backgroundImage floor)) floorIndex)
        s
  | None => s
  end.

Definition onFloor (floorIndex : Z) (o : option number) : bool :=
  bool_decide (o = Some (Fin floorIndex)).

(** [deleteFloor] runs neither the sequencer nor [regenerateEdges]. *)
Definition deleteFloor (floorIndex : Z) (s : Store) : Store :=
  let newFloors :=
    List.filter (fun f => negb (Floor.index f =? floorIndex)) (Store.floors s) in
  let newNodes :=
    List.filter (fun n => negb (Node.floorIndex n =? floorIndex)) (Store.nodes s) in
  let newCorridors :=
    List.filter
      (fun c =>
         negb (Corridor.floorIndex c =? floorIndex)
         && negb (Corridor.isCrossFloor c
                  && (onFloor floorIndex (Corridor.fromFloor c)
                      || onFloor floorIndex (Corridor.toFloor c))))
      (Store.corridors s) in
  let newCurrentFloor :=
    match newFloors with
    | f :: _ => if currentFloorIndex s =? floorIndex then Floor.index f
                else currentFloorIndex s
    | [] => currentFloorIndex s
    end in
  let backgroundImage :=
    match find (fun f => Floor.index f =? newCurrentFloor) newFloors with
    | Some f => if bool_decide (Floor.backgroundImage f = "") then None
                else Some (Floor.backgroundImage f)
    | None => None
    end in
  set_canvasState
    (CanvasState.mk (CanvasState.scale (Store.canvasState s))
       (CanvasState.pan (Store.canvasState s)) backgroundImage newCurrentFloor)
    (set_corridors newCorridors (set_nodes newNodes (set_floors newFloors s))).

(** ** Project export and load *)

(** A corridor of a persisted document: the document may lack the derived
    [segments], in which case the field of [corridor] is not read. *)
Module PersistedCorridor.
Record t := mk { corridor : Corridor; hasSegments : bool }.
End PersistedCorridor.

Module Metadata.
Record t := mk { version : string; created : string; modified : string }.
End Metadata.

(** [AnnotationData]; a collection a document may omit is optional. *)
Module AnnotationData.
Record t := mk {
  nodes : option (list Node);
  corridors : option (list PersistedCorridor.t);
  edges : option (list Edge);
  pathSequence : option (list PathSequenceItem);
  floors : option (list Floor);
  projectId : option ProjectIdentification;
  journey_reflection : option JourneyReflection;
  metadata : Metadata.t
}.
End AnnotationData.

(** [now] is [new Date().toISOString()]. *)
Definition exportData (now : string) (s : Store) : AnnotationData.t :=
  AnnotationData.mk
    (Some (Store.nodes s))
    (Some (map (fun c => PersistedCorridor.mk c true) (Store.corridors s)))
    (Some (Store.edges s))
    (Some (Store.pathSequence s))
    (Some (Store.floors s))
    (Some (Store.projectId s))
    (Store.journeyReflection s)
    (Metadata.mk "3.0" now now).

Definition with_segments (c : Corridor) (segments : list CorridorSegment) : Corridor :=
  Corridor.mk (Corridor.id c) (Corridor.path c) segments (Corridor.floorIndex c)
    (Corridor.fromFloor c) (Corridor.toFloor c) (Corridor.isCrossFloor c)
    (Corridor.width c) (Corridor.height c) (Corridor.from c) (Corridor.to c)
    (Corridor.design_importance c) (Corridor.space_annotation c)
    (Corridor.behavior_expectation c) (Corridor.notes c).

(** [{ ...corridor, segments: corridor.segments || generateCorridorSegments(corridor.path) }] *)
Definition loadCorridor (pc : PersistedCorridor.t) : Corridor :=
  let corridor := PersistedCorridor.corridor pc in
  with_segments corridor
    (if PersistedCorridor.hasSegments pc then Corridor.segments corridor
     else generateCorridorSegments (Corridor.path corridor)).

Definition loadProject (data : AnnotationData.t) (s : Store) : Store :=
  let loaded :=
    Store.mk
      (default [] (AnnotationData.nodes data))
      (map loadCorridor (default [] (AnnotationData.corridors data)))
      (default [] (AnnotationData.edges data))
      (default [] (AnnotationData.pathSequence data))
      (default [] (AnnotationData.floors data))
      (default (ProjectIdentification.mk "" "" "") (AnnotationData.projectId data))
      (AnnotationData.journey_reflection data)
      (Store.canvasState s) (Store.currentNode s) (Store.currentCorridor s) in
  match AnnotationData.floors data with
  | Some (firstFloor :: _) =>
      set_canvasState
        (CanvasState.mk (Floor.scale firstFloor) (Floor.pan firstFloor)
           (Some (Floor.backgroundImage firstFloor)) (Floor.index firstFloor))
        loaded
  | _ => loaded
  end.

(** ** Numbers *)

(** The value of a JavaScript number: a finite double is given by the
    rational that it stands for (the two zeros are one value). *)
Inductive double :=
| finite (v : Q)
| pos_infinity
| neg_infinity
| not_a_number.

(** The arithmetic of the doubles that the hit tests use.  Its operations
    round, and the language leaves the precision of [Math.pow] to the
    engine, so they are the members of a class: what is proved of the hit
    tests holds for whatever the operations compute.  [Math_pow_2 x] is
    [Math.pow(x, 2)]; every call of [Math.pow] in the code has the exponent
    2. *)
Class Arithmetic := {
  double_add : double -> double -> double;
  double_sub : double -> double -> double;
  double_mul : double -> double -> double;
  double_div : double -> double -> double;
  Math_pow_2 : double -> double;
  Math_sqrt : double -> double
}.

Definition Qltb (a b : Q) : bool := negb (Qle_bool b a).

(** [a < b].  A comparison is exact, and false when an operand is [NaN]. *)
Definition double_ltb (a b : double) : bool :=
  match a, b with
  | not_a_number, _ | _, not_a_number => false
  | finite u, finite v => Qltb u v
  | neg_infinity, neg_infinity => false
  | neg_infinity, _ => true
  | finite _, pos_infinity => true
  | _, _ => false
  end.

(** [a === 0] *)
Definition double_is_zero (a : double) : bool :=
  match a with
  | finite v => Qeq_bool v 0
  | _ => false
  end.

(** *** The doubles of IEEE 754

    The instance of the arithmetic in which every operation gives the double
    nearest to the exact result, a tie going to the even significand:
    the arithmetic of binary64 in its default rounding mode.  The examples
    are computed in it.  [Math.pow(x, 2)], which the language does not fix,
    is taken to be the rounded product [x * x].  As the two zeros are one
    value here, a quotient by zero has the sign of its dividend. *)

(** [floor (n / (d * 2 ^ e))], for an exponent of either sign. *)
Definition scaledFloor (n d e : Z) : Z :=
  if 0 <=? e then n / (d * 2 ^ e) else (n * 2 ^ (- e)) / d.

(** The exponent, next to the estimate [e], at which [significand] has 53
    bits. *)
Fixpoint findExponent (fuel : nat) (significand : Z -> Z) (e : Z) : Z :=
  match fuel with
  | O => e
  | S fuel' =>
      let m := significand e in
      if m <? 2 ^ 52 then findExponent fuel' significand (e - 1)
      else if 2 ^ 53 <=? m then findExponent fuel' significand (e + 1)
      else e
  end.

(** [m * 2 ^ e] *)
Definition timesPowerOfTwo (m e : Z) : Q :=
  if 0 <=? e then inject_Z (m * 2 ^ e) else Qred (Qmake m (Z.to_pos (2 ^ (- e)))).

(** The double nearest to [n / d], for positive [n] and [d].  The exponent
    is at least -1074 (below [2 ^ -1022] the doubles are subnormal), and a
    result of [2 ^ 1024] or more is infinite. *)
Definition roundPositive (n d : Z) : double :=
  let e := Z.max (-1074) (findExponent 3 (scaledFloor n d) (Z.log2 n - Z.log2 d - 52)) in
  let '(N, D) := if 0 <=? e then (n, d * 2 ^ e) else (n * 2 ^ (- e), d) in
  let q := N / D in
  let r := N mod D in
  let m :=
    if 2 * r <? D then q
    else if D <? 2 * r then q + 1
    else if Z.even q then q else q + 1 in
  if (0 <=? e) && (2 ^ 1024 <=? m * 2 ^ e) then pos_infinity
  else finite (timesPowerOfTwo m e).

Definition double_neg (a : double) : double :=
  match a with
  | finite v => finite (- v)
  | pos_infinity => neg_infinity
  | neg_infinity => pos_infinity
  | not_a_number => not_a_number
  end.

(** The double nearest to a rational. *)
Definition roundToDouble (v : Q) : double :=
  match Qnum v with
  | 0 => finite 0
  | Zpos n => roundPositive (Zpos n) (Zpos (Qden v))
  | Zneg n => double_neg (roundPositive (Zpos n) (Zpos (Qden v)))
  end.

(** The double nearest to the square root of [n / d], for positive [n] and
    [d]: the root lies between [f] and [f + 1] at the exponent found, and is
    compared with [f + 1/2] on the squares. *)
Definition sqrtPositive (n d : Z) : double :=
  let e :=
    findExponent 4 (fun e => Z.sqrt (scaledFloor n d (2 * e)))
      ((Z.log2 n - Z.log2 d) / 2 - 52) in
  let '(N, D) := if 0 <=? e then (n, d * 4 ^ e) else (n * 4 ^ (- e), d) in
  let f := Z.sqrt (N / D) in
  let half := (4 * f * f + 4 * f + 1) * D in
  let m :=
    if 4 * N <? half then f
    else if half <? 4 * N then f + 1
    else if Z.even f then f else f + 1 in
  finite (timesPowerOfTwo m e).

Definition ieee_add (a b : double) : double :=
  match a, b with
  | not_a_number, _ | _, not_a_number => not_a_number
  | pos_infinity, neg_infinity | neg_infinity, pos_infinity => not_a_number
  | pos_infinity, _ | _, pos_infinity => pos_infinity
  | neg_infinity, _ | _, neg_infinity => neg_infinity
  | finite u, finite v => roundToDouble (u + v)
  end.

Definition ieee_sub (a b : double) : double := ieee_add a (double_neg b).

Definition double_is_negative (a : double) : bool :=
  match a with
  | finite v => Qltb v 0
  | neg_infinity => true
  | _ => false
  end.

(** The infinity with the sign of a product or of a quotient. *)
Definition signedInfinity (a b : double) : double :=
  if xorb (double_is_negative a) (double_is_negative b) then neg_infinity
  else pos_infinity.

Definition ieee_mul (a b : double) : double :=
  match a, b with
  | not_a_number, _ | _, not_a_number => not_a_number
  | finite u, finite v => roundToDouble (u * v)
  | _, _ =>
      if double_is_zero a || double_is_zero b then not_a_number
      else signedInfinity a b
  end.

Definition ieee_div (a b : double) : double :=
  match a, b with
  | not_a_number, _ | _, not_a_number => not_a_number
  | finite u, finite v =>
      if Qeq_bool v 0 then
        if Qeq_bool u 0 then not_a_number else signedInfinity a b
      else roundToDouble (u / v)
  | finite _, _ => finite 0
  | _, finite _ => signedInfinity a b
  | _, _ => not_a_number
  end.

Definition ieee_sqrt (a : double) : double :=
  match a with
  | finite v =>
      match Qnum v with
      | 0 => finite 0
      | Zpos n => sqrtPositive (Zpos n) (Zpos (Qden v))
      | Zneg _ => not_a_number
      end
  | pos_infinity => pos_infinity
  | _ => not_a_number
  end.

#[global] Instance ieee754 : Arithmetic := {|
  double_add := ieee_add;
  double_sub := ieee_sub;
  double_mul := ieee_mul;
  double_div := ieee_div;
  Math_pow_2 := fun a => ieee_mul a a;
  Math_sqrt := ieee_sqrt
|}.

(** ** Queries *)

Definition getVisibleNodes (s : Store) : list Node :=
  List.filter (fun node => Node.floorIndex node =? currentFloorIndex s) (Store.nodes s).

Definition getVisibleCorridors (s : Store) : list Corridor :=
  List.filter
    (fun corridor =>
       (0 <? length (getSegmentsForFloor (Corridor.segments corridor) (currentFloorIndex s)))%nat)
    (Store.corridors s).

(** The object that [getNodeCentroid] returns: its coordinates are computed
    and need not be finite. *)
Module Centroid.
Record t := mk { x : double; y : double; z : option Z }.
End Centroid.

(** [polygon.reduce((sum, p) => sum + f(p), 0)] *)
Definition sumBy {arith : Arithmetic} (f : Position -> Q) (polygon : list Position) : double :=
  fold_left (fun sum p => double_add sum (finite (f p))) polygon (finite 0).

Definition getNodeCentroid {arith : Arithmetic} (node : Node) : Centroid.t :=
  let position := Node.position node in
  let ofPosition :=
    Centroid.mk (finite (Position.x position)) (finite (Position.y position))
      (Position.z position) in
  match Node.polygon node with
  | Some polygon =>
      if bool_decide (Node.shape node = shape_polygon) then
        let n := finite (inject_Z (Z.of_nat (length polygon))) in
        Centroid.mk (double_div (sumBy Position.x polygon) n)
          (double_div (sumBy Position.y polygon) n) (Some (Node.floorIndex node))
      else ofPosition
  | None => ofPosition
  end.

(** [Math.sqrt(Math.pow(x - b.x, 2) + Math.pow(y - b.y, 2))] *)
Definition distance {arith : Arithmetic} (x y : double) (b : Position) : double :=
  Math_sqrt
    (double_add (Math_pow_2 (double_sub x (finite (Position.x b))))
       (Math_pow_2 (double_sub y (finite (Position.y b))))).

(** The test [distance < tolerance] of the node loop. *)
Definition nodeHit {arith : Arithmetic} (position : Position) (tolerance : Q) (node : Node)
  : bool :=
  let centroid := getNodeCentroid node in
  double_ltb (distance (Centroid.x centroid) (Centroid.y centroid) position)
    (finite tolerance).

(** [lenSq] of the segment loop: [C * C + D * D]. *)
Definition segmentLenSq {arith : Arithmetic} (segment : CorridorSegment) : double :=
  let start := CorridorSegment.start segment in
  let end_ := CorridorSegment.end_ segment in
  let C := double_sub (finite (Position.x end_)) (finite (Position.x start)) in
  let D := double_sub (finite (Position.y end_)) (finite (Position.y start)) in
  double_add (double_mul C C) (double_mul D D).

(** [distance] of the segment loop, computed when [lenSq] is not zero: the
    distance to the point of the segment at the parameter [param], or to an
    end of the segment when [param] is below 0 or above 1. *)
Definition segmentDistance {arith : Arithmetic} (position : Position) (segment : CorridorSegment)
  : double :=
  let start := CorridorSegment.start segment in
  let end_ := CorridorSegment.end_ segment in
  let A := double_sub (finite (Position.x position)) (finite (Position.x start)) in
  let B := double_sub (finite (Position.y position)) (finite (Position.y start)) in
  let C := double_sub (finite (Position.x end_)) (finite (Position.x start)) in
  let D := double_sub (finite (Position.y end_)) (finite (Position.y start)) in
  let dot := double_add (double_mul A C) (double_mul B D) in
  let lenSq := double_add (double_mul C C) (double_mul D D) in
  let param := double_div dot lenSq in
  let '(xx, yy) :=
    if double_ltb param (finite 0) then
      (finite (Position.x start), finite (Position.y start))
    else if double_ltb (finite 1) param then
      (finite (Position.x end_), finite (Position.y end_))
    else
      (double_add (finite (Position.x start)) (double_mul param C),
       double_add (finite (Position.y start)) (double_mul param D)) in
  let dx := double_sub (finite (Position.x position)) xx in
  let dy := double_sub (finite (Position.y position)) yy in
  Math_sqrt (double_add (double_mul dx dx) (double_mul dy dy)).

(** The body of the segment loop: [false] is [continue], taken at once when
    [lenSq === 0]. *)
Definition segmentHit {arith : Arithmetic} (position : Position) (tolerance : Q)
    (segment : CorridorSegment) : bool :=
  if double_is_zero (segmentLenSq segment) then false
  else double_ltb (segmentDistance position segment) (finite tolerance).

Inductive ElementType := element_node | element_corridor.

Fixpoint hitNodes {arith : Arithmetic} (position : Position) (tolerance : Q)
    (visibleNodes : list Node) : option (string * ElementType) :=
  match visibleNodes with
  | [] => None
  | node :: rest =>
      if nodeHit position tolerance node then Some (Node.id node, element_node)
      else hitNodes position tolerance rest
  end.

Definition corridorHit {arith : Arithmetic} (s : Store) (position : Position) (tolerance : Q)
    (corridor : Corridor) : bool :=
  existsb (segmentHit position tolerance)
    (getSegmentsForFloor (Corridor.segments corridor) (currentFloorIndex s)).

Fixpoint hitCorridors {arith : Arithmetic} (s : Store) (position : Position) (tolerance : Q)
    (visibleCorridors : list Corridor) : option (string * ElementType) :=
  match visibleCorridors with
  | [] => None
  | corridor :: rest =>
      if corridorHit s position tolerance corridor
      then Some (Corridor.id corridor, element_corridor)
      else hitCorridors s position tolerance rest
  end.

(** [tolerance] defaults to 20. *)
Definition getElementByPosition {arith : Arithmetic} (position : Position) (tolerance : option Q)
    (s : Store) : option (string * ElementType) :=
  let tolerance := default 20%Q tolerance in
  match hitNodes position tolerance (getVisibleNodes s) with
  | Some hit => Some hit
  | None => hitCorridors s position tolerance (getVisibleCorridors s)
  end.

(** ** Predicates used by the statements *)

Abbreviation ids l := (map PathSequenceItem.id l).
Abbreviation processed r := (SeqState.processedItems (snd r)).

(** The ids of the path sequence. *)
Definition seqIds (s : Store) : gset string :=
  list_to_set (ids (Store.pathSequence s)).

(** The [to] anchor of a corridor, when it is a non-empty string, has an item
    in the path sequence. *)
Definition targetSequenced (s : Store) (c : Corridor) : bool :=
  match Corridor.to c with
  | Some target => negb (truthy (Some target)) || bool_decide (target ∈ seqIds s)
  | None => true
  end.

Definition targetsSequenced (s : Store) : bool :=
  forallb (targetSequenced s) (Store.corridors s).

(** What the two closures maintain: the output so far is a renumbered list of
    items of the old sequence, each the one [find] returns for its id, with
    pairwise distinct ids, and [processedItems] is the set of these ids. *)
Definition SeqInv (s : Store) (r : Z * SeqState) : Prop :=
  exists items,
    SeqState.reorderedSequence r.2 = renumber items
    /\ r.1 = Z.of_nat (length items)
    /\ NoDup (ids items)
    /\ SeqState.processedItems r.2 = list_to_set (ids items)
    /\ Forall (fun it => find (hasItemId (PathSequenceItem.id it)) (Store.pathSequence s)
                         = Some it) items.

Definition preserves (s : Store)
    (recurse : string -> Z -> SeqState -> option (Z * SeqState)) : Prop :=
  forall nodeId order st r,
    SeqInv s (order, st) -> recurse nodeId order st = Some r -> SeqInv s r.

Definition extends (f g : string -> Z -> SeqState -> option (Z * SeqState)) : Prop :=
  forall nodeId order st r, f nodeId order st = Some r -> g nodeId order st = Some r.

(** The number of ids of the sequence not yet processed: the measure that
    bounds the depth of the recursion. *)
Definition pending (s : Store) (P : gset string) : nat := size (seqIds s ∖ P).

(** [recurse] returns on every unprocessed id of the sequence when at most
    [budget] ids of the sequence are still unprocessed. *)
Definition returnsWithin (s : Store) (budget : nat)
    (recurse : string -> Z -> SeqState -> option (Z * SeqState)) : Prop :=
  forall nodeId order st,
    nodeId ∈ seqIds s -> nodeId ∉ SeqState.processedItems st ->
    (pending s (SeqState.processedItems st) <= budget)%nat ->
    exists r, recurse nodeId order st = Some r /\ SeqState.processedItems st ⊆ processed r.

(** Order values are dense and zero-based: the item at position [i] has
    order [i]. *)
Definition denseOrders (l : list PathSequenceItem) : Prop :=
  forall i item, l !! i = Some item -> PathSequenceItem.order item = Z.of_nat i.

Definition itemKey (item : PathSequenceItem) : string * ItemType :=
  (PathSequenceItem.id item, PathSequenceItem.type item).

(** The ids of the nodes and of the corridors of the store. *)
Definition elementIds (s : Store) : list string :=
  map Node.id (Store.nodes s) ++ map Corridor.id (Store.corridors s).

(** No edge refers to an id that is neither a node nor a corridor. *)
Definition noDanglingEdges (s : Store) : Prop :=
  forall e, e ∈ Store.edges s -> Edge.from e ∈ elementIds s /\ Edge.to e ∈ elementIds s.

Definition endpoints (e : Edge) : string * string := (Edge.from e, Edge.to e).


(** [seg] is the segment from vertex [a] to vertex [b], both with a floor. *)
Definition segmentBetween (a b : Position) (seg : CorridorSegment) : Prop :=
  CorridorSegment.start seg = a
  /\ CorridorSegment.end_ seg = b
  /\ Position.z a = Some (CorridorSegment.startFloor seg)
  /\ Position.z b = Some (CorridorSegment.endFloor seg)
  /\ (CorridorSegment.isCrossFloor seg = true
      <-> CorridorSegment.startFloor seg <> CorridorSegment.endFloor seg).

(** The metadata of an edge that [regenerateEdges] takes from the edge of the
    same id the store held before, or the defaults. *)
Definition carriesOver (edges : list Edge) (current : PathSequenceItem) (e : Edge) : Prop :=
  match find (fun old => bool_decide (Edge.id old = Edge.id e)) edges with
  | Some old =>
      Edge.decision_properties e = Edge.decision_properties old
      /\ Edge.design_intent e = Edge.design_intent old
      /\ Edge.design_importance e = Edge.design_importance old
  | None =>
      Edge.decision_properties e = defaultDecisionProperties
      /\ Edge.design_intent e = defaultDesignIntent current
      /\ Edge.design_importance e = imp_neutral
  end.

Definition orderLe (a b : PathSequenceItem) : Prop :=
  PathSequenceItem.order a <= PathSequenceItem.order b.

(** Id, source and target of an edge. *)
Definition edgeShape (e : Edge) : string * string * string :=
  (Edge.id e, Edge.from e, Edge.to e).

(** The store of the linear scenario: the nodes [E1] (an entrance), [DP1] and
    [AD1], a corridor [k1] from [E1] to [DP1] and a corridor [k2] from [DP1]
    to [AD1], in any order, and a path sequence that holds one item for each
    of the five, in any order and with any order values. *)
Definition linearPath (s : Store) (k1 k2 : string) : Prop :=
  (exists nE nD nA,
      Store.nodes s ≡ₚ [nE; nD; nA]
      /\ Node.id nE = "E1" /\ Node.type nE = EntranceExit
      /\ Node.id nD = "DP1" /\ Node.type nD = DecisionPoint
      /\ Node.id nA = "AD1" /\ Node.type nA = ActivityDestination)
  /\ (exists c1 c2,
         Store.corridors s ≡ₚ [c1; c2]
         /\ Corridor.id c1 = k1 /\ Corridor.from c1 = Some "E1"
         /\ Corridor.to c1 = Some "DP1"
         /\ Corridor.id c2 = k2 /\ Corridor.from c2 = Some "DP1"
         /\ Corridor.to c2 = Some "AD1")
  /\ NoDup ["E1"; "DP1"; "AD1"; k1; k2]
  /\ map itemKey (Store.pathSequence s)
     ≡ₚ [("E1", item_node); ("DP1", item_node); ("AD1", item_node);
         (k1, item_corridor); (k2, item_corridor)].

Definition linearSequence (k1 k2 : string) : list PathSequenceItem :=
  [PathSequenceItem.mk "E1" item_node 0;
   PathSequenceItem.mk k1 item_corridor 1;
   PathSequenceItem.mk "DP1" item_node 2;
   PathSequenceItem.mk k2 item_corridor 3;
   PathSequenceItem.mk "AD1" item_node 4].

Definition linearEdges (k1 k2 : string) : list (string * string * string) :=
  [("E1" +:+ "-" +:+ k1, "E1", k1);
   (k1 +:+ "-" +:+ "DP1", k1, "DP1");
   ("DP1" +:+ "-" +:+ k2, "DP1", k2);
   (k2 +:+ "-" +:+ "AD1", k2, "AD1")].

(** The square of the distance between two positions on the plan, without
    rounding. *)
Definition square (a : Q) : Q := (a * a)%Q.

Definition distanceSq (a b : Position) : Q :=
  (square (Position.x a - Position.x b) + square (Position.y a - Position.y b))%Q.

(** ** Sequences of actions *)

Inductive Action :=
| AddNode (node : Node)
| UpdateNode (id : string) (updates : NodeUpdate.t)
| DeleteNode (id : string)
| MoveNode (id : string) (position : Position)
| AddCorridor (corridor : Corridor)
| UpdateCorridor (id : string) (updates : CorridorUpdate.t)
| UpdateCorridorVertex (corridorId : string) (vertexIndex : Z) (newPosition : Position)
    (newFloor : option Z)
| DeleteCorridor (id : string)
| DeleteFloor (floorIndex : Z).

(** What an action gives back: it returns and leaves a store, or it raises
    and has not written the store. *)
Definition perform (fuel : nat) (a : Action) (s : Store) : Outcome :=
  match a with
  | AddNode node => outcomeOf (addNode fuel node s)
  | UpdateNode id updates => outcomeOf (updateNode fuel id updates s)
  | DeleteNode id => outcomeOf (deleteNode fuel id s)
  | MoveNode id position => Returned (moveNode id position s)
  | AddCorridor corridor => outcomeOf (addCorridor fuel corridor s)
  | UpdateCorridor id updates => outcomeOf (updateCorridor fuel id updates s)
  | UpdateCorridorVertex corridorId vertexIndex newPosition newFloor =>
      updateCorridorVertex fuel corridorId vertexIndex newPosition newFloor s
  | DeleteCorridor id => outcomeOf (deleteCorridor fuel id s)
  | DeleteFloor floorIndex => Returned (deleteFloor floorIndex s)
  end.

(** The store with which a session goes on after an action.  After an
    action that raises a [TypeError] this is the store as it was: the
    action has not written it.  [None] means that the sequencer has not
    returned within the budget.  When it returns within no budget, the
    program exhausts its stack after the [set] of the action; [run]
    describes no such session, and a statement about sessions either assumes
    that [run] gives a store or shows that it does. *)
Definition step (fuel : nat) (a : Action) (s : Store) : option Store :=
  match a with
  | AddNode node => addNode fuel node s
  | UpdateNode id updates => updateNode fuel id updates s
  | DeleteNode id => deleteNode fuel id s
  | MoveNode id position => Some (moveNode id position s)
  | AddCorridor corridor => addCorridor fuel corridor s
  | UpdateCorridor id updates => updateCorridor fuel id updates s
  | UpdateCorridorVertex corridorId vertexIndex newPosition newFloor =>
      match updateCorridorVertex fuel corridorId vertexIndex newPosition newFloor s with
      | Returned s' => Some s'
      | Thrown => Some s
      | OutOfFuel => None
      end
  | DeleteCorridor id => deleteCorridor fuel id s
  | DeleteFloor floorIndex => Some (deleteFloor floorIndex s)
  end.

Fixpoint run (fuel : nat) (actions : list Action) (s : Store) : option Store :=
  match actions with
  | [] => Some s
  | a :: rest =>
      match step fuel a s with
      | Some s' => run fuel rest s'
      | None => None
      end
  end.

(** ** Example stores and scenarios *)

Definition exampleNode (id : string) (type : NodeType) : Node :=
  Node.mk id type shape_circle (Position.mk 0 0 None) 0 None None "" "" None.

Definition exampleCorridor (id : string) (from to : option string) : Corridor :=
  Corridor.mk id [Position.mk 0 0 None; Position.mk 10 10 None] [] 0 None None false
    None None from to None "" "" None.

Definition storeOf (nodes : list Node) (corridors : list Corridor)
    (pathSequence : list PathSequenceItem) : Store :=
  set_pathSequence pathSequence (set_corridors corridors (set_nodes nodes initialStore)).

(** Two nodes joined by a corridor, then the first node deleted. *)
Definition danglingScenario : list Action :=
  [AddNode (exampleNode "N1" DecisionPoint);
   AddNode (exampleNode "N2" DecisionPoint);
   AddCorridor (exampleCorridor "C1" (Some "N1") (Some "N2"));
   DeleteNode "N1"].

(** Two nodes on floor 0, then floor 0 deleted. *)
Definition floorScenario : list Action :=
  [AddNode (exampleNode "N1" DecisionPoint);
   AddNode (exampleNode "N2" DecisionPoint);
   DeleteFloor 0].


(** The initial store after [addCorridor] of a two-vertex corridor [CS1]. *)
Definition vertexStore : Store :=
  default initialStore (addCorridor 5 (exampleCorridor "CS1" None None) initialStore).

Definition vertexCorridor : Corridor :=
  corridorWithFloor initialStore (exampleCorridor "CS1" None None).

(** Two nodes on floor 0: [Far] at distance 3 of the origin comes first in the
    array, [Near] at distance 1 comes second. *)
Definition nodeAt (id : string) (x y : Q) : Node :=
  Node.mk id DecisionPoint shape_circle (Position.mk x y (Some 0)) 0 None
    (Some imp_neutral) "" "" None.

Definition hitStore : Store :=
  storeOf [nodeAt "Far" 3 0; nodeAt "Near" 1 0] []
    [PathSequenceItem.mk "Far" item_node 0; PathSequenceItem.mk "Near" item_node 1].

Definition origin : Position := Position.mk 0 0 None.

(** A corridor whose two vertices are one point: its only segment has the
    length zero. *)
Definition pointCorridor : Corridor :=
  corridorWithFloor initialStore
    (Corridor.mk "CS1" [Position.mk 5 5 (Some 0); Position.mk 5 5 (Some 0)] [] 0 None None
       false None None None None None "" "" None).

Definition pointStore : Store :=
  storeOf [] [pointCorridor] [PathSequenceItem.mk "CS1" item_corridor 0].

(** The doubles nearest to 20.2 and to 0.2 (what the literals [20.2] and
    [0.2] denote), and a store with one node, at the first of them on the x
    axis. *)
Definition double_20_2 : Q := 5685794529555251 # 281474976710656.

Definition double_0_2 : Q := 3602879701896397 # 18014398509481984.

Definition roundingStore : Store :=
  storeOf [nodeAt "N" double_20_2 0] [] [PathSequenceItem.mk "N" item_node 0].

Definition linearScenario : list Action :=
  [AddNode (exampleNode "E1" EntranceExit);
   AddNode (exampleNode "DP1" DecisionPoint);
   AddNode (exampleNode "AD1" ActivityDestination);
   AddCorridor (exampleCorridor "CS1" (Some "E1") (Some "DP1"));
   AddCorridor (exampleCorridor "CS2" (Some "DP1") (Some "AD1"))].

Definition linearStore : Store := default initialStore (run 5 linearScenario initialStore).

(** Four nodes with distinct ids are added, and the path sequence is then
    reordered (as by a drag in the sequence panel) so that the first and the
    third consecutive pairs both give the edge id [a-b-c]. *)
Definition hyphenScenario : list Action :=
  [AddNode (exampleNode "c" DecisionPoint);
   AddNode (exampleNode "a-b" DecisionPoint);
   AddNode (exampleNode "b-c" DecisionPoint);
   AddNode (exampleNode "a" DecisionPoint)].

Definition hyphenBase : Store := default initialStore (run 5 hyphenScenario initialStore).

Definition hyphenSequence : list PathSequenceItem :=
  [PathSequenceItem.mk "a-b" item_node 0; PathSequenceItem.mk "c" item_node 1;
   PathSequenceItem.mk "a" item_node 2; PathSequenceItem.mk "b-c" item_node 3].

Definition intentWhere (e : Edge) : string := DesignIntent.where_ (Edge.design_intent e).

(** A vertex on a given floor, and a path that visits the six floors 0 to 5. *)
Definition floorVertex (floor : Z) : Position := Position.mk 0 0 (Some floor).

Definition sixFloorPath : list Position := map floorVertex [0; 1; 2; 3; 4; 5].

(** The corridor of the cross-floor scenario, with any anchors. *)
Definition crossFloorCorridor (id : string) (from to : option string) : Corridor :=
  Corridor.mk id [Position.mk 0 0 (Some 0); Position.mk 10 10 (Some 1)] [] 0 None None
    false None None from to None "" "" None.

(** Two nodes on a cycle, and a sequence item whose id is neither a node nor
    a corridor. *)
Definition cycleStore : Store :=
  storeOf
    [exampleNode "E1" EntranceExit; exampleNode "DP1" DecisionPoint]
    [exampleCorridor "CS1" (Some "E1") (Some "DP1");
     exampleCorridor "CS2" (Some "DP1") (Some "E1")]
    [PathSequenceItem.mk "ghost" item_node 0;
     PathSequenceItem.mk "CS2" item_corridor 1;
     PathSequenceItem.mk "DP1" item_node 2;
     PathSequenceItem.mk "CS1" item_corridor 3;
     PathSequenceItem.mk "E1" item_node 4].

(** A path sequence that repeats ids, as [updatePathSequence] or
    [loadProject] accept it. *)
Definition duplicateStore : Store :=
  storeOf [exampleNode "A" DecisionPoint] []
    [PathSequenceItem.mk "A" item_node 0; PathSequenceItem.mk "A" item_node 1;
     PathSequenceItem.mk "X" item_corridor 2; PathSequenceItem.mk "X" item_corridor 3].

(** An entrance is added as [N] and renamed [M] by [updateNode]: the path
    sequence keeps the item [N].  [loopStore] is then the store that
    [addCorridor] hands to the sequencer for a corridor from [M] to [M]. *)
Definition renameToM : NodeUpdate.t :=
  NodeUpdate.mk (Some "M") None None None None None None None None None.

Definition renameScenario : list Action :=
  [AddNode (exampleNode "N" EntranceExit); UpdateNode "N" renameToM].

Definition renamedStore : Store :=
  default initialStore (run 5 renameScenario initialStore).

Definition loopCorridor : Corridor := exampleCorridor "C2" (Some "M") (Some "M").

Definition loopStore : Store := addCorridor_set loopCorridor renamedStore.

(** ** More of the corridor utilities ([utils/corridorUtils.ts]) *)

Definition shouldRenderSegmentOnFloor (segment : CorridorSegment) (floorIndex : Z) : bool :=
  (CorridorSegment.startFloor segment =? floorIndex)
  || (CorridorSegment.endFloor segment =? floorIndex).

Module RenderStyle.
Record t := mk { isDotted : bool; color : string; opacity : Q }.
End RenderStyle.

Definition getSegmentRenderStyle (segment : CorridorSegment) (currentFloor : Z)
  : RenderStyle.t :=
  let isCrossFloor := CorridorSegment.isCrossFloor segment in
  let isOnCurrentFloor :=
    (CorridorSegment.startFloor segment =? currentFloor)
    || (CorridorSegment.endFloor segment =? currentFloor) in
  if isCrossFloor
  then RenderStyle.mk true "#8b5cf6" (if isOnCurrentFloor then 1 else 6 # 10)
  else RenderStyle.mk false "#3b82f6" 1.

(** [newPath[vertexIndex]] is an object, hence truthy, exactly when the index
    is inside the array. *)
Definition updatePathWithFloorTransition (path : list Position) (vertexIndex newFloor : Z)
  : list Position :=
  let newPath := path in
  if vertexIndex <? 0 then newPath
  else
    match newPath !! Z.to_nat vertexIndex with
    | Some vertex => <[ Z.to_nat vertexIndex := with_z vertex newFloor ]> newPath
    | None => newPath
    end.

(** The loop of [detectFloorTransitions], from index [i] on. *)
Fixpoint detectFloorTransitionsFrom (i : Z) (path : list Position) : list Z :=
  match path with
  | current :: (next :: _) as rest =>
      let currentFloor := z_or current 0 in
      let nextFloor := z_or next 0 in
      if negb (currentFloor =? nextFloor)
      then i :: detectFloorTransitionsFrom (i + 1) rest
      else detectFloorTransitionsFrom (i + 1) rest
  | _ => []
  end.

Definition detectFloorTransitions (path : list Position) : list Z :=
  detectFloorTransitionsFrom 0 path.

Definition getCorridorSegmentsForFloor (corridorId : string) (floorIndex : Z) (s : Store)
  : list CorridorSegment :=
  match find (fun c => bool_decide (Corridor.id c = corridorId)) (Store.corridors s) with
  | None => []
  | Some corridor => getSegmentsForFloor (Corridor.segments corridor) floorIndex
  end.

(** ** The node near a position: [isNearNode] *)

(** The loop of [isNearNode]: its test is the one of the node loop of
    [getElementByPosition]. *)
Fixpoint nearNode {arith : Arithmetic} (position : Position) (tolerance : Q)
    (visibleNodes : list Node) : option string :=
  match visibleNodes with
  | [] => None
  | node :: rest =>
      if nodeHit position tolerance node then Some (Node.id node)
      else nearNode position tolerance rest
  end.

(** [tolerance] defaults to 30. *)
Definition isNearNode {arith : Arithmetic} (position : Position) (tolerance : option Q)
    (s : Store) : option string :=
  nearNode position (default 30%Q tolerance) (getVisibleNodes s).

(** ** More floor actions *)

(** [Partial<Floor>] *)
Module FloorUpdate.
Record t := mk {
  id : option string;
  name : option string;
  index : option Z;
  backgroundImage : option string;
  scale : option Q;
  pan : option Position
}.
End FloorUpdate.

(** [{ ...floor, ...updates }] *)
Definition mergeFloor (floor : Floor) (updates : FloorUpdate.t) : Floor :=
  Floor.mk
    (default (Floor.id floor) (FloorUpdate.id updates))
    (default (Floor.name floor) (FloorUpdate.name updates))
    (default (Floor.index floor) (FloorUpdate.index updates))
    (default (Floor.backgroundImage floor) (FloorUpdate.backgroundImage updates))
    (default (Floor.scale floor) (FloorUpdate.scale updates))
    (default (Floor.pan floor) (FloorUpdate.pan updates)).

Definition updateFloor (id : string) (updates : FloorUpdate.t) (s : Store) : Store :=
  set_floors
    (map (fun floor => if bool_decide (Floor.id floor = id) then mergeFloor floor updates
                       else floor)
       (Store.floors s))
    s.

Definition reorderFloors (floors : list Floor) (s : Store) : Store := set_floors floors s.

Definition getCurrentFloor (s : Store) : option Floor :=
  find (fun f => Floor.index f =? currentFloorIndex s) (Store.floors s).

(** ** Edge actions *)

(** [Partial<Edge>] *)
Module EdgeUpdate.
Record t := mk {
  id : option string;
  from : option string;
  to : option string;
  design_importance : option Importance;
  decision_properties : option DecisionProperties;
  design_intent : option DesignIntent
}.
End EdgeUpdate.

(** [{ ...edge, ...updates }] *)
Definition mergeEdge (edge : Edge) (updates : EdgeUpdate.t) : Edge :=
  Edge.mk
    (default (Edge.id edge) (EdgeUpdate.id updates))
    (default (Edge.from edge) (EdgeUpdate.from updates))
    (default (Edge.to edge) (EdgeUpdate.to updates))
    (default (Edge.design_importance edge) (EdgeUpdate.design_importance updates))
    (default (Edge.decision_properties edge) (EdgeUpdate.decision_properties updates))
    (default (Edge.design_intent edge) (EdgeUpdate.design_intent updates)).

Definition addEdge (edge : Edge) (s : Store) : Store :=
  set_edges (Store.edges s ++ [edge]) s.

Definition updateEdge (id : string) (updates : EdgeUpdate.t) (s : Store) : Store :=
  set_edges
    (map (fun edge => if bool_decide (Edge.id edge = id) then mergeEdge edge updates
                      else edge)
       (Store.edges s))
    s.

Definition deleteEdge (id : string) (s : Store) : Store :=
  set_edges
    (List.filter (fun edge => negb (bool_decide (Edge.id edge = id))) (Store.edges s))
    s.

(** The edits of the edge collection made by hand. *)
Inductive EdgeAction :=
| AddEdge (edge : Edge)
| UpdateEdge (id : string) (updates : EdgeUpdate.t)
| DeleteEdge (id : string).

Definition edgeStep (a : EdgeAction) (s : Store) : Store :=
  match a with
  | AddEdge edge => addEdge edge s
  | UpdateEdge id updates => updateEdge id updates s
  | DeleteEdge id => deleteEdge id s
  end.

(** ** Fresh ids: [generateId] *)

(** The ids that [generateId] avoids: those of the nodes, of the corridors
    and of the edges. *)
Definition allIds (s : Store) : list string :=
  map Node.id (Store.nodes s) ++ map Corridor.id (Store.corridors s)
  ++ map Edge.id (Store.edges s).

(** The template [`${type}${counter}`]: the counter in decimal. *)
Definition idOf (type : string) (counter : nat) : string := type +:+ pretty counter.

(** The [while] loop of [generateId]; [fuel] bounds the number of times its
    body runs. *)
Fixpoint generateId_loop (fuel : nat) (allIds : list string) (type : string)
    (counter : nat) : option string :=
  let id := idOf type counter in
  if bool_decide (id ∈ allIds) then
    match fuel with
    | O => None
    | S fuel' => generateId_loop fuel' allIds type (S counter)
    end
  else Some id.

Definition generateId (fuel : nat) (type : string) (s : Store) : option string :=
  generateId_loop fuel (allIds s) type 1.

(** ** The name of the saved file: [generateFileName] *)

Section FileName.

(** [String.prototype.trim], of the engine: it removes the white space and
    the line terminators of Unicode from both ends of a string.  It is a
    parameter, whatever the encoding of the strings. *)
Variable trim : string -> string.

(** [date] is [new Date().toISOString().split('T')[0]]. *)
Definition generateFileName (date : string) (s : Store) : string :=
  let buildingId := ProjectIdentification.buildingId (Store.projectId s) in
  let architectId := ProjectIdentification.architectId (Store.projectId s) in
  let routeId := ProjectIdentification.routeId (Store.projectId s) in
  let parts :=
    List.filter (fun part => negb (bool_decide (trim part = "")))
      [buildingId; architectId; routeId; date] in
  if (length parts =? 0)%nat then "spatial-annotation-" +:+ date +:+ ".json"
  else String.concat "_" parts +:+ ".json".

End FileName.

Definition set_projectId (v : ProjectIdentification) (s : Store) : Store :=
  Store.mk (Store.nodes s) (Store.corridors s) (Store.edges s) (Store.pathSequence s)
    (Store.floors s) v (Store.journeyReflection s) (Store.canvasState s)
    (Store.currentNode s) (Store.currentCorridor s).

Definition setProjectId (projectId : ProjectIdentification) (s : Store) : Store :=
  set_projectId projectId s.

(** ** The drawing buffer *)

Inductive DrawingType := drawing_corridor | drawing_zone | drawing_point.

Module DrawingState.
Record t := mk {
  isDrawing : bool;
  currentPath : list Position;
  snapTarget : option string;
  drawingType : option DrawingType;
  startFloor : option Z;
  crossFloorVertices : list Z
}.
End DrawingState.
Abbreviation DrawingState := DrawingState.t.

(** The drawing buffer of a fresh session, which is also the one that
    [cancelDrawing] and [finishDrawing] leave. *)
Definition idleDrawingState : DrawingState :=
  DrawingState.mk false [] None None None [].

Definition startDrawing (type : DrawingType) (startPoint : option Position) (s : Store)
  : DrawingState :=
  DrawingState.mk true
    (match startPoint with Some p => [p] | None => [] end)
    None (Some type) (Some (currentFloorIndex s)) [].

(** [newPath[newPath.length - 2]] is read only when [newPath] has two
    elements or more, and is then inside the array. *)
Definition addDrawingPoint (point : Position) (s : Store) (drawingState : DrawingState)
  : DrawingState :=
  let newPath := DrawingState.currentPath drawingState ++ [point] in
  let crossFloorVertices := DrawingState.crossFloorVertices drawingState in
  let crossFloorVertices :=
    if (1 <? length newPath)%nat then
      match newPath !! (length newPath - 2)%nat with
      | Some prevPoint =>
          let currentFloor := z_or point (currentFloorIndex s) in
          let prevFloor := z_or prevPoint (currentFloorIndex s) in
          if negb (currentFloor =? prevFloor)
          then crossFloorVertices ++ [Z.of_nat (length newPath) - 2]
          else crossFloorVertices
      | None => crossFloorVertices
      end
    else crossFloorVertices in
  DrawingState.mk (DrawingState.isDrawing drawingState) newPath
    (DrawingState.snapTarget drawingState) (DrawingState.drawingType drawingState)
    (DrawingState.startFloor drawingState) crossFloorVertices.

Definition cancelDrawing (drawingState : DrawingState) : DrawingState := idleDrawingState.

(** [currentPath.slice(0, -1)] *)
Definition undoLastPoint (drawingState : DrawingState) : DrawingState :=
  DrawingState.mk (DrawingState.isDrawing drawingState)
    (removelast (DrawingState.currentPath drawingState))
    (DrawingState.snapTarget drawingState) (DrawingState.drawingType drawingState)
    (DrawingState.startFloor drawingState) (DrawingState.crossFloorVertices drawingState).

(** The points of a drawing, added one after the other. *)
Definition drawPoints (points : list Position) (s : Store) (drawingState : DrawingState)
  : DrawingState :=
  fold_left (fun ds point => addDrawingPoint point s ds) points drawingState.

(** ** The canvas ([components/Canvas.tsx]) *)

(** The helpers of the canvas close over [corridors], the visible corridors
    at the time the canvas was rendered, and over the current floor of that
    time; both are arguments here. *)

(** The test [distance < tolerance] of [isNearCorridorVertex]. *)
Definition vertexHit {arith : Arithmetic} (position : Position) (tolerance : Q) (vertex : Position)
  : bool :=
  double_ltb
    (distance (finite (Position.x vertex)) (finite (Position.y vertex)) position)
    (finite tolerance).

(** The inner loop of [isNearCorridorVertex], from index [i] on. *)
Fixpoint nearVertexFrom {arith : Arithmetic} (i : Z) (position : Position) (tolerance : Q)
    (path : list Position) : option Z :=
  match path with
  | [] => None
  | vertex :: rest =>
      if vertexHit position tolerance vertex then Some i
      else nearVertexFrom (i + 1) position tolerance rest
  end.

(** The loop of [isNearCorridorVertex] over the corridors. *)
Fixpoint nearCorridorVertex {arith : Arithmetic} (corridors : list Corridor) (position : Position)
    (tolerance : Q) : option (string * Z) :=
  match corridors with
  | [] => None
  | corridor :: rest =>
      match nearVertexFrom 0 position tolerance (Corridor.path corridor) with
      | Some vertexIndex => Some (Corridor.id corridor, vertexIndex)
      | None => nearCorridorVertex rest position tolerance
      end
  end.

(** [tolerance] defaults to 12. *)
Definition isNearCorridorVertex {arith : Arithmetic} (corridors : list Corridor)
    (position : Position) (tolerance : option Q) : option (string * Z) :=
  nearCorridorVertex corridors position (default 12%Q tolerance).

(** The array [updatedPath] of [updateConnectedCorridors] after its two
    assignments.  The first one replaces element 0, or creates it; the second
    one replaces the last element, and on an empty array only adds a property
    [-1] to the array object. *)
Definition patchedPath (currentFloorIndex : Z) (nodeId : string) (newPosition : Position)
    (corridor : Corridor) : list Position :=
  let moved := with_z newPosition (z_or newPosition currentFloorIndex) in
  let updatedPath := Corridor.path corridor in
  let updatedPath :=
    if bool_decide (Corridor.from corridor = Some nodeId) then
      match updatedPath with
      | [] => [moved]
      | _ :: rest => moved :: rest
      end
    else updatedPath in
  if bool_decide (Corridor.to corridor = Some nodeId)
  then <[ (length updatedPath - 1)%nat := moved ]> updatedPath
  else updatedPath.

(** What [updateConnectedCorridors] gives back: it completes, or a call of
    [updateCorridorVertex] raises in the middle of the loop, which ends the
    loop with the store the earlier rounds left. *)
Inductive PatchOutcome :=
| Completed (s : Store)
| Raised (s : Store)
| PatchOutOfFuel.

(** The callback of [corridors.forEach].  When [updatedPath[0]] is undefined,
    [updateCorridorVertex] raises on [newPosition.z], unless it has returned
    before for want of a corridor of that id. *)
Definition patchCorridor (fuel : nat) (currentFloorIndex : Z) (nodeId : string)
    (newPosition : Position) (corridor : Corridor) (s : Store) : PatchOutcome :=
  if bool_decide (Corridor.from corridor = Some nodeId)
     || bool_decide (Corridor.to corridor = Some nodeId)
  then
    match head (patchedPath currentFloorIndex nodeId newPosition corridor) with
    | Some first =>
        match updateCorridorVertex fuel (Corridor.id corridor) 0 first None s with
        | Returned s' => Completed s'
        | Thrown => Raised s
        | OutOfFuel => PatchOutOfFuel
        end
    | None =>
        match find (fun c => bool_decide (Corridor.id c = Corridor.id corridor))
                (Store.corridors s) with
        | Some _ => Raised s
        | None => Completed s
        end
    end
  else Completed s.

Fixpoint updateConnectedCorridors (fuel : nat) (corridors : list Corridor)
    (currentFloorIndex : Z) (nodeId : string) (newPosition : Position) (s : Store)
  : PatchOutcome :=
  match corridors with
  | [] => Completed s
  | corridor :: rest =>
      match patchCorridor fuel currentFloorIndex nodeId newPosition corridor s with
      | Completed s' =>
          updateConnectedCorridors fuel rest currentFloorIndex nodeId newPosition s'
      | outcome => outcome
      end
  end.

(** The store an outcome leaves, when the budget sufficed. *)
Definition patchedStore (o : PatchOutcome) : option Store :=
  match o with
  | Completed s | Raised s => Some s
  | PatchOutOfFuel => None
  end.

(** The vertices of a corridor after the first one. *)
Definition laterVertices (c : Corridor) : string * list Position :=
  (Corridor.id c, tail (Corridor.path c)).

(** The loop of [isNearCorridorSegment] over the corridors.  Its inner loop
    is the segment test of [getElementByPosition]; the segments are looked up
    in the store, by the id of the corridor. *)
Fixpoint nearCorridorSegment {arith : Arithmetic} (corridors : list Corridor)
    (currentFloorIndex : Z) (position : Position) (tolerance : Q) (s : Store)
  : option string :=
  match corridors with
  | [] => None
  | corridor :: rest =>
      let segments := getCorridorSegmentsForFloor (Corridor.id corridor) currentFloorIndex s in
      if existsb (segmentHit position tolerance) segments then Some (Corridor.id corridor)
      else nearCorridorSegment rest currentFloorIndex position tolerance s
  end.

(** [tolerance] defaults to 15. *)
Definition isNearCorridorSegment {arith : Arithmetic} (corridors : list Corridor)
    (currentFloorIndex : Z) (position : Position) (tolerance : option Q) (s : Store)
  : option string :=
  nearCorridorSegment corridors currentFloorIndex position (default 15%Q tolerance) s.

(** ** More predicates used by the statements *)

(** The path sequence names only nodes and corridors of the store. *)
Definition sequenceCovered (s : Store) : Prop :=
  forall x, x ∈ ids (Store.pathSequence s) -> x ∈ elementIds s.

(** A corridor starts or ends at the node [id]. *)
Definition anchoredAt (id : string) (c : Corridor) : bool :=
  bool_decide (Corridor.from c = Some id) || bool_decide (Corridor.to c = Some id).

(** The actions under which the path sequence keeps naming elements of the
    store: no update renames an element, a deleted node has no corridor
    attached, and no floor is deleted. *)
Definition keepsIds (s : Store) (a : Action) : bool :=
  match a with
  | AddNode _ | MoveNode _ _ | AddCorridor _ | DeleteCorridor _
  | UpdateCorridorVertex _ _ _ _ => true
  | UpdateNode _ updates => bool_decide (NodeUpdate.id updates = None)
  | UpdateCorridor _ updates => bool_decide (CorridorUpdate.id updates = None)
  | DeleteNode id => negb (existsb (anchoredAt id) (Store.corridors s))
  | DeleteFloor _ => false
  end.


(** The derived fields of a corridor agree with its path. *)
Definition segmentsDerived (c : Corridor) : Prop :=
  Corridor.segments c = generateCorridorSegments (Corridor.path c)
  /\ Corridor.isCrossFloor c = hasFloorTransition (Corridor.segments c).

(** The actions that cannot set the derived fields of a corridor apart from
    its path: an update either carries a path or carries neither segments nor
    the cross-floor flag. *)
Definition keepsSegments (a : Action) : bool :=
  match a with
  | UpdateCorridor _ updates =>
      bool_decide (is_Some (CorridorUpdate.path updates))
      || (bool_decide (CorridorUpdate.segments updates = None)
          && bool_decide (CorridorUpdate.isCrossFloor updates = None))
  | _ => true
  end.

(** Two stores whose path sequences find, for every id, items of the same id
    and type. *)
Definition sameItems (s1 s2 : Store) : Prop :=
  forall x,
    option_map itemKey (find (hasItemId x) (Store.pathSequence s1))
    = option_map itemKey (find (hasItemId x) (Store.pathSequence s2)).

(** [recurse] only appends to the output. *)
Definition appendsOnly (recurse : string -> Z -> SeqState -> option (Z * SeqState)) : Prop :=
  forall nodeId order st r,
    recurse nodeId order st = Some r ->
    exists suffix, SeqState.reorderedSequence r.2 = SeqState.reorderedSequence st ++ suffix.

(** What an action needs for the sequencer to return after it: a corridor
    that is added, or whose [to] anchor is updated, ends at an id of the path
    sequence (or has no such anchor), and a deleted corridor is not the [to]
    anchor of another one. *)
Definition keepsTargets (s : Store) (a : Action) : bool :=
  match a with
  | AddCorridor corridor => targetSequenced (addCorridor_set corridor s) corridor
  | UpdateCorridor _ updates =>
      match CorridorUpdate.to updates with
      | Some target => negb (truthy (Some target)) || bool_decide (target ∈ seqIds s)
      | None => true
      end
  | DeleteCorridor id =>
      forallb (fun c => negb (bool_decide (Corridor.to c = Some id))) (Store.corridors s)
  | _ => true
  end.

(** [keepsIds] and [keepsTargets] along a session: both hold for each
    action, on the store that the actions before it left.  That store is
    computed with a budget that suffices on a store whose [to] anchors are
    sequenced. *)
Fixpoint guardedAlong (actions : list Action) (s : Store) : bool :=
  match actions with
  | [] => true
  | a :: rest =>
      keepsIds s a && keepsTargets s a
      && match step (S (S (length (Store.pathSequence s)))) a s with
         | Some s' => guardedAlong rest s'
         | None => true
         end
  end.

(** The calls of [updateCorridorVertex] that leave holes in the path: the
    corridor exists, and the index is an array index beyond the end of its
    path. *)
Definition leavesHoles (s : Store) (a : Action) : bool :=
  match a with
  | UpdateCorridorVertex corridorId vertexIndex _ _ =>
      match find (fun c => bool_decide (Corridor.id c = corridorId)) (Store.corridors s) with
      | Some corridor =>
          (Z.of_nat (length (Corridor.path corridor)) <? vertexIndex)
          && (vertexIndex <? maxArrayLength)
      | None => false
      end
  | _ => false
  end.

(** ** More example stores and scenarios *)

(** A corridor of two vertices that climbs from floor 0 to floor 2, stored
    with its derived segments. *)
Definition stairCorridor : Corridor :=
  corridorWithFloor initialStore
    (Corridor.mk "CS1" [Position.mk 0 0 (Some 0); Position.mk 10 10 (Some 2)] [] 0 None None
       false None None None None None "" "" None).

Definition stairStore : Store := storeOf [] [stairCorridor] [].

(** Two non-entrance nodes on a cycle of two corridors. *)
Definition roundaboutStore : Store :=
  storeOf
    [exampleNode "DP1" DecisionPoint; exampleNode "DP2" DecisionPoint]
    [exampleCorridor "CS1" (Some "DP1") (Some "DP2");
     exampleCorridor "CS2" (Some "DP2") (Some "DP1")]
    [PathSequenceItem.mk "CS2" item_corridor 7;
     PathSequenceItem.mk "DP2" item_node 3;
     PathSequenceItem.mk "CS1" item_corridor 3;
     PathSequenceItem.mk "DP1" item_node 0].

(** The linear scenario, then a node added, moved and deleted again, and the
    second corridor deleted. *)
Definition tidyScenario : list Action :=
  linearScenario
  ++ [AddNode (exampleNode "DP2" DecisionPoint);
      MoveNode "DP2" (Position.mk 4 4 None);
      DeleteNode "DP2";
      DeleteCorridor "CS2"].

(** A corridor is added, its path is replaced, and one of its vertices is
    moved to floor 0. *)
Definition pathUpdateScenario : list Action :=
  [AddCorridor (exampleCorridor "CS1" None None);
   UpdateCorridor "CS1"
     (CorridorUpdate.ofPath
        [Position.mk 0 0 (Some 0); Position.mk 5 5 (Some 1); Position.mk 9 9 (Some 1)]);
   UpdateCorridorVertex "CS1" 1 (Position.mk 6 6 None) (Some 0)].

(** A store with the floors 0 and 1, floor 0 current. *)
Definition exampleFloor (index : Z) (name image : string) : Floor :=
  Floor.mk name name index image 1 (Position.mk 0 0 None).

Definition twoFloorStore : Store :=
  addFloor (exampleFloor 1 "F1" "first.png")
    (addFloor (exampleFloor 0 "F0" "ground.png") initialStore).

(** [trim] on the strings of ASCII characters, whose white space is the
    tab, the line feed, the vertical tab, the form feed, the carriage return
    and the space. *)
Definition isAsciiWhiteSpace (c : Ascii.ascii) : bool :=
  let n := Ascii.nat_of_ascii c in
  ((9 <=? n) && (n <=? 13) || (n =? 32))%nat.

Fixpoint trimStart (s : string) : string :=
  match s with
  | EmptyString => EmptyString
  | String c rest => if isAsciiWhiteSpace c then trimStart rest else s
  end.

Definition trimAscii (s : string) : string :=
  String.rev (trimStart (String.rev (trimStart s))).

(** An update of the metadata of an edge. *)
Definition importantEdge : EdgeUpdate.t :=
  EdgeUpdate.mk None (Some "elsewhere") None (Some imp_yes)
    (Some (DecisionProperties.mk imp_yes ["signage"] None)) None.

(** An update of the notes of a corridor, and one of the importance of a
    node. *)
Definition noteUpdate : CorridorUpdate.t :=
  CorridorUpdate.mk None None None None None None None None None None None None None None
    (Some "narrow").

Definition importanceUpdate : NodeUpdate.t :=
  NodeUpdate.mk None None None None None None (Some imp_yes) None None None.

(** * Properties *)

(** ** Floors, segments and sorting *)

Lemma fold_left_min_spec l v :
  fold_left Z.min l v ∈ v :: l /\ forall x, x ∈ v :: l -> fold_left Z.min l v <= x.
Proof.
  revert v. induction l as [|a l IH]; intros v; simpl.
  - split; [apply list_elem_of_here|]. intros x Hx. apply list_elem_of_singleton in Hx. lia.
  - destruct (IH (Z.min v a)) as [Hin Hle]. split.
    + apply elem_of_cons in Hin as [Heq|Hin]; [|by do 2 apply list_elem_of_further].
      rewrite Heq. destruct (Z.min_spec v a) as [[_ ->]|[_ ->]]; set_solver.
    + intros x Hx. pose proof (Hle (Z.min v a) (list_elem_of_here _ _)) as H0.
      apply elem_of_cons in Hx as [->|Hx]; [lia|].
      apply elem_of_cons in Hx as [->|Hx]; [lia|].
      apply Hle. by apply list_elem_of_further.
Qed.

Lemma fold_left_max_spec l v :
  fold_left Z.max l v ∈ v :: l /\ forall x, x ∈ v :: l -> x <= fold_left Z.max l v.
Proof.
  revert v. induction l as [|a l IH]; intros v; simpl.
  - split; [apply list_elem_of_here|]. intros x Hx. apply list_elem_of_singleton in Hx. lia.
  - destruct (IH (Z.max v a)) as [Hin Hle]. split.
    + apply elem_of_cons in Hin as [Heq|Hin]; [|by do 2 apply list_elem_of_further].
      rewrite Heq. destruct (Z.max_spec v a) as [[_ ->]|[_ ->]]; set_solver.
    + intros x Hx. pose proof (Hle (Z.max v a) (list_elem_of_here _ _)) as H0.
      apply elem_of_cons in Hx as [->|Hx]; [lia|].
      apply elem_of_cons in Hx as [->|Hx]; [lia|].
      apply Hle. by apply list_elem_of_further.
Qed.

(** [Math.min] and [Math.max] of a non-empty list are its least and greatest
    elements. *)
Lemma Math_min_max_spec (l : list Z) :
  l <> [] ->
  exists lo hi,
    Math_min l = Fin lo /\ Math_max l = Fin hi
    /\ lo ∈ l /\ hi ∈ l /\ forall x, x ∈ l -> lo <= x <= hi.
Proof.
  destruct l as [|v l]; [done|]. intros _.
  destruct (fold_left_min_spec l v) as [Hmin Hle].
  destruct (fold_left_max_spec l v) as [Hmax Hge].
  exists (fold_left Z.min l v), (fold_left Z.max l v). repeat split; auto.
Qed.

Lemma generateCorridorSegments_length path :
  length (generateCorridorSegments path) = pred (length path).
Proof.
  induction path as [|a [|b rest] IH]; [done..|].
  change (generateCorridorSegments (a :: b :: rest))
    with (mkSegment a b :: generateCorridorSegments (b :: rest)).
  simpl length in *. by rewrite IH.
Qed.

Lemma generateCorridorSegments_lookup path i a b :
  path !! i = Some a -> path !! S i = Some b ->
  generateCorridorSegments path !! i = Some (mkSegment a b).
Proof.
  revert i. induction path as [|p [|q rest] IH]; intros i Ha Hb; [done..|].
  change (generateCorridorSegments (p :: q :: rest))
    with (mkSegment p q :: generateCorridorSegments (q :: rest)).
  destruct i as [|i]; simpl in *.
  - by inversion Ha; inversion Hb; subst.
  - by apply IH.
Qed.

Lemma generateCorridorSegments_elem path seg :
  seg ∈ generateCorridorSegments path ->
  exists a b, a ∈ path /\ b ∈ path /\ seg = mkSegment a b.
Proof.
  induction path as [|p [|q rest] IH]; intros Hin; [by apply elem_of_nil in Hin..|].
  change (generateCorridorSegments (p :: q :: rest))
    with (mkSegment p q :: generateCorridorSegments (q :: rest)) in Hin.
  apply elem_of_cons in Hin as [->|Hin].
  - exists p, q. set_solver.
  - destruct (IH Hin) as (a & b & Ha & Hb & ->). exists a, b. set_solver.
Qed.

Lemma insertByOrder_perm a l : insertByOrder a l ≡ₚ a :: l.
Proof.
  induction l as [|b l IH]; simpl; [done|].
  destruct (_ <=? _); [done|]. rewrite IH. apply Permutation_swap.
Qed.

Lemma sortByOrder_perm l : sortByOrder l ≡ₚ l.
Proof.
  induction l as [|a l IH]; simpl; [done|]. by rewrite insertByOrder_perm, IH.
Qed.

Lemma insertByOrder_sorted a l :
  Sorted orderLe l -> Sorted orderLe (insertByOrder a l).
Proof.
  induction 1 as [|b l Hs IH Hhd]; simpl; [by repeat constructor|].
  destruct (PathSequenceItem.order a <=? PathSequenceItem.order b) eqn:Hab.
  - apply Z.leb_le in Hab. by repeat constructor.
  - apply Z.leb_gt in Hab. constructor; [done|].
    destruct Hhd as [|c l Hbc]; simpl.
    + constructor. unfold orderLe. lia.
    + destruct (_ <=? _); constructor; [unfold orderLe; lia|done].
Qed.

Lemma sortByOrder_sorted l : Sorted orderLe (sortByOrder l).
Proof.
  induction l as [|a l IH]; simpl; [constructor|]. by apply insertByOrder_sorted.
Qed.

(** A sequence already sorted is left as it is: the sort is stable. *)
Lemma sortByOrder_id l : Sorted orderLe l -> sortByOrder l = l.
Proof.
  induction 1 as [|a l Hs IH Hhd]; simpl; [done|]. rewrite IH.
  destruct Hhd as [|b l Hab]; simpl; [done|].
  unfold orderLe in Hab. by rewrite (proj2 (Z.leb_le _ _) Hab).
Qed.

(** The sort is stable: the items of a given order keep their relative
    order. *)
Lemma insertByOrder_stable k a l :
  filter (fun x => PathSequenceItem.order x = k) (insertByOrder a l)
  = filter (fun x => PathSequenceItem.order x = k) (a :: l).
Proof.
  induction l as [|b l IH]; simpl; [done|].
  destruct (PathSequenceItem.order a <=? PathSequenceItem.order b) eqn:Hab; [done|].
  apply Z.leb_gt in Hab. rewrite (filter_cons _ b), IH, !filter_cons.
  destruct (decide (PathSequenceItem.order a = k)) as [Ha|Ha];
    destruct (decide (PathSequenceItem.order b = k)) as [Hb|Hb]; try done.
  lia.
Qed.

Lemma sortByOrder_stable k l :
  filter (fun x => PathSequenceItem.order x = k) (sortByOrder l)
  = filter (fun x => PathSequenceItem.order x = k) l.
Proof.
  induction l as [|a l IH]; simpl; [done|].
  by rewrite insertByOrder_stable, !filter_cons, IH.
Qed.

Lemma List_filter_Permutation {A} (f : A -> bool) l l' :
  l ≡ₚ l' -> List.filter f l ≡ₚ List.filter f l'.
Proof.
  induction 1 as [|x l l' _ IH|x y l|l l' l'' _ IH1 _ IH2]; simpl.
  - done.
  - destruct (f x); by rewrite IH.
  - destruct (f x), (f y); try done. apply Permutation_swap.
  - by rewrite IH1.
Qed.

(** ** The sequencer *)

Section Sequencer.
Variable s : Store.

Lemma find_hasItemId_Some itemId l item :
  find (hasItemId itemId) l = Some item ->
  item ∈ l /\ PathSequenceItem.id item = itemId.
Proof.
  intros H. apply find_some in H as [Hin Hid].
  split; [by apply list_elem_of_In|].
  unfold hasItemId in Hid. by apply bool_decide_eq_true in Hid.
Qed.

Lemma find_hasItemId_None itemId l :
  find (hasItemId itemId) l = None -> itemId ∉ ids l.
Proof.
  intros H Hin. apply list_elem_of_fmap in Hin as (item & -> & Hin).
  apply list_elem_of_In in Hin.
  pose proof (find_none _ _ H _ Hin) as Hn. unfold hasItemId in Hn.
  by apply bool_decide_eq_false in Hn.
Qed.

Lemma find_hasItemId_unique l item :
  NoDup (ids l) -> item ∈ l ->
  find (hasItemId (PathSequenceItem.id item)) l = Some item.
Proof.
  induction l as [|a l IH]; intros Hnd Hin; [by apply elem_of_nil in Hin|].
  simpl in *. apply NoDup_cons in Hnd as [Hnotin Hnd].
  unfold hasItemId at 1. case_bool_decide as Heq.
  - apply elem_of_cons in Hin as [->|Hin]; [done|].
    exfalso. apply Hnotin. rewrite Heq. apply list_elem_of_fmap. eauto.
  - apply elem_of_cons in Hin as [->|Hin]; [done|]. by apply IH.
Qed.


Lemma renumber_snoc items item :
  renumber (items ++ [item])
  = renumber items ++ [with_order item (Z.of_nat (length items))].
Proof.
  unfold renumber. rewrite imap_app. simpl. by rewrite Nat.add_0_r.
Qed.

Lemma imap_with_order_ids (g : nat -> Z) l :
  ids (imap (fun i it => with_order it (g i)) l) = ids l.
Proof.
  revert g. induction l as [|a l IH]; intros g; [done|].
  simpl. f_equal. apply (IH (g ∘ S)).
Qed.

Lemma renumber_ids items : ids (renumber items) = ids items.
Proof. apply imap_with_order_ids. Qed.

Lemma renumber_length items : length (renumber items) = length items.
Proof. unfold renumber. apply length_imap. Qed.


Lemma SeqInv_init : SeqInv s (0, SeqState.mk ∅ []).
Proof. exists []. repeat split; try done. constructor. Qed.

Lemma addItemToSequence_inv itemId order st :
  SeqInv s (order, st) -> SeqInv s (addItemToSequence s itemId order st).
Proof.
  intros Hinv. unfold addItemToSequence.
  case_bool_decide as Hproc; [done|].
  destruct (find _ _) as [item|] eqn:Hfind; [|done].
  destruct Hinv as (items & Hre & Hord & Hnd & Hset & Hall). simpl in *.
  pose proof (find_hasItemId_Some _ _ _ Hfind) as [_ Hid].
  exists (items ++ [item]). simpl. repeat split.
  - rewrite renumber_snoc, Hre, Hord. done.
  - rewrite length_app. simpl. lia.
  - rewrite map_app. simpl. apply NoDup_app. repeat split; [done| |apply NoDup_singleton].
    intros x Hx Hx'. apply list_elem_of_singleton in Hx'. subst x.
    apply Hproc. rewrite Hset, <- Hid. by apply elem_of_list_to_set.
  - rewrite map_app, list_to_set_app_L, Hset. simpl. rewrite Hid.
    rewrite (right_id_L ∅ (∪)). apply (comm_L (∪)).
  - apply Forall_app. split; [done|]. constructor; [|constructor]. by rewrite Hid.
Qed.


Lemma processCorridors_inv recurse cs :
  preserves s recurse ->
  forall order st r,
    SeqInv s (order, st) -> processCorridors recurse s cs order st = Some r -> SeqInv s r.
Proof.
  intros Hrec. induction cs as [|c cs IH]; intros order st r Hinv Hrun; simpl in Hrun.
  - by inversion Hrun; subst.
  - pose proof (addItemToSequence_inv (Corridor.id c) _ _ Hinv) as Hinv1.
    destruct (addItemToSequence s (Corridor.id c) order st) as [order1 st1].
    destruct (Corridor.to c) as [target|].
    + destruct (_ && _) eqn:Hgo in Hrun.
      * destruct (recurse target order1 st1) as [[order2 st2]|] eqn:Hr; [|done].
        eapply IH; [|exact Hrun]. eapply Hrec; eauto.
      * eapply IH; eauto.
    + eapply IH; eauto.
Qed.

Lemma processPath_inv fuel : preserves s (processPath fuel s).
Proof.
  induction fuel as [|fuel IH]; intros nodeId order st r Hinv Hrun; [done|].
  simpl in Hrun.
  pose proof (addItemToSequence_inv nodeId _ _ Hinv) as Hinv1.
  destruct (addItemToSequence s nodeId order st) as [order1 st1].
  eapply processCorridors_inv; eauto.
Qed.

Lemma processStartNodes_inv fuel startNodes :
  forall order st r,
    SeqInv s (order, st) -> processStartNodes fuel s startNodes order st = Some r -> SeqInv s r.
Proof.
  induction startNodes as [|n ns IH]; intros order st r Hinv Hrun; simpl in Hrun.
  - by inversion Hrun; subst.
  - case_bool_decide; [by eapply IH|].
    destruct (processPath fuel s (Node.id n) order st) as [[order1 st1]|] eqn:Hp; [|done].
    eapply IH; [|exact Hrun]. eapply processPath_inv; eauto.
Qed.


Lemma addRemaining_spec (P : gset string) items :
  forall acc,
    addRemaining P items (Z.of_nat (length acc)) (renumber acc)
    = renumber (acc ++ filter (fun it => PathSequenceItem.id it ∉ P) items).
Proof.
  induction items as [|item items IH]; intros acc; simpl.
  - by rewrite app_nil_r.
  - rewrite filter_cons. case_bool_decide as Hin.
    + rewrite decide_False by (intros Hn; by apply Hn). apply IH.
    + rewrite decide_True by done.
      rewrite <- renumber_snoc.
      replace (Z.of_nat (length acc) + 1) with (Z.of_nat (length (acc ++ [item])))
        by (rewrite length_app; simpl; lia).
      rewrite IH. by rewrite <- app_assoc.
Qed.

(** The processed items are exactly the items of the old sequence whose id is
    in [processedItems], when the ids of the old sequence are distinct. *)
Lemma processed_items_perm items (P : gset string) :
  NoDup (ids (Store.pathSequence s)) ->
  NoDup (ids items) ->
  P = list_to_set (ids items) ->
  Forall (fun it => find (hasItemId (PathSequenceItem.id it)) (Store.pathSequence s)
                    = Some it) items ->
  items ≡ₚ filter (fun it => PathSequenceItem.id it ∈ P) (Store.pathSequence s).
Proof.
  intros Hnd Hndi -> Hall.
  apply NoDup_Permutation.
  - by apply NoDup_fmap_1 in Hndi.
  - apply NoDup_filter. by apply NoDup_fmap_1 in Hnd.
  - intros x. rewrite list_elem_of_filter, elem_of_list_to_set. split.
    + intros Hx. rewrite Forall_forall in Hall. specialize (Hall x Hx).
      apply find_hasItemId_Some in Hall as [Hin _]. split; [|done].
      apply list_elem_of_fmap. eauto.
    + intros [Hid Hx]. apply list_elem_of_fmap in Hid as (y & Hxy & Hy).
      rewrite Forall_forall in Hall. specialize (Hall y Hy).
      rewrite <- Hxy in Hall.
      rewrite (find_hasItemId_unique _ x Hnd Hx) in Hall. by inversion Hall; subst.
Qed.



Lemma processCorridors_extends f g cs :
  extends f g ->
  forall order st r,
    processCorridors f s cs order st = Some r -> processCorridors g s cs order st = Some r.
Proof.
  intros Hfg. induction cs as [|c cs IH]; intros order st r Hrun; simpl in *; [done|].
  destruct (addItemToSequence s (Corridor.id c) order st) as [order1 st1].
  destruct (Corridor.to c) as [target|]; [|by apply IH].
  destruct (_ && _) eqn:Hgo in Hrun |- *; [|by apply IH].
  destruct (f target order1 st1) as [[order2 st2]|] eqn:Hf; [|done].
  rewrite (Hfg _ _ _ _ Hf). by apply IH.
Qed.

Lemma processPath_more_fuel fuel : extends (processPath fuel s) (processPath (S fuel) s).
Proof.
  induction fuel as [|fuel IH]; intros nodeId order st r Hrun; [done|].
  simpl in Hrun. change (processPath (S (S fuel)) s nodeId order st)
    with (let '(order, st) := addItemToSequence s nodeId order st in
          processCorridors (processPath (S fuel) s) s
            (List.filter (startsAt nodeId) (Store.corridors s)) order st).
  destruct (addItemToSequence s nodeId order st) as [order1 st1].
  eapply processCorridors_extends; eauto.
Qed.

Lemma processPath_fuel_le fuel fuel' :
  (fuel <= fuel')%nat -> extends (processPath fuel s) (processPath fuel' s).
Proof.
  induction 1 as [|fuel' _ IH]; [by intros ? ? ? ?|].
  intros nodeId order st r Hrun. by apply processPath_more_fuel, IH.
Qed.

Lemma processStartNodes_fuel_le fuel fuel' startNodes :
  (fuel <= fuel')%nat ->
  forall order st r,
    processStartNodes fuel s startNodes order st = Some r ->
    processStartNodes fuel' s startNodes order st = Some r.
Proof.
  intros Hle. induction startNodes as [|n ns IH]; intros order st r Hrun; simpl in *; [done|].
  case_bool_decide; [by apply IH|].
  destruct (processPath fuel s (Node.id n) order st) as [[order1 st1]|] eqn:Hp; [|done].
  rewrite (processPath_fuel_le _ _ Hle _ _ _ _ Hp). by apply IH.
Qed.




Lemma pending_mono (P P' : gset string) : P ⊆ P' -> (pending s P' <= pending s P)%nat.
Proof. intros H. unfold pending. apply subseteq_size. set_solver. Qed.

Lemma size_list_to_set_le (l : list string) :
  (size (list_to_set l : gset string) <= length l)%nat.
Proof.
  induction l as [|a l IH].
  - rewrite list_to_set_nil, size_empty. simpl. lia.
  - rewrite list_to_set_cons, size_union_alt, size_singleton.
    pose proof (subseteq_size (list_to_set l ∖ {[a]}) (list_to_set l : gset string)) as Hle.
    specialize (Hle ltac:(set_solver)). simpl. lia.
Qed.

Lemma pending_le_length (P : gset string) :
  (pending s P <= length (Store.pathSequence s))%nat.
Proof.
  unfold pending, seqIds. rewrite <- (length_map PathSequenceItem.id).
  etrans; [|apply size_list_to_set_le].
  apply subseteq_size. set_solver.
Qed.

Lemma addItemToSequence_grows itemId order st :
  SeqState.processedItems st ⊆ processed (addItemToSequence s itemId order st).
Proof.
  unfold addItemToSequence. case_bool_decide; [done|].
  destruct (find _ _); simpl; set_solver.
Qed.

Lemma addItemToSequence_marks itemId order st :
  itemId ∈ seqIds s -> itemId ∈ processed (addItemToSequence s itemId order st).
Proof.
  intros Hin. unfold addItemToSequence. case_bool_decide; [done|].
  destruct (find _ _) eqn:Hfind; simpl; [set_solver|].
  apply find_hasItemId_None in Hfind. exfalso. apply Hfind.
  unfold seqIds in Hin. by apply elem_of_list_to_set in Hin.
Qed.

Lemma addItemToSequence_pending itemId order st :
  itemId ∈ seqIds s -> itemId ∉ SeqState.processedItems st ->
  (pending s (processed (addItemToSequence s itemId order st))
   < pending s (SeqState.processedItems st))%nat.
Proof.
  intros Hin Hnot. unfold pending. apply subset_size.
  pose proof (addItemToSequence_grows itemId order st).
  pose proof (addItemToSequence_marks itemId order st Hin).
  set_solver.
Qed.


Lemma processCorridors_returns budget recurse cs :
  returnsWithin s budget recurse ->
  forallb (targetSequenced s) cs = true ->
  forall order st,
    (pending s (SeqState.processedItems st) <= budget)%nat ->
    exists r, processCorridors recurse s cs order st = Some r
              /\ SeqState.processedItems st ⊆ processed r.
Proof.
  intros Hrec. induction cs as [|c cs IH]; intros Hcs order st Hb; cbn [processCorridors].
  - eexists. split; [done|]. done.
  - cbn [forallb] in Hcs. apply andb_true_iff in Hcs as [Hc Hcs].
    pose proof (addItemToSequence_grows (Corridor.id c) order st) as Hg.
    destruct (addItemToSequence s (Corridor.id c) order st) as [order1 st1].
    cbn [snd] in Hg.
    assert (pending s (SeqState.processedItems st1) <= budget)%nat as Hb1.
    { etrans; [by apply pending_mono|done]. }
    assert (forall order2 st2,
               SeqState.processedItems st1 ⊆ SeqState.processedItems st2 ->
               exists r, processCorridors recurse s cs order2 st2 = Some r
                         /\ SeqState.processedItems st ⊆ processed r) as Hrest.
    { intros order2 st2 Hsub.
      destruct (IH Hcs order2 st2) as (r & Hr & Hsub').
      - etrans; [apply pending_mono, Hsub|done].
      - exists r. split; [done|]. set_solver. }
    unfold targetSequenced in Hc.
    destruct (Corridor.to c) as [target|]; [|by apply Hrest].
    destruct (truthy (Some target)) eqn:Ht; cbn [negb orb andb] in Hc |- *;
      [|by apply Hrest].
    apply bool_decide_eq_true in Hc.
    destruct (bool_decide (target ∈ SeqState.processedItems st1)) eqn:Hproc;
      cbn [negb]; [by apply Hrest|].
    apply bool_decide_eq_false in Hproc.
    destruct (Hrec target order1 st1 Hc Hproc Hb1) as ([order2 st2] & Hr & Hsub).
    rewrite Hr. by apply Hrest.
Qed.

Hypothesis Htargets : targetsSequenced s = true.

Lemma outgoing_targets nodeId :
  forallb (targetSequenced s) (List.filter (startsAt nodeId) (Store.corridors s)) = true.
Proof.
  apply forallb_forall. intros c Hc. apply filter_In in Hc as [Hc _].
  unfold targetsSequenced in Htargets. rewrite forallb_forall in Htargets. auto.
Qed.

Lemma processPath_returns fuel :
  forall nodeId order st,
    (pending s (processed (addItemToSequence s nodeId order st)) < fuel)%nat ->
    exists r, processPath fuel s nodeId order st = Some r
              /\ SeqState.processedItems st ⊆ processed r.
Proof.
  induction fuel as [|fuel IH]; intros nodeId order st Hb; [lia|].
  simpl.
  pose proof (addItemToSequence_grows nodeId order st) as Hg.
  destruct (addItemToSequence s nodeId order st) as [order1 st1]. simpl in *.
  destruct (processCorridors_returns fuel (processPath fuel s)
              (List.filter (startsAt nodeId) (Store.corridors s))) with (order := order1) (st := st1)
    as (r & Hr & Hsub).
  - intros n o st' Hn Hnot Hp. apply IH.
    pose proof (addItemToSequence_pending n o st' Hn Hnot). lia.
  - apply outgoing_targets.
  - lia.
  - exists r. split; [done|]. set_solver.
Qed.

Lemma processStartNodes_returns fuel startNodes :
  (length (Store.pathSequence s) < fuel)%nat ->
  forall order st, exists r, processStartNodes fuel s startNodes order st = Some r.
Proof.
  intros Hfuel. induction startNodes as [|n ns IH]; intros order st; simpl; [eauto|].
  case_bool_decide; [apply IH|].
  destruct (processPath_returns fuel (Node.id n) order st) as ([order1 st1] & Hr & _).
  { pose proof (pending_le_length (processed (addItemToSequence s (Node.id n) order st))). lia. }
  rewrite Hr. apply IH.
Qed.

End Sequencer.

Lemma renumber_dense items : denseOrders (renumber items).
Proof.
  intros i item Hi. unfold renumber in Hi.
  rewrite list_lookup_imap in Hi.
  destruct (items !! i) as [item0|]; [|done].
  by inversion Hi; subst.
Qed.

Lemma renumber_keys items : map itemKey (renumber items) = map itemKey items.
Proof.
  unfold renumber. generalize Z.of_nat as g.
  induction items as [|a l IH]; intros g; [done|].
  simpl. f_equal. apply (IH (g ∘ S)).
Qed.

(** When it returns, the sequencer outputs the renumbering of a permutation
    of the old sequence, provided the ids of the old sequence are distinct. *)
Lemma reorderedSequenceOf_sound s fuel l :
  NoDup (ids (Store.pathSequence s)) ->
  reorderedSequenceOf fuel s = Some l ->
  exists items, l = renumber items /\ items ≡ₚ Store.pathSequence s.
Proof.
  intros Hnd Hrun. unfold reorderedSequenceOf in Hrun.
  destruct (processStartNodes _ _ _ _ _) as [[order st]|] eqn:Hstart; [|done].
  apply processStartNodes_inv in Hstart; [|apply SeqInv_init].
  destruct Hstart as (items & Hre & Hord & Hndi & Hset & Hall). simpl in *.
  inversion Hrun as [Hl]. rewrite Hre, Hord, addRemaining_spec.
  eexists. split; [done|].
  rewrite (processed_items_perm s items _ Hnd Hndi Hset Hall).
  apply filter_app_complement.
Qed.

(** The sequencer returns, and always the same sequence, once the budget
    exceeds the length of the path sequence, when every [to] anchor has an
    item in the sequence. *)
Lemma reorderedSequenceOf_returns s :
  targetsSequenced s = true ->
  exists l, forall fuel,
      (length (Store.pathSequence s) < fuel)%nat -> reorderedSequenceOf fuel s = Some l.
Proof.
  intros Htargets.
  assert (length (Store.pathSequence s) < S (length (Store.pathSequence s)))%nat
    as Hlt by lia.
  destruct (processStartNodes_returns s Htargets _
              (List.filter (isStartNode s) (Store.nodes s)) Hlt
              0 (SeqState.mk ∅ [])) as ([order st] & Hr).
  eexists. intros fuel Hfuel. unfold reorderedSequenceOf.
  assert (S (length (Store.pathSequence s)) <= fuel)%nat as Hle by lia.
  rewrite (processStartNodes_fuel_le s _ fuel _ Hle _ _ _ Hr). done.
Qed.

Lemma reorderPathSequence_returns s :
  targetsSequenced s = true ->
  exists s', forall fuel,
      (length (Store.pathSequence s) < fuel)%nat -> reorderPathSequence fuel s = Some s'.
Proof.
  intros Htargets. destruct (reorderedSequenceOf_returns s Htargets) as (l & Hl).
  eexists. intros fuel Hfuel. unfold reorderPathSequence. by rewrite (Hl fuel Hfuel).
Qed.

(** The sequencer writes [pathSequence] and [edges] and nothing else. *)
Lemma reorderPathSequence_frame fuel s s' :
  reorderPathSequence fuel s = Some s' ->
  Store.nodes s' = Store.nodes s
  /\ Store.corridors s' = Store.corridors s
  /\ Store.floors s' = Store.floors s
  /\ Store.canvasState s' = Store.canvasState s
  /\ Store.currentNode s' = Store.currentNode s
  /\ Store.currentCorridor s' = Store.currentCorridor s
  /\ Store.projectId s' = Store.projectId s
  /\ Store.journeyReflection s' = Store.journeyReflection s.
Proof.
  unfold reorderPathSequence. destruct (reorderedSequenceOf fuel s); [|done].
  intros H. inversion H; subst. done.
Qed.

Lemma reorderPathSequence_sequence fuel s s' :
  reorderPathSequence fuel s = Some s' ->
  reorderedSequenceOf fuel s = Some (Store.pathSequence s')
  /\ Store.edges s'
     = edgesOfSequence (Store.edges s) (sortByOrder (Store.pathSequence s')).
Proof.
  unfold reorderPathSequence. destruct (reorderedSequenceOf fuel s); [|done].
  intros H. inversion H; subst. done.
Qed.

Lemma imap_with_order_sorted (g : nat -> Z) l :
  (forall i, g i <= g (S i)) ->
  Sorted orderLe (imap (fun i it => with_order it (g i)) l).
Proof.
  revert g. induction l as [|a l IH]; intros g Hg; simpl; [constructor|].
  constructor.
  - apply (IH (g ∘ S)). intros i. apply Hg.
  - destruct l as [|b l]; simpl; constructor. unfold orderLe. simpl. apply Hg.
Qed.

Lemma renumber_sorted items : Sorted orderLe (renumber items).
Proof. apply imap_with_order_sorted. intros i. lia. Qed.


(** Whatever the store, the output of the sequencer is a renumbered list. *)
Lemma reorderedSequenceOf_renumbered s fuel l :
  reorderedSequenceOf fuel s = Some l -> exists items, l = renumber items.
Proof.
  intros Hrun. unfold reorderedSequenceOf in Hrun.
  destruct (processStartNodes _ _ _ _ _) as [[order st]|] eqn:Hstart; [|done].
  apply processStartNodes_inv in Hstart; [|apply SeqInv_init].
  destruct Hstart as (items & Hre & Hord & _). simpl in *.
  inversion Hrun as [Hl]. rewrite Hre, Hord, addRemaining_spec. by eexists.
Qed.

(** The edges the sequencer leaves are those of the consecutive pairs of the
    new path sequence, in its own order. *)
Lemma reorderPathSequence_edges fuel s s' :
  reorderPathSequence fuel s = Some s' ->
  denseOrders (Store.pathSequence s')
  /\ Store.edges s' = edgesOfSequence (Store.edges s) (Store.pathSequence s').
Proof.
  intros Hrun. apply reorderPathSequence_sequence in Hrun as [Hseq Hedges].
  destruct (reorderedSequenceOf_renumbered _ _ _ Hseq) as (items & Hitems).
  rewrite Hedges, Hitems. split; [apply renumber_dense|].
  by rewrite sortByOrder_id by apply renumber_sorted.
Qed.

Lemma reorderedSequenceOf_fuel_le s fuel fuel' l :
  (fuel <= fuel')%nat ->
  reorderedSequenceOf fuel s = Some l -> reorderedSequenceOf fuel' s = Some l.
Proof.
  intros Hle. unfold reorderedSequenceOf.
  destruct (processStartNodes fuel s _ _ _) as [[order st]|] eqn:Hrun; [|done].
  by rewrite (processStartNodes_fuel_le s _ _ _ Hle _ _ _ Hrun).
Qed.

Lemma addItemToSequence_absent s itemId order st :
  itemId ∉ seqIds s -> addItemToSequence s itemId order st = (order, st).
Proof.
  intros Habs. unfold addItemToSequence. case_bool_decide; [done|].
  destruct (find _ _) as [item|] eqn:Hfind; [|done].
  apply find_hasItemId_Some in Hfind as [Hin Hid]. exfalso. apply Habs.
  unfold seqIds. apply elem_of_list_to_set, list_elem_of_fmap. eauto.
Qed.

Lemma addItemToSequence_other s x itemId order st :
  x <> itemId -> x ∉ SeqState.processedItems st ->
  x ∉ processed (addItemToSequence s itemId order st).
Proof.
  intros Hne Hnot. unfold addItemToSequence. case_bool_decide; [done|].
  destruct (find _ _); simpl; [|done].
  intros [Hx|Hx]%elem_of_union; [|done]. by apply elem_of_singleton in Hx.
Qed.

Lemma addItemToSequence_fresh s itemId item :
  find (hasItemId itemId) (Store.pathSequence s) = Some item ->
  forall order st,
    itemId ∉ SeqState.processedItems st ->
    addItemToSequence s itemId order st
    = (order + 1,
       SeqState.mk ({[ itemId ]} ∪ SeqState.processedItems st)
         (SeqState.reorderedSequence st ++ [with_order item order])).
Proof.
  intros Hfind order st Hnot. unfold addItemToSequence.
  by rewrite bool_decide_eq_false_2, Hfind.
Qed.

Lemma addRemaining_all (P : gset string) items order acc :
  (forall item, item ∈ items -> PathSequenceItem.id item ∈ P) ->
  addRemaining P items order acc = acc.
Proof.
  induction items as [|item items IH]; intros Hall; simpl; [done|].
  rewrite bool_decide_eq_true_2 by apply Hall, list_elem_of_here.
  apply IH. intros it Hit. by apply Hall, list_elem_of_further.
Qed.

Lemma targetSequenced_ext s1 s2 c :
  Store.pathSequence s1 = Store.pathSequence s2 ->
  targetSequenced s1 c = targetSequenced s2 c.
Proof. intros H. unfold targetSequenced, seqIds. by rewrite H. Qed.

Lemma targetsSequenced_mono s1 s2 :
  Store.corridors s2 = Store.corridors s1 ->
  seqIds s1 ⊆ seqIds s2 ->
  targetsSequenced s1 = true -> targetsSequenced s2 = true.
Proof.
  unfold targetsSequenced. intros -> Hsub H.
  rewrite forallb_forall in *. intros c Hc. specialize (H c Hc).
  unfold targetSequenced in *. destruct (Corridor.to c) as [target|]; [|done].
  apply orb_true_iff in H as [H|H]; apply orb_true_iff; [by left|right].
  apply bool_decide_eq_true in H. apply bool_decide_eq_true. by apply Hsub.
Qed.

(** ** C1: edges and the ids of the store *)

(** What the sequencer does guarantee: the edges it regenerates join ids of
    the path sequence. *)
Lemma edgesOfSequence_within edges sorted e :
  e ∈ edgesOfSequence edges sorted ->
  Edge.from e ∈ ids sorted /\ Edge.to e ∈ ids sorted.
Proof.
  induction sorted as [|a [|b rest] IH]; intros Hin; [by apply elem_of_nil in Hin..|].
  change (edgesOfSequence edges (a :: b :: rest))
    with (newEdge edges a b :: edgesOfSequence edges (b :: rest)) in Hin.
  apply elem_of_cons in Hin as [->|Hin].
  - simpl. split; [apply list_elem_of_here|apply list_elem_of_further, list_elem_of_here].
  - destruct (IH Hin) as [Hf Ht]. split; by apply list_elem_of_further.
Qed.

Lemma reorderPathSequence_edges_within fuel s s' e :
  reorderPathSequence fuel s = Some s' ->
  e ∈ Store.edges s' ->
  Edge.from e ∈ ids (Store.pathSequence s') /\ Edge.to e ∈ ids (Store.pathSequence s').
Proof.
  intros Hrun Hin. apply reorderPathSequence_sequence in Hrun as [_ Hedges].
  rewrite Hedges in Hin. apply edgesOfSequence_within in Hin.
  by rewrite (sortByOrder_perm (Store.pathSequence s')) in Hin.
Qed.

(** C1 (the code misses the claim).  From the initial store, two nodes [N1]
    and [N2] joined by the corridor [C1]: no edge dangles.  [deleteNode] of
    [N1] removes the node and, by cascade, the corridor, but only the item of
    the node leaves the path sequence; the sequencer then regenerates the
    edge [N2-C1], whose target [C1] is no longer a corridor.  Likewise
    [deleteFloor] removes the nodes of the floor and leaves the path sequence
    and the edges as they were. *)
Theorem deleteNode_leaves_dangling_edge :
  (exists s0 s',
      run 5 (removelast danglingScenario) initialStore = Some s0
      /\ map endpoints (Store.edges s0) = [("N1", "C1"); ("C1", "N2")]
      /\ elementIds s0 = ["N1"; "N2"; "C1"]
      /\ run 5 danglingScenario initialStore = Some s'
      /\ elementIds s' = ["N2"]
      /\ ids (Store.pathSequence s') = ["N2"; "C1"]
      /\ map endpoints (Store.edges s') = [("N2", "C1")]
      /\ ~ noDanglingEdges s')
  /\ (exists s',
         run 5 floorScenario initialStore = Some s'
         /\ elementIds s' = []
         /\ map endpoints (Store.edges s') = [("N1", "N2")]
         /\ ~ noDanglingEdges s').
Proof.
  split.
  - eexists _, _. split; [vm_compute; reflexivity|]. split; [reflexivity|].
    split; [reflexivity|]. split; [vm_compute; reflexivity|].
    split; [reflexivity|]. split; [reflexivity|]. split; [reflexivity|].
    intros H. destruct (H _ (list_elem_of_here _ _)) as [_ Hto].
    vm_compute in Hto. apply list_elem_of_singleton in Hto. discriminate Hto.
  - eexists. split; [vm_compute; reflexivity|]. split; [reflexivity|].
    split; [reflexivity|].
    intros H. destruct (H _ (list_elem_of_here _ _)) as [Hfrom _].
    vm_compute in Hfrom. by apply elem_of_nil in Hfrom.
Qed.

(** ** C2: the floor stamped on node positions *)

Lemma addNode_set_targets node s :
  targetsSequenced s = true -> targetsSequenced (addNode_set node s) = true.
Proof.
  apply targetsSequenced_mono; [done|].
  unfold seqIds, addNode_set. simpl. rewrite map_app, list_to_set_app_L. set_solver.
Qed.

Lemma updateNode_set_targets id updates s :
  targetsSequenced s = true -> targetsSequenced (updateNode_set id updates s) = true.
Proof. by apply targetsSequenced_mono. Qed.






(** ** C3: a vertex index out of range *)

Lemma dense_dense_app l rest :
  dense (map Some l ++ rest) = option_map (app l) (dense rest).
Proof.
  induction l as [|p l IH]; simpl.
  - by destruct (dense rest).
  - rewrite IH. by destruct (dense rest).
Qed.

Lemma dense_dense l : dense (map Some l) = Some l.
Proof.
  rewrite <- (app_nil_r (map Some l)), dense_dense_app. simpl. by rewrite app_nil_r.
Qed.

Lemma assignVertex_append path v :
  Z.of_nat (length path) < maxArrayLength ->
  dense (assignVertex path (Z.of_nat (length path)) v) = Some (path ++ [v]).
Proof.
  intros Hmax. unfold assignVertex.
  rewrite (proj2 (Z.ltb_ge _ _)) by lia. rewrite Nat2Z.id.
  rewrite (proj2 (Nat.ltb_ge _ _)) by lia.
  rewrite (proj2 (Z.ltb_lt _ _)) by lia.
  rewrite Nat.sub_diag. simpl. by rewrite dense_dense_app.
Qed.

Lemma assignVertex_beyond path vertexIndex v :
  Z.of_nat (length path) < vertexIndex < maxArrayLength ->
  dense (assignVertex path vertexIndex v) = None.
Proof.
  intros Hlt. unfold assignVertex.
  rewrite (proj2 (Z.ltb_ge _ _)) by lia.
  rewrite (proj2 (Nat.ltb_ge _ _)) by lia.
  rewrite (proj2 (Z.ltb_lt _ _)) by lia.
  destruct (Z.to_nat vertexIndex - length path)%nat as [|k] eqn:Hk; [lia|].
  simpl. by rewrite dense_dense_app.
Qed.

Lemma assignVertex_negative path vertexIndex v :
  vertexIndex < 0 -> dense (assignVertex path vertexIndex v) = Some path.
Proof.
  intros Hlt. unfold assignVertex.
  rewrite (proj2 (Z.ltb_lt _ _)) by lia. apply dense_dense.
Qed.

(** An index of [2 ^ 32 - 1] or more names a property of the array object,
    not an element. *)
Lemma assignVertex_property path vertexIndex v :
  Z.of_nat (length path) <= vertexIndex -> maxArrayLength <= vertexIndex ->
  dense (assignVertex path vertexIndex v) = Some path.
Proof.
  intros Hle Hmax. unfold assignVertex.
  rewrite (proj2 (Z.ltb_ge _ _)) by lia.
  rewrite (proj2 (Nat.ltb_ge _ _)) by lia.
  rewrite (proj2 (Z.ltb_ge _ _)) by lia. apply dense_dense.
Qed.

Lemma assignVertex_inside path (i : nat) v :
  (i < length path)%nat ->
  dense (assignVertex path (Z.of_nat i) v) = Some (<[ i := v ]> path).
Proof.
  intros Hlt. unfold assignVertex.
  assert (Z.of_nat i <? 0 = false) as -> by (apply Z.ltb_ge; lia).
  rewrite Nat2Z.id. assert ((i <? length path)%nat = true) as -> by (apply Nat.ltb_lt; lia).
  rewrite <- (dense_dense (<[ i := v ]> path)). f_equal.
  rewrite list_fmap_insert. reflexivity.
Qed.

(** An array is dense exactly when it has no hole. *)
Lemma dense_None a : dense a = None <-> None ∈ a.
Proof.
  induction a as [|[p|] a IH]; simpl.
  - split; [done|]. intros H. by apply elem_of_nil in H.
  - destruct (dense a); simpl.
    + split; [done|]. intros [H|H]%elem_of_cons; [done|]. by apply IH in H.
    + split; [|done]. intros _. apply list_elem_of_further. by apply IH.
  - split; [|done]. intros _. apply list_elem_of_here.
Qed.

(** After the assignment at an array index that is not inside the old array,
    the new vertex is the last element of the array: a hole is followed by
    an element. *)
Lemma assignVertex_last path vertexIndex v :
  Z.of_nat (length path) <= vertexIndex < maxArrayLength ->
  last (assignVertex path vertexIndex v) = Some (Some v).
Proof.
  intros Hle. unfold assignVertex.
  rewrite (proj2 (Z.ltb_ge _ _)) by lia.
  rewrite (proj2 (Nat.ltb_ge _ _)) by lia.
  rewrite (proj2 (Z.ltb_lt _ _)) by lia.
  by rewrite app_assoc, last_snoc.
Qed.

Lemma find_corridor_Some corridorId corridors corridor :
  find (fun c => bool_decide (Corridor.id c = corridorId)) corridors = Some corridor ->
  corridor ∈ corridors /\ Corridor.id corridor = corridorId.
Proof.
  intros H. apply find_some in H as [Hin Hid].
  split; [by apply list_elem_of_In|]. by apply bool_decide_eq_true in Hid.
Qed.

Lemma updateCorridor_one_to id path c :
  Corridor.to (updateCorridor_one id (CorridorUpdate.ofPath path) c) = Corridor.to c.
Proof. unfold updateCorridor_one. by case_bool_decide. Qed.

Lemma updateCorridor_set_targets id path s :
  targetsSequenced (updateCorridor_set id (CorridorUpdate.ofPath path) s)
  = targetsSequenced s.
Proof.
  unfold targetsSequenced.
  change (Store.corridors (updateCorridor_set id (CorridorUpdate.ofPath path) s))
    with (map (updateCorridor_one id (CorridorUpdate.ofPath path)) (Store.corridors s)).
  generalize (updateCorridor_set id (CorridorUpdate.ofPath path) s)
    (eq_refl : Store.pathSequence (updateCorridor_set id (CorridorUpdate.ofPath path) s)
               = Store.pathSequence s).
  intros s1 Hs1. induction (Store.corridors s) as [|c l IH]; [done|].
  simpl. rewrite IH. f_equal.
  rewrite (targetSequenced_ext s1 s _ Hs1).
  unfold targetSequenced. by rewrite updateCorridor_one_to.
Qed.

(** C3 (amended).  [updateCorridorVertex] checks no range.  With an id that
    no corridor has, it returns and leaves the store as it was, whatever the
    index.  For an existing corridor with a path of [n] vertices, [n] below
    the bound [2 ^ 32 - 1] of the length of an array: with the index [n] it
    is [updateCorridor] with the new vertex appended to the path, so that
    the stored corridor gains a vertex and a segment, and the call returns
    when every [to] anchor has an item in the sequence.  With an index
    beyond [n] and below [2 ^ 32 - 1] it raises a [TypeError] and
    leaves the store as it was.  With a negative index, or with an index of
    [2 ^ 32 - 1] or more, it is [updateCorridor] with the path of the
    corridor found: the vertices stay, the derived fields are computed anew
    and the sequencer runs. *)
Theorem updateCorridorVertex_out_of_range (s : Store) (corridorId : string)
    (newPosition : Position) (newFloor : option Z) :
  (find (fun c => bool_decide (Corridor.id c = corridorId)) (Store.corridors s) = None ->
   forall fuel vertexIndex,
     updateCorridorVertex fuel corridorId vertexIndex newPosition newFloor s = Returned s)
  /\ forall corridor,
      find (fun c => bool_decide (Corridor.id c = corridorId)) (Store.corridors s)
      = Some corridor ->
      let v := with_z newPosition (vertexFloor s newPosition newFloor) in
      let n := Z.of_nat (length (Corridor.path corridor)) in
      n < maxArrayLength ->
      (forall fuel,
          updateCorridorVertex fuel corridorId n newPosition newFloor s
          = outcomeOf (updateCorridor fuel corridorId
                         (CorridorUpdate.ofPath (Corridor.path corridor ++ [v])) s))
      /\ (forall fuel s',
             updateCorridorVertex fuel corridorId n newPosition newFloor s = Returned s' ->
             exists stored,
               stored ∈ Store.corridors s'
               /\ Corridor.path stored = Corridor.path corridor ++ [v]
               /\ length (Corridor.segments stored) = length (Corridor.path corridor))
      /\ (targetsSequenced s = true ->
          exists s', forall fuel,
              (length (Store.pathSequence s) < fuel)%nat ->
              updateCorridorVertex fuel corridorId n newPosition newFloor s = Returned s')
      /\ (forall fuel vertexIndex,
             n < vertexIndex < maxArrayLength ->
             updateCorridorVertex fuel corridorId vertexIndex newPosition newFloor s = Thrown)
      /\ (forall fuel vertexIndex,
             vertexIndex < 0 \/ maxArrayLength <= vertexIndex ->
             updateCorridorVertex fuel corridorId vertexIndex newPosition newFloor s
             = outcomeOf (updateCorridor fuel corridorId
                            (CorridorUpdate.ofPath (Corridor.path corridor)) s)).
Proof.
  split.
  { intros Hfind fuel vertexIndex. unfold updateCorridorVertex. by rewrite Hfind. }
  intros corridor Hfind v n Hmax.
  assert (forall fuel,
      updateCorridorVertex fuel corridorId n newPosition newFloor s
      = outcomeOf (updateCorridor fuel corridorId
                     (CorridorUpdate.ofPath (Corridor.path corridor ++ [v])) s)) as Happend.
  { intros fuel. unfold updateCorridorVertex. rewrite Hfind.
    unfold n. by rewrite assignVertex_append. }
  split; [exact Happend|]. split; [|split; [|split]].
  - intros fuel s' Hrun. rewrite Happend in Hrun.
    destruct (updateCorridor fuel corridorId _ s) as [s1|] eqn:Hupd; [|done].
    inversion Hrun; subst s1. unfold updateCorridor in Hupd.
    apply reorderPathSequence_frame in Hupd as (_ & Hc & _).
    apply find_corridor_Some in Hfind as [Hin Hid].
    exists (updateCorridor_one corridorId
              (CorridorUpdate.ofPath (Corridor.path corridor ++ [v])) corridor).
    split.
    + rewrite Hc. unfold updateCorridor_set. simpl. apply list_elem_of_fmap. eauto.
    + unfold updateCorridor_one. rewrite bool_decide_eq_true_2 by done. simpl.
      split; [done|]. rewrite generateCorridorSegments_length, length_app. simpl. lia.
  - intros Ht.
    destruct (reorderPathSequence_returns
                (updateCorridor_set corridorId
                   (CorridorUpdate.ofPath (Corridor.path corridor ++ [v])) s)) as (s' & Hs').
    { by rewrite updateCorridor_set_targets. }
    exists s'. intros fuel Hfuel. rewrite Happend. unfold updateCorridor.
    by rewrite (Hs' fuel Hfuel).
  - intros fuel vertexIndex Hlt. unfold updateCorridorVertex. rewrite Hfind.
    by rewrite assignVertex_beyond.
  - intros fuel vertexIndex [Hlt|Hge]; unfold updateCorridorVertex; rewrite Hfind.
    + by rewrite assignVertex_negative.
    + rewrite assignVertex_property; [done|fold n; lia|exact Hge].
Qed.

(** C3 (amended) at [vertexStore], whose corridor [CS1] has two vertices:
    the index 2 appends, the index 7 raises, the indices -1 and
    [2 ^ 32 - 1] run [updateCorridor] on the same path, which here gives the
    same store, and the id [CS9] of no corridor gives the same store. *)
Lemma updateCorridorVertex_out_of_range_witness :
  find (fun c => bool_decide (Corridor.id c = "CS1")) (Store.corridors vertexStore)
  = Some vertexCorridor
  /\ Z.of_nat (length (Corridor.path vertexCorridor)) < maxArrayLength
  /\ (exists s',
         updateCorridorVertex 5 "CS1" 2 (Position.mk 20 20 None) None vertexStore
         = Returned s'
         /\ exists stored,
             stored ∈ Store.corridors s'
             /\ length (Corridor.path stored) = 3%nat
             /\ length (Corridor.segments stored) = 2%nat)
  /\ updateCorridorVertex 5 "CS1" 7 (Position.mk 20 20 None) None vertexStore = Thrown
  /\ updateCorridorVertex 5 "CS1" (-1) (Position.mk 20 20 None) None vertexStore
     = Returned vertexStore
  /\ updateCorridorVertex 5 "CS1" 4294967295 (Position.mk 20 20 None) None vertexStore
     = Returned vertexStore
  /\ updateCorridorVertex 5 "CS9" 2 (Position.mk 20 20 None) None vertexStore
     = Returned vertexStore.
Proof.
  assert (find (fun c => bool_decide (Corridor.id c = "CS1")) (Store.corridors vertexStore)
          = Some vertexCorridor) as Hfind by reflexivity.
  assert (Z.of_nat (length (Corridor.path vertexCorridor)) < maxArrayLength) as Hmax
    by reflexivity.
  destruct (updateCorridorVertex_out_of_range vertexStore "CS1"
              (Position.mk 20 20 None) None) as [_ Hfound].
  destruct (Hfound vertexCorridor Hfind Hmax) as (_ & Hgrow & Hret & Hthrow & Hsame).
  split; [exact Hfind|]. split; [exact Hmax|]. split; [|split; [|split; [|split]]].
  - destruct (Hret eq_refl) as (s' & Hs').
    assert (length (Store.pathSequence vertexStore) < 5)%nat as Hfuel by (vm_compute; lia).
    exists s'. split; [exact (Hs' 5%nat Hfuel)|].
    destruct (Hgrow 5%nat s' (Hs' 5%nat Hfuel)) as (stored & Hin & Hpath & Hsegs).
    exists stored. split; [exact Hin|]. split; [by rewrite Hpath|exact Hsegs].
  - apply Hthrow. split; reflexivity.
  - rewrite (Hsame 5%nat (-1)) by (left; reflexivity). vm_compute; reflexivity.
  - rewrite (Hsame 5%nat 4294967295) by (right; discriminate). vm_compute; reflexivity.
  - apply (proj1 (updateCorridorVertex_out_of_range vertexStore "CS9"
                    (Position.mk 20 20 None) None)). reflexivity.
Defined.

(** C3, as stated, fails: on the corridor [CS1] of [vertexStore], whose path
    has two vertices, the index 2 is out of range, and the call returns a
    store in which the path has a third vertex. *)
Lemma updateCorridorVertex_counterexample :
  addCorridor 5 (exampleCorridor "CS1" None None) initialStore = Some vertexStore
  /\ map (fun c => length (Corridor.path c)) (Store.corridors vertexStore) = [2%nat]
  /\ exists s',
      updateCorridorVertex 5 "CS1" 2 (Position.mk 20 20 None) None vertexStore = Returned s'
      /\ map Corridor.path (Store.corridors s')
         = [[Position.mk 0 0 (Some 0); Position.mk 10 10 (Some 0); Position.mk 20 20 (Some 0)]]
      /\ s' <> vertexStore.
Proof.
  split; [reflexivity|]. split; [reflexivity|].
  eexists. split; [vm_compute; reflexivity|]. split; [reflexivity|].
  intros H. apply (f_equal (fun s => length (Store.corridors s ≫= Corridor.path))) in H.
  vm_compute in H. discriminate H.
Qed.

(** ** C4: hit-testing *)

Lemma Qltb_lt a b : Qltb a b = true <-> (a < b)%Q.
Proof.
  unfold Qltb. rewrite negb_true_iff. split.
  - intros H. apply Qnot_le_lt. intros Hle. apply Qle_bool_iff in Hle. congruence.
  - intros H. destruct (Qle_bool b a) eqn:Hle; [|done].
    apply Qle_bool_iff in Hle. by apply Qlt_not_le in H.
Qed.

Lemma hitNodes_first {arith : Arithmetic} position tolerance before node after :
  Forall (fun n => nodeHit position tolerance n = false) before ->
  nodeHit position tolerance node = true ->
  hitNodes position tolerance (before ++ node :: after) = Some (Node.id node, element_node).
Proof.
  intros Hbefore Hhit. induction Hbefore as [|n before Hn _ IH]; simpl.
  - by rewrite Hhit.
  - by rewrite Hn.
Qed.

Lemma hitNodes_none {arith : Arithmetic} position tolerance nodes :
  Forall (fun n => nodeHit position tolerance n = false) nodes ->
  hitNodes position tolerance nodes = None.
Proof.
  intros Hall. induction Hall as [|n nodes Hn _ IH]; simpl; [done|]. by rewrite Hn.
Qed.

Lemma hitCorridors_first {arith : Arithmetic} s position tolerance before corridor after :
  Forall (fun c => corridorHit s position tolerance c = false) before ->
  corridorHit s position tolerance corridor = true ->
  hitCorridors s position tolerance (before ++ corridor :: after)
  = Some (Corridor.id corridor, element_corridor).
Proof.
  intros Hbefore Hhit. induction Hbefore as [|c before Hc _ IH]; simpl.
  - by rewrite Hhit.
  - by rewrite Hc.
Qed.

Lemma hitCorridors_none {arith : Arithmetic} s position tolerance corridors :
  Forall (fun c => corridorHit s position tolerance c = false) corridors ->
  hitCorridors s position tolerance corridors = None.
Proof.
  intros Hall. induction Hall as [|c corridors Hc _ IH]; simpl; [done|]. by rewrite Hc.
Qed.

Lemma hitNodes_some {arith : Arithmetic} position tolerance nodes node :
  node ∈ nodes -> nodeHit position tolerance node = true ->
  exists id, hitNodes position tolerance nodes = Some (id, element_node).
Proof.
  intros Hin Hhit. induction nodes as [|n nodes IH]; [by apply elem_of_nil in Hin|].
  simpl. destruct (nodeHit position tolerance n) eqn:Hn; [by eexists|].
  apply elem_of_cons in Hin as [->|Hin]; [congruence|]. by apply IH.
Qed.

(** C4 (amended).  [getElementByPosition] returns the first visible node, in
    the order of the array, that passes the test of the node loop, if there
    is one; otherwise the first visible corridor, in the order of the array,
    with a segment on the current floor that passes the test of the segment
    loop; otherwise nothing.  So whenever a visible node passes its test the
    result is a node.  The test of a node is [distance < tolerance] for the
    distance that the code computes, in the arithmetic of the doubles, from
    the centroid of the node to the position.  A segment whose computed
    [lenSq] is zero is skipped and never passes, wherever the position is;
    another segment passes when the computed distance from the position to
    its nearest point is below the tolerance.  This holds in every
    arithmetic of the doubles. *)
Theorem getElementByPosition_first_hit {arith : Arithmetic} (position : Position)
    (tolerance : option Q) (s : Store) :
  let tol := default 20%Q tolerance in
  (forall node,
      nodeHit position tol node
      = double_ltb
          (Math_sqrt
             (double_add
                (Math_pow_2 (double_sub (Centroid.x (getNodeCentroid node))
                               (finite (Position.x position))))
                (Math_pow_2 (double_sub (Centroid.y (getNodeCentroid node))
                               (finite (Position.y position))))))
          (finite tol))
  /\ (forall segment,
         segmentHit position tol segment
         = negb (double_is_zero (segmentLenSq segment))
           && double_ltb (segmentDistance position segment) (finite tol))
  /\ (forall corridor,
         corridorHit s position tol corridor = true
         <-> exists segment,
               segment ∈ getSegmentsForFloor (Corridor.segments corridor) (currentFloorIndex s)
               /\ segmentHit position tol segment = true)
  /\ (forall before node after,
         getVisibleNodes s = before ++ node :: after ->
         Forall (fun n => nodeHit position tol n = false) before ->
         nodeHit position tol node = true ->
         getElementByPosition position tolerance s = Some (Node.id node, element_node))
  /\ (forall before corridor after,
         Forall (fun n => nodeHit position tol n = false) (getVisibleNodes s) ->
         getVisibleCorridors s = before ++ corridor :: after ->
         Forall (fun c => corridorHit s position tol c = false) before ->
         corridorHit s position tol corridor = true ->
         getElementByPosition position tolerance s
         = Some (Corridor.id corridor, element_corridor))
  /\ (Forall (fun n => nodeHit position tol n = false) (getVisibleNodes s) ->
      Forall (fun c => corridorHit s position tol c = false) (getVisibleCorridors s) ->
      getElementByPosition position tolerance s = None)
  /\ (forall node,
         node ∈ getVisibleNodes s -> nodeHit position tol node = true ->
         exists id, getElementByPosition position tolerance s = Some (id, element_node)).
Proof.
  intros tol. split; [reflexivity|]. split; [|split].
  { intros segment. unfold segmentHit. by destruct (double_is_zero _). }
  { intros corridor. unfold corridorHit. rewrite existsb_exists. split.
    - intros (segment & Hin & Hhit). exists segment. split; [by apply list_elem_of_In|done].
    - intros (segment & Hin & Hhit). exists segment. split; [by apply list_elem_of_In|done]. }
  unfold getElementByPosition. fold tol. split; [|split; [|split]].
  - intros before node after -> Hbefore Hhit. by rewrite hitNodes_first.
  - intros before corridor after Hnodes -> Hbefore Hhit.
    rewrite hitNodes_none by done. by apply hitCorridors_first.
  - intros Hnodes Hcorridors. rewrite hitNodes_none by done. by apply hitCorridors_none.
  - intros node Hin Hhit.
    destruct (hitNodes_some position tol _ node Hin Hhit) as (id & ->). by eexists.
Qed.

(** C4 (amended) in the arithmetic of IEEE 754.  At [hitStore], queried at
    the origin, the first node is returned.  At [pointStore] the position is
    the very point to which the corridor is collapsed, and nothing is found:
    the segment is skipped.  At [roundingStore] the node is nearer than 20
    to the position, and the distance that the doubles compute is 20: the
    node is not found. *)
Lemma getElementByPosition_first_hit_witness :
  getVisibleNodes hitStore = [] ++ nodeAt "Far" 3 0 :: [nodeAt "Near" 1 0]
  /\ nodeHit origin 20 (nodeAt "Far" 3 0) = true
  /\ getElementByPosition origin None hitStore = Some ("Far", element_node)
  /\ getVisibleCorridors pointStore = [pointCorridor]
  /\ map CorridorSegment.start (Corridor.segments pointCorridor) = [Position.mk 5 5 (Some 0)]
  /\ map CorridorSegment.end_ (Corridor.segments pointCorridor) = [Position.mk 5 5 (Some 0)]
  /\ getElementByPosition (Position.mk 5 5 None) None pointStore = None
  /\ (distanceSq (Node.position (nodeAt "N" double_20_2 0)) (Position.mk double_0_2 0 None)
      < 20 * 20)%Q
  /\ distance (finite double_20_2) (finite 0) (Position.mk double_0_2 0 None) = finite 20
  /\ getElementByPosition (Position.mk double_0_2 0 None) None roundingStore = None.
Proof.
  assert (getVisibleNodes hitStore = [] ++ nodeAt "Far" 3 0 :: [nodeAt "Near" 1 0])
    as Hvisible by reflexivity.
  assert (nodeHit origin 20 (nodeAt "Far" 3 0) = true) as Hhit by (vm_compute; reflexivity).
  split; [exact Hvisible|]. split; [exact Hhit|]. split.
  { exact (proj1 (proj2 (proj2 (proj2 (getElementByPosition_first_hit origin None hitStore))))
             [] (nodeAt "Far" 3 0) [nodeAt "Near" 1 0] Hvisible (Forall_nil_2 _) Hhit). }
  split; [reflexivity|]. split; [reflexivity|]. split; [reflexivity|]. split.
  { apply (proj1 (proj2 (proj2 (proj2 (proj2 (proj2
             (getElementByPosition_first_hit (Position.mk 5 5 None) None pointStore))))))).
    - apply Forall_nil_2.
    - apply Forall_cons. split; [vm_compute; reflexivity|apply Forall_nil_2]. }
  split; [vm_compute; reflexivity|]. split; [vm_compute; reflexivity|].
  apply (proj1 (proj2 (proj2 (proj2 (proj2 (proj2
           (getElementByPosition_first_hit (Position.mk double_0_2 0 None) None
              roundingStore))))))).
  - apply Forall_cons. split; [vm_compute; reflexivity|apply Forall_nil_2].
  - apply Forall_nil_2.
Defined.

(** C4, as stated, fails: both nodes of [hitStore] are within the tolerance
    20 of the origin, [Near] is strictly nearer (squared distance 1 against
    9), and the result is [Far], the first of the array. *)
Lemma getElementByPosition_counterexample :
  getElementByPosition origin (Some 20%Q) hitStore = Some ("Far", element_node)
  /\ nodeAt "Near" 1 0 ∈ getVisibleNodes hitStore
  /\ nodeHit origin 20 (nodeAt "Near" 1 0) = true
  /\ (distanceSq (Node.position (nodeAt "Near" 1 0)) origin
      < distanceSq (Node.position (nodeAt "Far" 3 0)) origin)%Q.
Proof.
  split; [vm_compute; reflexivity|]. split; [|split; vm_compute; reflexivity].
  apply list_elem_of_further, list_elem_of_here.
Qed.

(** ** C5: the linear path scenario *)

Lemma keyed_item_found s x t keys :
  NoDup (map fst keys) ->
  map itemKey (Store.pathSequence s) ≡ₚ keys ->
  (x, t) ∈ keys ->
  exists order,
    find (hasItemId x) (Store.pathSequence s) = Some (PathSequenceItem.mk x t order).
Proof.
  intros Hnd Hperm Hin. rewrite <- Hperm in Hin.
  apply list_elem_of_fmap in Hin as ([x' t' order] & Hkey & Hin).
  unfold itemKey in Hkey. simpl in Hkey. inversion Hkey; subst x' t'.
  exists order. apply (find_hasItemId_unique _ (PathSequenceItem.mk x t order)); [|done].
  replace (ids (Store.pathSequence s)) with (map fst (map itemKey (Store.pathSequence s))).
  - by rewrite Hperm.
  - rewrite map_map. done.
Qed.

(** The run of the sequencer on a linear path, step by step. *)
Lemma linearPath_sequence s k1 k2 :
  linearPath s k1 k2 -> reorderedSequenceOf 3 s = Some (linearSequence k1 k2).
Proof.
  intros ((nE & nD & nA & Hnodes & HidE & HtE & HidD & HtD & HidA & HtA)
          & (c1 & c2 & Hcorr & Hid1 & Hf1 & Ht1 & Hid2 & Hf2 & Ht2) & Hnd & Hseq).
  (* the ids are pairwise distinct *)
  assert (k1 <> "E1" /\ k1 <> "DP1" /\ k1 <> "AD1" /\ k2 <> "E1" /\ k2 <> "DP1"
          /\ k2 <> "AD1" /\ k1 <> k2) as (N1 & N2 & N3 & N4 & N5 & N6 & N7).
  { repeat (apply NoDup_cons in Hnd as [? Hnd]). set_solver. }
  (* the items of the sequence *)
  assert (NoDup (map fst [("E1", item_node); ("DP1", item_node); ("AD1", item_node);
                          (k1, item_corridor); (k2, item_corridor)])) as Hndk by done.
  destruct (keyed_item_found s "E1" item_node _ Hndk Hseq) as (oE & HfE); [set_solver|].
  destruct (keyed_item_found s "DP1" item_node _ Hndk Hseq) as (oD & HfD); [set_solver|].
  destruct (keyed_item_found s "AD1" item_node _ Hndk Hseq) as (oA & HfA); [set_solver|].
  destruct (keyed_item_found s k1 item_corridor _ Hndk Hseq) as (o1 & Hfk1); [set_solver|].
  destruct (keyed_item_found s k2 item_corridor _ Hndk Hseq) as (o2 & Hfk2); [set_solver|].
  (* the corridors that leave each node *)
  assert (forall x, List.filter (startsAt x) (Store.corridors s)
                    ≡ₚ List.filter (startsAt x) [c1; c2]) as Hout.
  { intros x. by apply List_filter_Permutation. }
  assert (List.filter (startsAt "E1") (Store.corridors s) = [c1]) as HoutE.
  { apply Permutation_singleton_r. rewrite Hout. unfold startsAt. simpl.
    rewrite Hf1, Hf2. by repeat case_bool_decide. }
  assert (List.filter (startsAt "DP1") (Store.corridors s) = [c2]) as HoutD.
  { apply Permutation_singleton_r. rewrite Hout. unfold startsAt. simpl.
    rewrite Hf1, Hf2. by repeat case_bool_decide. }
  assert (List.filter (startsAt "AD1") (Store.corridors s) = []) as HoutA.
  { apply Permutation_nil_r. rewrite Hout. unfold startsAt. simpl.
    rewrite Hf1, Hf2. by repeat case_bool_decide. }
  (* the start nodes *)
  assert (forall x, x = "DP1" \/ x = "AD1" ->
                    existsb (fun c => bool_decide (Corridor.to c = Some x))
                      (Store.corridors s) = true) as Hincoming.
  { intros x Hx. apply existsb_exists.
    destruct Hx as [->| ->]; [exists c1|exists c2];
      (split; [apply list_elem_of_In; rewrite Hcorr; set_solver
              |by apply bool_decide_eq_true]). }
  assert (List.filter (isStartNode s) (Store.nodes s) = [nE]) as Hstart.
  { apply Permutation_singleton_r. rewrite (List_filter_Permutation _ _ _ Hnodes).
    unfold isStartNode. simpl. rewrite HtE, HtD, HtA, HidD, HidA.
    rewrite (Hincoming "DP1"), (Hincoming "AD1") by auto. reflexivity. }
  unfold reorderedSequenceOf. rewrite Hstart.
  cbn [processStartNodes]. rewrite HidE.
  rewrite bool_decide_eq_false_2 by set_solver.
  cbn [processPath].
  rewrite (addItemToSequence_fresh s "E1" _ HfE) by (cbn [SeqState.processedItems]; set_solver).
  rewrite HoutE. cbn [processCorridors]. rewrite Hid1, Ht1.
  rewrite (addItemToSequence_fresh s k1 _ Hfk1) by (cbn [SeqState.processedItems]; set_solver).
  change (truthy (Some "DP1")) with true.
  rewrite bool_decide_eq_false_2 by (cbn [SeqState.processedItems]; set_solver).
  cbn [negb andb].
  rewrite (addItemToSequence_fresh s "DP1" _ HfD) by (cbn [SeqState.processedItems]; set_solver).
  rewrite HoutD. cbn [processCorridors]. rewrite Hid2, Ht2.
  rewrite (addItemToSequence_fresh s k2 _ Hfk2) by (cbn [SeqState.processedItems]; set_solver).
  change (truthy (Some "AD1")) with true.
  rewrite bool_decide_eq_false_2 by (cbn [SeqState.processedItems]; set_solver).
  cbn [negb andb].
  rewrite (addItemToSequence_fresh s "AD1" _ HfA) by (cbn [SeqState.processedItems]; set_solver).
  rewrite HoutA. cbn [processCorridors SeqState.processedItems SeqState.reorderedSequence].
  rewrite addRemaining_all; [done|].
  intros item Hitem.
  assert (itemKey item ∈ map itemKey (Store.pathSequence s)) as Hkey
    by (apply list_elem_of_fmap; eauto).
  rewrite Hseq in Hkey. unfold itemKey in Hkey. set_solver.
Qed.

(** C5.  On a store with the three nodes [E1] (an entrance), [DP1] and
    [AD1] and the two corridors [E1 -> DP1] and [DP1 -> AD1], the sequencer
    returns (a budget of 3 is enough) with the path sequence [E1], first
    corridor, [DP1], second corridor, [AD1], of length 5 and with the orders
    0 to 4, and with exactly the 4 journey edges between its consecutive
    pairs. *)
Theorem reorderPathSequence_linear_path (s : Store) (k1 k2 : string) :
  linearPath s k1 k2 ->
  exists s',
    (forall fuel, (3 <= fuel)%nat -> reorderPathSequence fuel s = Some s')
    /\ Store.pathSequence s' = linearSequence k1 k2
    /\ length (Store.pathSequence s') = 5%nat
    /\ denseOrders (Store.pathSequence s')
    /\ map edgeShape (Store.edges s') = linearEdges k1 k2
    /\ length (Store.edges s') = 4%nat.
Proof.
  intros Hlinear. apply linearPath_sequence in Hlinear.
  exists (regenerateEdges (set_pathSequence (linearSequence k1 k2) s)).
  split; [|split; [|split; [|split; [|split]]]]; try reflexivity.
  - intros fuel Hfuel. unfold reorderPathSequence.
    by rewrite (reorderedSequenceOf_fuel_le s 3 fuel _ Hfuel Hlinear).
  - apply (renumber_dense (linearSequence k1 k2)).
Qed.

(** C5 at the store built by adding the three nodes and then the two
    corridors [CS1] and [CS2] to the initial store. *)
Lemma reorderPathSequence_linear_path_witness :
  linearPath linearStore "CS1" "CS2"
  /\ exists s',
      reorderPathSequence 5 linearStore = Some s'
      /\ ids (Store.pathSequence s') = ["E1"; "CS1"; "DP1"; "CS2"; "AD1"]
      /\ map Edge.id (Store.edges s') = ["E1-CS1"; "CS1-DP1"; "DP1-CS2"; "CS2-AD1"].
Proof.
  assert (linearPath linearStore "CS1" "CS2") as Hlinear.
  { split; [|split; [|split]].
    - exists (nodeWithFloor initialStore (exampleNode "E1" EntranceExit)),
        (nodeWithFloor initialStore (exampleNode "DP1" DecisionPoint)),
        (nodeWithFloor initialStore (exampleNode "AD1" ActivityDestination)).
      split; [apply (Permutation_refl (Store.nodes linearStore))|]. repeat split.
    - exists (corridorWithFloor initialStore (exampleCorridor "CS1" (Some "E1") (Some "DP1"))),
        (corridorWithFloor initialStore (exampleCorridor "CS2" (Some "DP1") (Some "AD1"))).
      split; [apply (Permutation_refl (Store.corridors linearStore))|]. repeat split.
    - apply (bool_decide_unpack _). vm_compute. exact I.
    - apply (bool_decide_unpack _). vm_compute. exact I. }
  split; [exact Hlinear|].
  destruct (reorderPathSequence_linear_path linearStore "CS1" "CS2" Hlinear)
    as (s' & Hrun & Hseq & _ & _ & Hedges & _).
  exists s'. split; [apply Hrun; lia|]. split.
  - by rewrite Hseq.
  - assert (map Edge.id (Store.edges s')
            = map fst (map fst (map edgeShape (Store.edges s')))) as ->
      by (rewrite !map_map; reflexivity).
    by rewrite Hedges.
Defined.

(** ** C6: the journey edges *)

Lemma edgesOfSequence_length edges sorted :
  length (edgesOfSequence edges sorted) = pred (length sorted).
Proof.
  induction sorted as [|a [|b rest] IH]; [done..|].
  change (edgesOfSequence edges (a :: b :: rest))
    with (newEdge edges a b :: edgesOfSequence edges (b :: rest)).
  simpl length in *. by rewrite IH.
Qed.

Lemma edgesOfSequence_lookup edges sorted i current next :
  sorted !! i = Some current -> sorted !! S i = Some next ->
  edgesOfSequence edges sorted !! i = Some (newEdge edges current next).
Proof.
  revert i. induction sorted as [|a [|b rest] IH]; intros i Ha Hb; [done..|].
  change (edgesOfSequence edges (a :: b :: rest))
    with (newEdge edges a b :: edgesOfSequence edges (b :: rest)).
  destruct i as [|i]; simpl in *.
  - by inversion Ha; inversion Hb; subst.
  - by apply IH.
Qed.

Lemma newEdge_carriesOver edges current next :
  carriesOver edges current (newEdge edges current next).
Proof.
  unfold carriesOver, newEdge. cbn [Edge.id Edge.decision_properties Edge.design_intent
                                   Edge.design_importance].
  by destruct (find _ edges).
Qed.

Lemma find_edge_unique (edges : list Edge) e :
  NoDup (map Edge.id edges) -> e ∈ edges ->
  find (fun old => bool_decide (Edge.id old = Edge.id e)) edges = Some e.
Proof.
  induction edges as [|a l IH]; intros Hnd Hin; [by apply elem_of_nil in Hin|].
  simpl in *. apply NoDup_cons in Hnd as [Hnotin Hnd].
  case_bool_decide as Heq.
  - apply elem_of_cons in Hin as [->|Hin]; [done|].
    exfalso. apply Hnotin. rewrite Heq. apply list_elem_of_fmap. eauto.
  - apply elem_of_cons in Hin as [->|Hin]; [done|]. by apply IH.
Qed.

Lemma newEdge_again edges regenerated current next :
  NoDup (map Edge.id regenerated) ->
  newEdge edges current next ∈ regenerated ->
  newEdge regenerated current next = newEdge edges current next.
Proof.
  intros Hnd Hin. pose proof (find_edge_unique _ _ Hnd Hin) as Hfind.
  change (Edge.id (newEdge edges current next)) with (edgeId current next) in Hfind.
  unfold newEdge at 1. cbv zeta. rewrite Hfind. done.
Qed.

Lemma edgesOfSequence_again edges regenerated sorted :
  NoDup (map Edge.id regenerated) ->
  (forall e, e ∈ edgesOfSequence edges sorted -> e ∈ regenerated) ->
  edgesOfSequence regenerated sorted = edgesOfSequence edges sorted.
Proof.
  intros Hnd. induction sorted as [|a [|b rest] IH]; intros Hall; [done..|].
  change (edgesOfSequence regenerated (a :: b :: rest))
    with (newEdge regenerated a b :: edgesOfSequence regenerated (b :: rest)).
  change (edgesOfSequence edges (a :: b :: rest))
    with (newEdge edges a b :: edgesOfSequence edges (b :: rest)) in *.
  rewrite (newEdge_again edges); [|done|apply Hall, list_elem_of_here].
  f_equal. apply IH. intros e He. by apply Hall, list_elem_of_further.
Qed.

(** C6 (amended).  [regenerateEdges] is a function of the path sequence and
    of the edges held before.  It sorts the sequence by order, keeps the
    sequence, and for the [i]-th consecutive pair [(current, next)] of the
    sorted sequence its [i]-th edge has the id [current.id-next.id], goes
    from [current.id] to [next.id], and carries the decision properties and
    the design intent of the edge of that id held before, or the defaults
    when there was none.  Running it a second time changes nothing when the
    ids of the edges it made are pairwise distinct. *)
Theorem regenerateEdges_spec (s : Store) :
  let sorted := sortByOrder (Store.pathSequence s) in
  let regenerated := regenerateEdges s in
  sorted ≡ₚ Store.pathSequence s
  /\ Sorted orderLe sorted
  /\ Store.pathSequence regenerated = Store.pathSequence s
  /\ length (Store.edges regenerated) = pred (length (Store.pathSequence s))
  /\ (forall i current next,
         sorted !! i = Some current -> sorted !! S i = Some next ->
         exists e,
           Store.edges regenerated !! i = Some e
           /\ Edge.id e = PathSequenceItem.id current +:+ "-" +:+ PathSequenceItem.id next
           /\ Edge.from e = PathSequenceItem.id current
           /\ Edge.to e = PathSequenceItem.id next
           /\ carriesOver (Store.edges s) current e)
  /\ (NoDup (map Edge.id (Store.edges regenerated)) ->
      regenerateEdges regenerated = regenerated).
Proof.
  intros sorted regenerated.
  split; [apply sortByOrder_perm|]. split; [apply sortByOrder_sorted|].
  split; [done|]. split; [|split].
  - unfold regenerated, regenerateEdges. simpl.
    rewrite edgesOfSequence_length.
    by rewrite (Permutation_length (sortByOrder_perm (Store.pathSequence s))).
  - intros i current next Hc Hn. exists (newEdge (Store.edges s) current next).
    split; [by apply edgesOfSequence_lookup|].
    repeat split; try done. apply newEdge_carriesOver.
  - intros Hnd. unfold regenerated in *. unfold regenerateEdges in *. simpl in *.
    unfold set_edges. simpl. f_equal. by apply edgesOfSequence_again.
Qed.

(** C6 (amended) at [cycleStore]: the edge ids are distinct. *)
Lemma regenerateEdges_spec_witness :
  NoDup (map Edge.id (Store.edges (regenerateEdges cycleStore)))
  /\ regenerateEdges (regenerateEdges cycleStore) = regenerateEdges cycleStore.
Proof.
  assert (NoDup (map Edge.id (Store.edges (regenerateEdges cycleStore)))) as Hnd.
  { apply (bool_decide_unpack _). vm_compute. exact I. }
  split; [exact Hnd|].
  exact (proj2 (proj2 (proj2 (proj2 (proj2 (regenerateEdges_spec cycleStore))))) Hnd).
Defined.

(** C6, as stated, fails.  After the four nodes of [hyphenScenario] are
    added, [updatePathSequence] with [hyphenSequence] runs [regenerateEdges]
    once: the pairs [(a-b, c)] and [(a, b-c)] both give the edge id [a-b-c],
    no edge held before has that id, and each edge gets its own default
    design intent ([where] is [a-b] for the first and [a] for the third).  A
    second run, with the path sequence unchanged, finds the first edge under
    that id and copies its design intent onto the third. *)
Lemma regenerateEdges_counterexample :
  run 5 hyphenScenario initialStore = Some hyphenBase
  /\ NoDup (ids hyphenSequence)
  /\ Store.pathSequence (updatePathSequence hyphenSequence hyphenBase) = hyphenSequence
  /\ map intentWhere (Store.edges (updatePathSequence hyphenSequence hyphenBase))
     = ["a-b"; "c"; "a"]
  /\ map intentWhere
       (Store.edges (regenerateEdges (updatePathSequence hyphenSequence hyphenBase)))
     = ["a-b"; "c"; "a-b"]
  /\ regenerateEdges (updatePathSequence hyphenSequence hyphenBase)
     <> updatePathSequence hyphenSequence hyphenBase.
Proof.
  split; [vm_compute; reflexivity|].
  split; [apply (bool_decide_unpack _); vm_compute; exact I|].
  split; [vm_compute; reflexivity|]. split; [vm_compute; reflexivity|].
  split; [vm_compute; reflexivity|].
  intros H. apply (f_equal (fun s => map intentWhere (Store.edges s))) in H.
  vm_compute in H. discriminate H.
Qed.

(** ** C7: validation of a corridor path *)

(** The floor test of the validation compares the difference of the extreme
    floor indices with 5. *)
Lemma spanTooLarge_iff path :
  spanTooLarge path = true
  <-> exists a b, a ∈ pathFloors path /\ b ∈ pathFloors path /\ 5 < b - a.
Proof.
  unfold spanTooLarge, getCorridorFloorRange. simpl.
  destruct (pathFloors path) as [|v l] eqn:Hl.
  - simpl. split; [done|]. intros (a & _ & Ha & _). by apply elem_of_nil in Ha.
  - destruct (Math_min_max_spec (v :: l)) as (lo & hi & -> & -> & Hlo & Hhi & Hb); [done|].
    simpl. rewrite Z.ltb_lt. split.
    + intros H. exists lo, hi. auto.
    + intros (a & b & Ha & Hb' & Hlt).
      pose proof (Hb a Ha). pose proof (Hb b Hb'). lia.
Qed.

(** The validation returns its list of reasons; a path fails exactly when it
    has fewer than two vertices, or a vertex without [z], or two vertices
    whose floor indices differ by more than 5. *)
Lemma validateCorridorPath_spec path :
  Validation.isValid (validateCorridorPath path) = false
  <-> (length path < 2)%nat
      \/ (exists p, p ∈ path /\ Position.z p = None)
      \/ (exists a b, a ∈ pathFloors path /\ b ∈ pathFloors path /\ 5 < b - a).
Proof.
  rewrite <- spanTooLarge_iff.
  assert (missingZ path = true <-> exists p, p ∈ path /\ Position.z p = None) as Hz.
  { unfold missingZ. rewrite existsb_exists. split.
    - intros (p & Hp & Hn). exists p. split; [by apply list_elem_of_In|].
      by apply bool_decide_eq_true in Hn.
    - intros (p & Hp & Hn). exists p. split; [by apply list_elem_of_In|].
      by apply bool_decide_eq_true. }
  rewrite <- Hz. unfold validateCorridorPath.
  destruct (length path <? 2)%nat eqn:Hlen;
    [apply Nat.ltb_lt in Hlen|apply Nat.ltb_ge in Hlen];
    destruct (missingZ path); destruct (spanTooLarge path);
    (split;
     [ intros Hv;
       first [ left; exact Hlen | right; left; reflexivity
             | right; right; reflexivity | discriminate Hv ]
     | intros [Hc|[Hc|Hc]]; first [ reflexivity | discriminate Hc | lia ] ]).
Qed.

(** C7 (the code misses the claim).  The path [sixFloorPath] spans six
    distinct floor indices, and the validation accepts it without any reason:
    the test is [max - min > 5], and here [max - min] is 5, although the
    message of the test announces a maximum of 5 floors. *)
Theorem validateCorridorPath_six_floors :
  length (remove_dups (pathFloors sixFloorPath)) = 6%nat
  /\ validateCorridorPath sixFloorPath = Validation.mk true [].
Proof. split; reflexivity. Qed.

(** ** C8: the segments of an added corridor *)

Lemma mkSegment_between a b :
  is_Some (Position.z a) -> is_Some (Position.z b) -> segmentBetween a b (mkSegment a b).
Proof.
  intros [za Ha] [zb Hb]. unfold segmentBetween, mkSegment, z_or. simpl.
  rewrite Ha, Hb. simpl. repeat split; [|intros Hn; apply negb_true_iff, Z.eqb_neq; done].
  intros Hn. by apply negb_true_iff, Z.eqb_neq in Hn.
Qed.

Lemma stampFloor_z s p : is_Some (Position.z (stampFloor s p)).
Proof. by eexists. Qed.

Lemma hasFloorTransition_iff segments :
  hasFloorTransition segments = true
  <-> exists seg, seg ∈ segments /\ CorridorSegment.isCrossFloor seg = true.
Proof.
  unfold hasFloorTransition. rewrite existsb_exists.
  split; intros (seg & Hin & Hc); exists seg; (split; [by apply list_elem_of_In|done]).
Qed.

Lemma addCorridor_stored fuel corridor s s' :
  addCorridor fuel corridor s = Some s' ->
  Store.corridors s' = Store.corridors s ++ [corridorWithFloor s corridor].
Proof.
  intros Hrun. unfold addCorridor in Hrun.
  by apply reorderPathSequence_frame in Hrun as (_ & -> & _).
Qed.

(** C8.  For a corridor with a path of at least two vertices, [addCorridor]
    stores (as the last corridor) a corridor whose path is the given path with
    the current floor stamped on the vertices that lack one, whose segments
    are the [n - 1] segments between consecutive vertices, each flagged as
    cross-floor exactly when its two floors differ; the corridor is flagged as
    cross-floor exactly when one of its segments is, and then [fromFloor] and
    [toFloor] are the least and the greatest floor of the path.  The action
    returns when every [to] anchor has an item in the extended sequence. *)
Theorem addCorridor_derives_segments (s : Store) (corridor : Corridor) :
  (2 <= length (Corridor.path corridor))%nat ->
  (forall fuel s',
      addCorridor fuel corridor s = Some s' ->
      exists stored,
        Store.corridors s' = Store.corridors s ++ [stored]
        /\ Corridor.path stored = map (stampFloor s) (Corridor.path corridor)
        /\ S (length (Corridor.segments stored)) = length (Corridor.path corridor)
        /\ (forall i a b,
               Corridor.path stored !! i = Some a ->
               Corridor.path stored !! S i = Some b ->
               exists seg, Corridor.segments stored !! i = Some seg
                           /\ segmentBetween a b seg)
        /\ (Corridor.isCrossFloor stored = true
            <-> exists seg, seg ∈ Corridor.segments stored
                            /\ CorridorSegment.isCrossFloor seg = true)
        /\ (Corridor.isCrossFloor stored = true ->
            exists lo hi,
              Corridor.fromFloor stored = Some (Fin lo)
              /\ Corridor.toFloor stored = Some (Fin hi)
              /\ (exists p, p ∈ Corridor.path stored /\ Position.z p = Some lo)
              /\ (exists p, p ∈ Corridor.path stored /\ Position.z p = Some hi)
              /\ forall p, p ∈ Corridor.path stored ->
                           exists f, Position.z p = Some f /\ lo <= f <= hi))
  /\ (targetsSequenced (addCorridor_set corridor s) = true ->
      exists s', forall fuel,
          (S (length (Store.pathSequence s)) < fuel)%nat ->
          addCorridor fuel corridor s = Some s').
Proof.
  intros Hlen. split.
  - intros fuel s' Hrun. apply addCorridor_stored in Hrun.
    exists (corridorWithFloor s corridor). split; [done|].
    unfold corridorWithFloor. cbn [Corridor.path Corridor.segments Corridor.isCrossFloor
                                   Corridor.fromFloor Corridor.toFloor].
    set (path := map (stampFloor s) (Corridor.path corridor)).
    assert (forall p, p ∈ path -> is_Some (Position.z p)) as Hz.
    { intros p Hp. apply list_elem_of_fmap in Hp as (q & -> & _). apply stampFloor_z. }
    split; [done|]. split.
    { rewrite generateCorridorSegments_length. unfold path. rewrite length_map. lia. }
    split.
    { intros i a b Ha Hb. exists (mkSegment a b).
      split; [by apply generateCorridorSegments_lookup|].
      apply mkSegment_between; apply Hz; by eapply list_elem_of_lookup_2. }
    split; [apply hasFloorTransition_iff|].
    intros Hcross. rewrite Hcross.
    destruct (Math_min_max_spec (pathFloors path)) as (lo & hi & -> & -> & Hlo & Hhi & Hb).
    { unfold pathFloors, path. destruct (Corridor.path corridor); [simpl in Hlen; lia|done]. }
    assert (forall p f, p ∈ path -> z_or p 0 = f -> Position.z p = Some f) as Hzor.
    { intros p f Hp <-. destruct (Hz p Hp) as [f Hf]. unfold z_or. by rewrite Hf. }
    exists lo, hi. repeat split; [done..| | |].
    + apply list_elem_of_fmap in Hlo as (p & Hp & Hin). exists p. split; [done|].
      by apply Hzor.
    + apply list_elem_of_fmap in Hhi as (p & Hp & Hin). exists p. split; [done|].
      by apply Hzor.
    + intros p Hp. exists (z_or p 0). split; [by apply Hzor|].
      apply Hb. unfold pathFloors. apply list_elem_of_fmap. eauto.
  - intros Ht. destruct (reorderPathSequence_returns _ Ht) as (s' & Hs').
    exists s'. intros fuel Hfuel. apply Hs'.
    unfold addCorridor_set. simpl. rewrite length_app. simpl. lia.
Qed.

(** The cross-floor scenario: the path [(0,0,0); (10,10,1)] gives one
    segment, a cross-floor corridor, [fromFloor] 0 and [toFloor] 1. *)
Lemma addCorridor_cross_floor_scenario (s : Store) (id : string) (from to : option string)
    (fuel : nat) (s' : Store) :
  addCorridor fuel (crossFloorCorridor id from to) s = Some s' ->
  exists stored,
    Store.corridors s' = Store.corridors s ++ [stored]
    /\ length (Corridor.segments stored) = 1%nat
    /\ Corridor.isCrossFloor stored = true
    /\ Corridor.fromFloor stored = Some (Fin 0)
    /\ Corridor.toFloor stored = Some (Fin 1).
Proof.
  intros Hrun. apply addCorridor_stored in Hrun.
  eexists. split; [exact Hrun|]. done.
Qed.

(** C8 at the cross-floor scenario, added to the initial store. *)
Lemma addCorridor_derives_segments_witness :
  (2 <= length (Corridor.path (crossFloorCorridor "CS1" None None)))%nat
  /\ targetsSequenced (addCorridor_set (crossFloorCorridor "CS1" None None) initialStore) = true
  /\ exists s',
      addCorridor 5 (crossFloorCorridor "CS1" None None) initialStore = Some s'
      /\ exists stored,
          Store.corridors s' = [stored]
          /\ length (Corridor.segments stored) = 1%nat
          /\ Corridor.isCrossFloor stored = true
          /\ Corridor.fromFloor stored = Some (Fin 0)
          /\ Corridor.toFloor stored = Some (Fin 1).
Proof.
  assert (2 <= length (Corridor.path (crossFloorCorridor "CS1" None None)))%nat as Hlen
    by (simpl; lia).
  assert (targetsSequenced (addCorridor_set (crossFloorCorridor "CS1" None None) initialStore)
          = true) as Ht by reflexivity.
  split; [exact Hlen|]. split; [exact Ht|].
  destruct (addCorridor_derives_segments initialStore _ Hlen) as [Hsound Hret].
  destruct (Hret Ht) as (s' & Hs').
  exists s'. split; [apply Hs'; simpl; lia|].
  destruct (Hsound 5%nat s' (Hs' 5%nat ltac:(simpl; lia)))
    as (stored & Hstored & Hpath & Hsegs & Hseg & Hcross & Hfloors).
  exists stored. split; [exact Hstored|].
  pose proof (addCorridor_cross_floor_scenario initialStore "CS1" None None 5 s'
                (Hs' 5%nat ltac:(simpl; lia))) as (stored' & Hst' & Hrest).
  simpl in Hstored, Hst'. rewrite Hstored in Hst'. inversion Hst'; subst stored'.
  exact Hrest.
Defined.

(** ** C9: export and load *)

Lemma loadCorridor_exported c : loadCorridor (PersistedCorridor.mk c true) = c.
Proof. by destruct c. Qed.

(** C9.  Loading what [exportData] returns (into the same store or into any
    other) gives back the nodes, the corridors with their segments, the
    floors and the path sequence of the exported store, and also its edges
    and its project records. *)
Theorem loadProject_exportData (now : string) (s s0 : Store) :
  let s' := loadProject (exportData now s) s0 in
  Store.nodes s' = Store.nodes s
  /\ Store.corridors s' = Store.corridors s
  /\ map Corridor.segments (Store.corridors s') = map Corridor.segments (Store.corridors s)
  /\ Store.floors s' = Store.floors s
  /\ Store.pathSequence s' = Store.pathSequence s
  /\ Store.edges s' = Store.edges s
  /\ Store.projectId s' = Store.projectId s
  /\ Store.journeyReflection s' = Store.journeyReflection s.
Proof.
  assert (map loadCorridor (map (fun c => PersistedCorridor.mk c true) (Store.corridors s))
          = Store.corridors s) as Hc.
  { induction (Store.corridors s) as [|c l IH]; [done|].
    simpl. by rewrite loadCorridor_exported, IH. }
  unfold loadProject, exportData. simpl.
  destruct (Store.floors s) as [|firstFloor rest] eqn:Hf; simpl; rewrite Hc; done.
Qed.

(** A corridor of a document without segments gets them from its path. *)
Lemma loadCorridor_regenerates c :
  Corridor.segments (loadCorridor (PersistedCorridor.mk c false))
  = generateCorridorSegments (Corridor.path c).
Proof. done. Qed.

(** ** C10: the sequencer keeps the items of the path sequence *)

(** C10 (amended).  For every store whose path sequence has pairwise distinct
    ids (the corridor graph may have cycles, the sequence may hold ids that
    are neither nodes nor corridors): whenever [reorderPathSequence] returns,
    the new path sequence holds exactly the items of the old one (same ids and
    types), each id once, with the order of an item equal to its position;
    and it returns, with the same result for every large enough budget, when
    every non-empty [to] anchor of a corridor has an item in the sequence. *)
Theorem reorderPathSequence_keeps_items (s : Store) :
  NoDup (ids (Store.pathSequence s)) ->
  (forall fuel s',
      reorderPathSequence fuel s = Some s' ->
      map itemKey (Store.pathSequence s') ≡ₚ map itemKey (Store.pathSequence s)
      /\ NoDup (ids (Store.pathSequence s'))
      /\ denseOrders (Store.pathSequence s'))
  /\ (targetsSequenced s = true ->
      exists s', forall fuel,
          (length (Store.pathSequence s) < fuel)%nat ->
          reorderPathSequence fuel s = Some s').
Proof.
  intros Hnd. split; [|apply reorderPathSequence_returns].
  intros fuel s' Hrun.
  apply reorderPathSequence_sequence in Hrun as [Hseq _].
  destruct (reorderedSequenceOf_sound s fuel _ Hnd Hseq) as (items & -> & Hperm).
  repeat split.
  - rewrite renumber_keys. by apply fmap_Permutation.
  - rewrite renumber_ids. by rewrite Hperm.
  - apply renumber_dense.
Qed.

(** C10 at [cycleStore]: a cycle [E1 -> DP1 -> E1] and a ghost item. *)
Lemma reorderPathSequence_keeps_items_witness :
  NoDup (ids (Store.pathSequence cycleStore))
  /\ targetsSequenced cycleStore = true
  /\ (forall fuel s',
         reorderPathSequence fuel cycleStore = Some s' ->
         map itemKey (Store.pathSequence s') ≡ₚ map itemKey (Store.pathSequence cycleStore)
         /\ NoDup (ids (Store.pathSequence s'))
         /\ denseOrders (Store.pathSequence s'))
  /\ (exists s', forall fuel,
         (length (Store.pathSequence cycleStore) < fuel)%nat ->
         reorderPathSequence fuel cycleStore = Some s').
Proof.
  assert (NoDup (ids (Store.pathSequence cycleStore))) as Hnd.
  { apply (bool_decide_unpack _). vm_compute. exact I. }
  assert (targetsSequenced cycleStore = true) as Ht by (vm_compute; reflexivity).
  destruct (reorderPathSequence_keeps_items cycleStore Hnd) as [Hsound Hret].
  split; [exact Hnd|]. split; [exact Ht|]. split; [exact Hsound|exact (Hret Ht)].
Defined.

(** The recursion of [processPath] never ends on [loopStore]: the node [M]
    is never marked as processed, since the sequence has no item for it. *)
Lemma loopStore_diverges fuel :
  forall order st,
    "M" ∉ SeqState.processedItems st ->
    processPath fuel loopStore "M" order st = None.
Proof.
  induction fuel as [|fuel IH]; intros order st Hnot; [done|].
  cbn [processPath].
  rewrite addItemToSequence_absent by (vm_compute; set_solver).
  assert (List.filter (startsAt "M") (Store.corridors loopStore)
          = [corridorWithFloor renamedStore loopCorridor]) as ->
    by (vm_compute; reflexivity).
  cbn [processCorridors].
  change (Corridor.id (corridorWithFloor renamedStore loopCorridor)) with "C2".
  pose proof (addItemToSequence_other loopStore "M" "C2" order st ltac:(done) Hnot) as Hnot1.
  destruct (addItemToSequence loopStore "C2" order st) as [order1 st1]. simpl in Hnot1.
  change (Corridor.to (corridorWithFloor renamedStore loopCorridor)) with (Some "M").
  cbv beta iota. change (truthy (Some "M")) with true.
  rewrite (bool_decide_eq_false_2 _ Hnot1). cbn [negb andb].
  by rewrite IH.
Qed.

Lemma loopStore_never_returns fuel : reorderPathSequence fuel loopStore = None.
Proof.
  unfold reorderPathSequence, reorderedSequenceOf.
  assert (exists node, List.filter (isStartNode loopStore) (Store.nodes loopStore) = [node]
                       /\ Node.id node = "M") as (node & -> & Hid).
  { exists (mergeNode (nodeWithFloor initialStore (exampleNode "N" EntranceExit)) renameToM).
    split; vm_compute; reflexivity. }
  cbn [processStartNodes]. rewrite Hid.
  rewrite bool_decide_eq_false_2 by set_solver.
  rewrite loopStore_diverges by set_solver. done.
Qed.

(** C10, as stated, fails.  On [duplicateStore] the sequencer turns the ids
    [A; A; X; X] into [A; X; X]: an item is dropped and an id is kept twice.
    On [loopStore] it does not return, whatever the budget: after the entrance
    [N] is added and renamed [M], adding a corridor from [M] to [M] never
    returns. *)
Lemma reorderPathSequence_counterexample :
  (exists s',
      reorderPathSequence 5 duplicateStore = Some s'
      /\ ids (Store.pathSequence duplicateStore) = ["A"; "A"; "X"; "X"]
      /\ ids (Store.pathSequence s') = ["A"; "X"; "X"])
  /\ run 5 renameScenario initialStore = Some renamedStore
  /\ (forall fuel, reorderPathSequence fuel loopStore = None)
  /\ (forall fuel, step fuel (AddCorridor loopCorridor) renamedStore = None).
Proof.
  split; [|split; [vm_compute; reflexivity|split; apply loopStore_never_returns]].
  eexists. split; [vm_compute; reflexivity|]. split; reflexivity.
Qed.

(** * Further properties *)

(** ** Floor transitions of a path *)

Lemma detectFloorTransitionsFrom_spec path :
  forall i k,
    k ∈ detectFloorTransitionsFrom i path
    <-> exists j seg,
        k = i + Z.of_nat j
        /\ generateCorridorSegments path !! j = Some seg
        /\ CorridorSegment.isCrossFloor seg = true.
Proof.
  induction path as [|a [|b rest] IH]; intros i k.
  - simpl. split; [intros H; inversion H|intros (j & seg & _ & H & _); destruct j; discriminate].
  - simpl. split; [intros H; inversion H|intros (j & seg & _ & H & _); destruct j; discriminate].
  - change (detectFloorTransitionsFrom i (a :: b :: rest))
      with (if negb (z_or a 0 =? z_or b 0)
            then i :: detectFloorTransitionsFrom (i + 1) (b :: rest)
            else detectFloorTransitionsFrom (i + 1) (b :: rest)).
    change (generateCorridorSegments (a :: b :: rest))
      with (mkSegment a b :: generateCorridorSegments (b :: rest)).
    split.
    + intros Hk.
      assert (Hcase : (k = i /\ negb (z_or a 0 =? z_or b 0) = true)
                      \/ k ∈ detectFloorTransitionsFrom (i + 1) (b :: rest)).
      { destruct (negb (z_or a 0 =? z_or b 0)) eqn:E; [|right; exact Hk].
        apply elem_of_cons in Hk as [->|Hk]; [left; split; reflexivity|right; exact Hk]. }
      destruct Hcase as [[-> E]|Hk'].
      * exists 0%nat, (mkSegment a b). split; [lia|]. split; [reflexivity|exact E].
      * apply IH in Hk' as (j & seg & -> & Hj & Hc).
        exists (S j), seg. split; [lia|]. split; [exact Hj|exact Hc].
    + intros (j & seg & -> & Hj & Hc). destruct j as [|j].
      * simpl in Hj. injection Hj as <-. simpl in Hc. rewrite Hc.
        replace (i + Z.of_nat 0) with i by lia. apply list_elem_of_here.
      * assert (Hin : i + Z.of_nat (S j) ∈ detectFloorTransitionsFrom (i + 1) (b :: rest)).
        { apply IH. exists j, seg. split; [lia|]. split; [exact Hj|exact Hc]. }
        destruct (negb (z_or a 0 =? z_or b 0)); [apply list_elem_of_further|]; exact Hin.
Qed.

Lemma detectFloorTransitionsFrom_lower path :
  forall i k, k ∈ detectFloorTransitionsFrom i path -> i <= k.
Proof.
  intros i k Hk. apply detectFloorTransitionsFrom_spec in Hk as (j & _ & -> & _). lia.
Qed.

Lemma detectFloorTransitionsFrom_sorted path :
  forall i, StronglySorted Z.lt (detectFloorTransitionsFrom i path).
Proof.
  induction path as [|a [|b rest] IH]; intros i; try (simpl; constructor).
  change (detectFloorTransitionsFrom i (a :: b :: rest))
    with (if negb (z_or a 0 =? z_or b 0)
          then i :: detectFloorTransitionsFrom (i + 1) (b :: rest)
          else detectFloorTransitionsFrom (i + 1) (b :: rest)).
  destruct (negb (z_or a 0 =? z_or b 0)); [|apply IH].
  constructor; [apply IH|].
  apply Forall_forall. intros k Hk.
  apply detectFloorTransitionsFrom_lower in Hk. lia.
Qed.

(** X1: [detectFloorTransitions] lists, in increasing order, exactly the
    indices of the segments of [generateCorridorSegments] that cross floors;
    it is empty exactly when no segment of the path crosses floors. *)
Theorem detectFloorTransitions_segments (path : list Position) :
  (forall k,
      k ∈ detectFloorTransitions path
      <-> exists seg,
          0 <= k
          /\ generateCorridorSegments path !! Z.to_nat k = Some seg
          /\ CorridorSegment.isCrossFloor seg = true)
  /\ StronglySorted Z.lt (detectFloorTransitions path)
  /\ (detectFloorTransitions path = []
      <-> hasFloorTransition (generateCorridorSegments path) = false).
Proof.
  assert (Hmem : forall k,
             k ∈ detectFloorTransitions path
             <-> exists seg,
                 0 <= k
                 /\ generateCorridorSegments path !! Z.to_nat k = Some seg
                 /\ CorridorSegment.isCrossFloor seg = true).
  { intros k. unfold detectFloorTransitions. rewrite detectFloorTransitionsFrom_spec. split.
    - intros (j & seg & -> & Hj & Hc). exists seg. split; [lia|].
      replace (Z.to_nat (0 + Z.of_nat j)) with j by lia. split; assumption.
    - intros (seg & Hk & Hj & Hc). exists (Z.to_nat k), seg. split; [lia|]. split; assumption. }
  split; [exact Hmem|]. split; [apply detectFloorTransitionsFrom_sorted|].
  split.
  - intros Hnil. destruct (hasFloorTransition _) eqn:E; [|reflexivity].
    apply hasFloorTransition_iff in E as (seg & Hin & Hc).
    apply list_elem_of_lookup in Hin as [j Hj].
    assert (Hk : Z.of_nat j ∈ detectFloorTransitions path).
    { apply Hmem. exists seg. split; [lia|]. rewrite Nat2Z.id. split; assumption. }
    rewrite Hnil in Hk. inversion Hk.
  - intros Hno. destruct (detectFloorTransitions path) as [|k l] eqn:E; [reflexivity|].
    assert (Hk : k ∈ k :: l) by apply list_elem_of_here.
    apply Hmem in Hk as (seg & _ & Hj & Hc).
    assert (Hyes : hasFloorTransition (generateCorridorSegments path) = true).
    { apply hasFloorTransition_iff. exists seg. split; [|exact Hc].
      apply list_elem_of_lookup. eexists; exact Hj. }
    congruence.
Qed.

(** X2: [updatePathWithFloorTransition] keeps the length of the path; inside
    the path it replaces the floor of the one vertex and nothing else; with
    an index outside the path (negative included) it returns the path as it
    was. *)
Theorem updatePathWithFloorTransition_spec (path : list Position) (vertexIndex newFloor : Z) :
  let newPath := updatePathWithFloorTransition path vertexIndex newFloor in
  length newPath = length path
  /\ (forall j vertex,
         path !! j = Some vertex ->
         newPath !! j
         = Some (if bool_decide (vertexIndex = Z.of_nat j) then with_z vertex newFloor
                 else vertex))
  /\ (vertexIndex < 0 \/ Z.of_nat (length path) <= vertexIndex -> newPath = path).
Proof.
  unfold updatePathWithFloorTransition. cbv zeta.
  destruct (vertexIndex <? 0) eqn:Eneg.
  - apply Z.ltb_lt in Eneg. split; [reflexivity|]. split; [|reflexivity].
    intros j vertex Hj. rewrite bool_decide_eq_false_2 by lia. exact Hj.
  - apply Z.ltb_ge in Eneg.
    destruct (path !! Z.to_nat vertexIndex) as [v|] eqn:Ev.
    + split; [apply length_insert|]. split.
      * intros j vertex Hj. destruct (decide (Z.to_nat vertexIndex = j)) as [<-|Hne].
        -- rewrite bool_decide_eq_true_2 by lia.
           rewrite list_lookup_insert_eq by (eapply lookup_lt_Some; exact Ev). congruence.
        -- rewrite bool_decide_eq_false_2 by lia.
           rewrite list_lookup_insert_ne by exact Hne. exact Hj.
      * intros [Hlt|Hge]; [lia|].
        apply lookup_lt_Some in Ev. lia.
    + split; [reflexivity|]. split; [|reflexivity].
      intros j vertex Hj. apply lookup_ge_None in Ev.
      apply lookup_lt_Some in Hj as Hlt.
      rewrite bool_decide_eq_false_2 by lia. exact Hj.
Qed.

(** ** Corridors and the floor they are shown on *)

Lemma getSegmentsForFloor_generated path floorIndex :
  getSegmentsForFloor (generateCorridorSegments path) floorIndex <> []
  <-> (2 <= length path)%nat /\ exists p, p ∈ path /\ z_or p 0 = floorIndex.
Proof.
  unfold getSegmentsForFloor. split.
  - intros Hne.
    destruct (List.filter (touchesFloor floorIndex) (generateCorridorSegments path))
      as [|seg l] eqn:E; [congruence|].
    assert (Hin : In seg (List.filter (touchesFloor floorIndex) (generateCorridorSegments path)))
      by (rewrite E; left; reflexivity).
    apply filter_In in Hin as [Hin Htouch]. apply list_elem_of_In in Hin.
    split.
    + pose proof (generateCorridorSegments_length path) as Hlen.
      destruct (generateCorridorSegments path); [inversion Hin|]. simpl in Hlen. lia.
    + apply generateCorridorSegments_elem in Hin as (a & b & Ha & Hb & ->).
      unfold touchesFloor in Htouch. simpl in Htouch.
      apply orb_true_iff in Htouch as [H|H]; apply Z.eqb_eq in H; eauto.
  - intros (Hlen & p & Hp & Hz).
    apply list_elem_of_lookup in Hp as [j Hj].
    assert (Hseg : exists seg, seg ∈ generateCorridorSegments path
                               /\ touchesFloor floorIndex seg = true).
    { destruct (path !! S j) as [next|] eqn:Enext.
      - exists (mkSegment p next). split.
        + apply list_elem_of_lookup. exists j.
          apply generateCorridorSegments_lookup; assumption.
        + unfold touchesFloor. simpl. rewrite Hz, Z.eqb_refl. reflexivity.
      - destruct j as [|j].
        + apply lookup_ge_None in Enext. lia.
        + destruct (path !! j) as [prev|] eqn:Eprev.
          * exists (mkSegment prev p). split.
            -- apply list_elem_of_lookup. exists j.
               apply generateCorridorSegments_lookup; assumption.
            -- unfold touchesFloor. simpl. rewrite Hz, Z.eqb_refl. apply orb_true_r.
          * apply lookup_ge_None in Eprev. apply lookup_lt_Some in Hj. lia. }
    destruct Hseg as (seg & Hin & Htouch). intros Hnil.
    assert (Hin' : In seg (List.filter (touchesFloor floorIndex) (generateCorridorSegments path))).
    { apply filter_In. split; [apply list_elem_of_In; exact Hin|exact Htouch]. }
    rewrite Hnil in Hin'. destruct Hin'.
Qed.

(** X3: a stored corridor whose segments are the ones derived from its path is
    shown on the current floor exactly when its path has at least two
    vertices and one of them lies on the current floor (a vertex without [z]
    counting as floor 0). *)
Theorem getVisibleCorridors_vertex_on_floor (s : Store) (corridor : Corridor) :
  Corridor.segments corridor = generateCorridorSegments (Corridor.path corridor) ->
  (corridor ∈ getVisibleCorridors s
   <-> corridor ∈ Store.corridors s
       /\ (2 <= length (Corridor.path corridor))%nat
       /\ exists p, p ∈ Corridor.path corridor /\ z_or p 0 = currentFloorIndex s).
Proof.
  intros Hsegs. unfold getVisibleCorridors.
  rewrite (list_elem_of_In (List.filter _ _) corridor), filter_In, <- list_elem_of_In, Hsegs.
  rewrite <- getSegmentsForFloor_generated.
  split; intros [Hin Hvis]; (split; [exact Hin|]).
  - intros Hnil. rewrite Hnil in Hvis. discriminate.
  - destruct (getSegmentsForFloor _ _); [congruence|reflexivity].
Qed.

Lemma getVisibleCorridors_vertex_on_floor_witness :
  Corridor.segments stairCorridor = generateCorridorSegments (Corridor.path stairCorridor)
  /\ stairCorridor ∈ getVisibleCorridors stairStore
  /\ stairCorridor ∉ getVisibleCorridors (set_canvasState
                                            (CanvasState.mk 1 (Position.mk 0 0 None) None 1)
                                            stairStore).
Proof.
  split; [reflexivity|]. split.
  - apply (getVisibleCorridors_vertex_on_floor stairStore stairCorridor); [reflexivity|].
    split; [apply list_elem_of_here|]. split; [simpl; lia|].
    exists (Position.mk 0 0 (Some 0)). split; [apply list_elem_of_here|reflexivity].
  - intros Hin.
    apply (getVisibleCorridors_vertex_on_floor _ stairCorridor) in Hin; [|reflexivity].
    destruct Hin as (_ & _ & p & Hp & Hz). simpl in Hp.
    apply elem_of_cons in Hp as [->|Hp]; [discriminate Hz|].
    apply list_elem_of_singleton in Hp as ->. discriminate Hz.
Defined.

(** ** The style of a rendered segment *)

(** X4: a segment is drawn dotted exactly when it crosses floors, and every
    segment that [getCorridorSegmentsForFloor] returns for a floor is drawn
    at full opacity on that floor: the reduced opacity applies only to a
    cross-floor segment styled for a floor it does not touch. *)
Theorem getSegmentRenderStyle_spec (segment : CorridorSegment) (currentFloor : Z) :
  RenderStyle.isDotted (getSegmentRenderStyle segment currentFloor)
  = CorridorSegment.isCrossFloor segment
  /\ (RenderStyle.opacity (getSegmentRenderStyle segment currentFloor) <> 1%Q
      <-> CorridorSegment.isCrossFloor segment = true
          /\ shouldRenderSegmentOnFloor segment currentFloor = false)
  /\ (forall s corridorId,
         segment ∈ getCorridorSegmentsForFloor corridorId currentFloor s ->
         RenderStyle.opacity (getSegmentRenderStyle segment currentFloor) = 1%Q).
Proof.
  unfold getSegmentRenderStyle, shouldRenderSegmentOnFloor.
  split; [destruct (CorridorSegment.isCrossFloor segment); reflexivity|]. split.
  - destruct (CorridorSegment.isCrossFloor segment); simpl.
    + destruct (_ || _); simpl; split.
      * intros H; contradiction H; reflexivity.
      * intros [_ H]; discriminate.
      * intros _; split; reflexivity.
      * intros _ H; discriminate.
    + split; [intros H; contradiction H; reflexivity|intros [H _]; discriminate].
  - intros s corridorId Hin. unfold getCorridorSegmentsForFloor in Hin.
    destruct (find _ _) as [corridor|]; [|inversion Hin].
    unfold getSegmentsForFloor in Hin.
    apply list_elem_of_In, filter_In in Hin as [_ Htouch].
    unfold touchesFloor in Htouch. rewrite Htouch.
    destruct (CorridorSegment.isCrossFloor segment); reflexivity.
Qed.

(** ** The floor range of a path *)

(** X5: for a path with at least one vertex, [getCorridorFloorRange] returns
    the lowest and the highest floor among its vertices (a vertex without [z]
    counting as floor 0); for the empty path it returns [Infinity] as minimum
    and [-Infinity] as maximum. *)
Theorem getCorridorFloorRange_spec (path : list Position) :
  (path = []
   -> getCorridorFloorRange path = FloorRange.mk PosInf NegInf)
  /\ (path <> []
      -> exists lo hi,
        getCorridorFloorRange path = FloorRange.mk (Fin lo) (Fin hi)
        /\ (exists p, p ∈ path /\ z_or p 0 = lo)
        /\ (exists p, p ∈ path /\ z_or p 0 = hi)
        /\ forall p, p ∈ path -> lo <= z_or p 0 <= hi).
Proof.
  split; [intros ->; reflexivity|]. intros Hne.
  destruct (Math_min_max_spec (pathFloors path)) as (lo & hi & Hmin & Hmax & Hlo & Hhi & Hb).
  { destruct path; [congruence|discriminate]. }
  exists lo, hi. unfold getCorridorFloorRange. cbv zeta. rewrite Hmin, Hmax.
  split; [reflexivity|].
  unfold pathFloors in Hlo, Hhi, Hb.
  apply list_elem_of_fmap in Hlo as (p & -> & Hp).
  apply list_elem_of_fmap in Hhi as (q & -> & Hq).
  split; [eauto|]. split; [eauto|].
  intros r Hr. apply Hb. apply list_elem_of_fmap. eauto.
Qed.

Lemma getCorridorFloorRange_spec_witness :
  getCorridorFloorRange [] = FloorRange.mk PosInf NegInf
  /\ exists lo hi,
      getCorridorFloorRange (Corridor.path stairCorridor) = FloorRange.mk (Fin lo) (Fin hi)
      /\ forall p, p ∈ Corridor.path stairCorridor -> lo <= z_or p 0 <= hi.
Proof.
  split.
  - apply (getCorridorFloorRange_spec []). reflexivity.
  - destruct (getCorridorFloorRange_spec (Corridor.path stairCorridor)) as [_ H].
    destruct H as (lo & hi & Hr & _ & _ & Hb); [discriminate|].
    exists lo, hi. split; [exact Hr|exact Hb].
Defined.

(** ** The errors of [validateCorridorPath] *)

Lemma missingZ_iff path :
  missingZ path = true <-> exists p, p ∈ path /\ Position.z p = None.
Proof.
  unfold missingZ. rewrite existsb_exists. split.
  - intros (p & Hin & Hz). exists p.
    split; [apply list_elem_of_In, Hin|apply bool_decide_eq_true in Hz; exact Hz].
  - intros (p & Hin & Hz). exists p.
    split; [apply list_elem_of_In, Hin|apply bool_decide_eq_true, Hz].
Qed.

(** X6: [validateCorridorPath] reports that the path has fewer than two
    vertices, that a vertex has no [z], and that two vertices lie more than
    five floors apart, each exactly when it is the case and in this order,
    and it accepts the path exactly when it reports nothing; the empty path
    gets the first error alone. *)
Theorem validateCorridorPath_errors (path : list Position) :
  let errors := Validation.errors (validateCorridorPath path) in
  sublist errors [err_too_few; err_missing_z; err_too_many_floors]
  /\ (err_too_few ∈ errors <-> (length path < 2)%nat)
  /\ (err_missing_z ∈ errors <-> exists p, p ∈ path /\ Position.z p = None)
  /\ (err_too_many_floors ∈ errors
      <-> exists a b, a ∈ pathFloors path /\ b ∈ pathFloors path /\ 5 < b - a)
  /\ (Validation.isValid (validateCorridorPath path) = true <-> errors = [])
  /\ validateCorridorPath [] = Validation.mk false [err_too_few].
Proof.
  cbv zeta. rewrite <- missingZ_iff, <- spanTooLarge_iff, <- Nat.ltb_lt.
  unfold validateCorridorPath. cbv zeta. simpl Validation.errors. simpl Validation.isValid.
  rewrite bool_decide_eq_true.
  split; [|split; [|split; [|split; [|split; [reflexivity|reflexivity]]]]];
    destruct (length path <? 2)%nat, (missingZ path), (spanTooLarge path); simpl;
    try (repeat constructor; fail);
    try (split; [reflexivity|intros _; apply (bool_decide_unpack _); vm_compute; exact I]);
    try (split; [intros H; apply (bool_decide_pack _) in H; vm_compute in H; destruct H
                |discriminate]).
Qed.

(** ** More on the sequencer *)

(** The shape of what the sequencer returns, on any store: the items visited
    from the start nodes, then the unvisited items in their old order. *)
Lemma reorderedSequenceOf_shape s fuel l :
  reorderedSequenceOf fuel s = Some l ->
  exists items,
    NoDup (ids items)
    /\ Forall (fun it => find (hasItemId (PathSequenceItem.id it)) (Store.pathSequence s)
                         = Some it) items
    /\ l = renumber
             (items ++ filter (fun it => PathSequenceItem.id it
                                         ∉ (list_to_set (ids items) : gset string))
                         (Store.pathSequence s)).
Proof.
  intros Hrun. unfold reorderedSequenceOf in Hrun.
  destruct (processStartNodes _ _ _ _ _) as [[order st]|] eqn:Hstart; [|done].
  apply processStartNodes_inv in Hstart; [|apply SeqInv_init].
  destruct Hstart as (items & Hre & Hord & Hndi & Hset & Hall). simpl in *.
  inversion Hrun as [Hl]. rewrite Hre, Hord, addRemaining_spec, Hset.
  exists items. done.
Qed.

Lemma reorderedSequenceOf_ids s fuel l :
  reorderedSequenceOf fuel s = Some l ->
  forall x, x ∈ ids l <-> x ∈ ids (Store.pathSequence s).
Proof.
  intros Hrun x.
  destruct (reorderedSequenceOf_shape _ _ _ Hrun) as (items & _ & Hall & ->).
  rewrite renumber_ids, fmap_app, elem_of_app. split.
  - intros [Hx|Hx].
    + apply list_elem_of_fmap in Hx as (it & -> & Hit).
      rewrite Forall_forall in Hall. apply Hall in Hit.
      apply find_hasItemId_Some in Hit as [Hin _].
      apply list_elem_of_fmap. eauto.
    + apply list_elem_of_fmap in Hx as (it & -> & Hit).
      apply list_elem_of_filter in Hit as [_ Hin].
      apply list_elem_of_fmap. eauto.
  - intros Hx.
    destruct (decide (x ∈ ids items)) as [Hin|Hnot]; [left; exact Hin|right].
    apply list_elem_of_fmap in Hx as (it & -> & Hit).
    apply list_elem_of_fmap. exists it. split; [reflexivity|].
    apply list_elem_of_filter. split; [|exact Hit].
    rewrite elem_of_list_to_set. exact Hnot.
Qed.

Lemma NoDup_ids_items (l : list PathSequenceItem) : NoDup (ids l) -> NoDup l.
Proof. apply NoDup_fmap_1. Qed.

Lemma reorderedSequenceOf_length s fuel l :
  reorderedSequenceOf fuel s = Some l ->
  (length l <= length (Store.pathSequence s))%nat.
Proof.
  intros Hrun.
  destruct (reorderedSequenceOf_shape _ _ _ Hrun) as (items & Hnd & Hall & ->).
  rewrite renumber_length, length_app.
  set (P := list_to_set (ids items) : gset string).
  assert (Hsub : items ⊆+ filter (fun it => PathSequenceItem.id it ∈ P) (Store.pathSequence s)).
  { apply NoDup_submseteq; [apply NoDup_ids_items, Hnd|].
    intros it Hit. apply list_elem_of_filter. split.
    - unfold P. rewrite elem_of_list_to_set. apply list_elem_of_fmap. eauto.
    - rewrite Forall_forall in Hall. apply Hall in Hit.
      apply find_hasItemId_Some in Hit as [Hin _]. exact Hin. }
  apply submseteq_length in Hsub.
  pose proof (filter_app_complement (fun it => PathSequenceItem.id it ∈ P)
                (Store.pathSequence s)) as Hperm.
  apply Permutation_length in Hperm. rewrite length_app in Hperm. lia.
Qed.

(** X7: on any store, whenever the sequencer returns, the new path sequence
    has the ids of the old one (as a set) and is not longer, its order values
    are its positions, nodes and corridors are untouched, and the edges are
    exactly the consecutive pairs of the new sequence.  It returns, for every
    large enough budget, when every [to] anchor has an item in the
    sequence. *)
Theorem reorderPathSequence_any_store (s : Store) :
  (forall fuel s',
      reorderPathSequence fuel s = Some s' ->
      Store.nodes s' = Store.nodes s
      /\ Store.corridors s' = Store.corridors s
      /\ (forall x, x ∈ ids (Store.pathSequence s') <-> x ∈ ids (Store.pathSequence s))
      /\ (length (Store.pathSequence s') <= length (Store.pathSequence s))%nat
      /\ denseOrders (Store.pathSequence s')
      /\ length (Store.edges s') = pred (length (Store.pathSequence s'))
      /\ (forall i current next,
             Store.pathSequence s' !! i = Some current ->
             Store.pathSequence s' !! S i = Some next ->
             exists e,
               Store.edges s' !! i = Some e
               /\ edgeShape e
                  = (edgeId current next, PathSequenceItem.id current,
                     PathSequenceItem.id next)))
  /\ (targetsSequenced s = true ->
      exists s', forall fuel,
          (length (Store.pathSequence s) < fuel)%nat ->
          reorderPathSequence fuel s = Some s').
Proof.
  split; [|apply reorderPathSequence_returns].
  intros fuel s' Hrun.
  destruct (reorderPathSequence_frame _ _ _ Hrun) as (Hn & Hc & _).
  destruct (reorderPathSequence_edges _ _ _ Hrun) as [Hdense Hedges].
  destruct (reorderPathSequence_sequence _ _ _ Hrun) as [Hseq _].
  split; [exact Hn|]. split; [exact Hc|].
  split; [exact (reorderedSequenceOf_ids _ _ _ Hseq)|].
  split; [exact (reorderedSequenceOf_length _ _ _ Hseq)|].
  split; [exact Hdense|].
  split; [rewrite Hedges; apply edgesOfSequence_length|].
  intros i current next Hi HSi. exists (newEdge (Store.edges s) current next).
  split; [|reflexivity].
  rewrite Hedges. apply edgesOfSequence_lookup; assumption.
Qed.

Lemma reorderPathSequence_any_store_witness :
  exists s',
    reorderPathSequence 5 duplicateStore = Some s'
    /\ (forall x, x ∈ ids (Store.pathSequence s')
                  <-> x ∈ ids (Store.pathSequence duplicateStore))
    /\ (length (Store.pathSequence s') <= length (Store.pathSequence duplicateStore))%nat
    /\ denseOrders (Store.pathSequence s')
    /\ length (Store.edges s') = pred (length (Store.pathSequence s')).
Proof.
  eexists. split; [vm_compute; reflexivity|].
  destruct (reorderPathSequence_any_store duplicateStore) as [H _].
  edestruct (H 5%nat) as (_ & _ & Hids & Hlen & Hdense & Hedges & _);
    [vm_compute; reflexivity|].
  split; [exact Hids|]. split; [exact Hlen|]. split; [exact Hdense|exact Hedges].
Defined.

(** X8: when no node of the store is a start node (every node has an incoming
    corridor and none is an entrance; a store without nodes included), the
    sequencer returns at once, with any budget, and only renumbers the path
    sequence in the order it had. *)
Theorem reorderPathSequence_no_start_node (s : Store) (fuel : nat) :
  (forall node, node ∈ Store.nodes s -> isStartNode s node = false) ->
  reorderPathSequence fuel s
  = Some (regenerateEdges (set_pathSequence (renumber (Store.pathSequence s)) s)).
Proof.
  intros Hnone.
  assert (Hfilter : List.filter (isStartNode s) (Store.nodes s) = []).
  { induction (Store.nodes s) as [|n l IH]; [reflexivity|]. simpl.
    rewrite (Hnone n) by apply list_elem_of_here.
    apply IH. intros node Hin. apply Hnone, list_elem_of_further, Hin. }
  unfold reorderPathSequence, reorderedSequenceOf. rewrite Hfilter. simpl.
  change (@nil PathSequenceItem) with (renumber []) at 1.
  change 0 with (Z.of_nat (length (@nil PathSequenceItem))).
  rewrite addRemaining_spec. simpl.
  replace (filter (fun it => PathSequenceItem.id it ∉ (∅ : gset string)) (Store.pathSequence s))
    with (Store.pathSequence s); [reflexivity|].
  induction (Store.pathSequence s) as [|it l IH]; [reflexivity|].
  rewrite filter_cons_True by set_solver. f_equal. exact IH.
Qed.

Lemma reorderPathSequence_no_start_node_witness :
  (forall node, node ∈ Store.nodes roundaboutStore -> isStartNode roundaboutStore node = false)
  /\ exists s',
      reorderPathSequence 0 roundaboutStore = Some s'
      /\ Store.pathSequence s'
         = [PathSequenceItem.mk "CS2" item_corridor 0;
            PathSequenceItem.mk "DP2" item_node 1;
            PathSequenceItem.mk "CS1" item_corridor 2;
            PathSequenceItem.mk "DP1" item_node 3].
Proof.
  assert (H : forall node, node ∈ Store.nodes roundaboutStore ->
                           isStartNode roundaboutStore node = false).
  { intros node Hin. simpl in Hin.
    apply elem_of_cons in Hin as [->|Hin]; [vm_compute; reflexivity|].
    apply list_elem_of_singleton in Hin as ->. vm_compute; reflexivity. }
  split; [exact H|].
  eexists. split; [apply (reorderPathSequence_no_start_node roundaboutStore 0 H)|].
  vm_compute; reflexivity.
Defined.

(** *** Running the sequencer twice *)

Lemma with_order_key a b order : itemKey a = itemKey b -> with_order a order = with_order b order.
Proof. unfold itemKey, with_order. intros [= -> ->]. reflexivity. Qed.

Lemma addItemToSequence_sameItems s1 s2 itemId order st :
  sameItems s1 s2 ->
  addItemToSequence s1 itemId order st = addItemToSequence s2 itemId order st.
Proof.
  intros Hsame. unfold addItemToSequence.
  destruct (bool_decide _); [reflexivity|].
  specialize (Hsame itemId).
  destruct (find _ (Store.pathSequence s1)) as [a|], (find _ (Store.pathSequence s2)) as [b|];
    simpl in Hsame; try discriminate; [|reflexivity].
  assert (Hkey : itemKey a = itemKey b) by congruence.
  rewrite (with_order_key a b order Hkey). reflexivity.
Qed.

Lemma processCorridors_sameItems f g s1 s2 cs :
  sameItems s1 s2 ->
  (forall nodeId order st, f nodeId order st = g nodeId order st) ->
  forall order st,
    processCorridors f s1 cs order st = processCorridors g s2 cs order st.
Proof.
  intros Hsame Hfg. induction cs as [|c cs IH]; intros order st; [reflexivity|].
  cbn [processCorridors]. rewrite (addItemToSequence_sameItems s1 s2) by exact Hsame.
  destruct (addItemToSequence s2 (Corridor.id c) order st) as [order1 st1].
  destruct (Corridor.to c) as [target|].
  - destruct (_ && _).
    + rewrite Hfg. destruct (g target order1 st1) as [[order2 st2]|]; [apply IH|reflexivity].
    + apply IH.
  - apply IH.
Qed.

Lemma processPath_sameItems fuel s1 s2 :
  sameItems s1 s2 -> Store.corridors s1 = Store.corridors s2 ->
  forall nodeId order st,
    processPath fuel s1 nodeId order st = processPath fuel s2 nodeId order st.
Proof.
  intros Hsame Hc. induction fuel as [|fuel IH]; intros nodeId order st; [reflexivity|].
  cbn [processPath]. rewrite (addItemToSequence_sameItems s1 s2) by exact Hsame.
  destruct (addItemToSequence s2 nodeId order st) as [order1 st1].
  rewrite Hc. apply processCorridors_sameItems; assumption.
Qed.

Lemma processStartNodes_sameItems fuel s1 s2 startNodes :
  sameItems s1 s2 -> Store.corridors s1 = Store.corridors s2 ->
  forall order st,
    processStartNodes fuel s1 startNodes order st
    = processStartNodes fuel s2 startNodes order st.
Proof.
  intros Hsame Hc. induction startNodes as [|n l IH]; intros order st; [reflexivity|].
  cbn [processStartNodes]. destruct (bool_decide _); [apply IH|].
  rewrite (processPath_sameItems fuel s1 s2 Hsame Hc).
  destruct (processPath fuel s2 (Node.id n) order st) as [[order1 st1]|]; [apply IH|reflexivity].
Qed.

Lemma find_app_first {A} (p : A -> bool) l1 l2 :
  find p (l1 ++ l2) = match find p l1 with Some a => Some a | None => find p l2 end.
Proof. induction l1 as [|a l1 IH]; [reflexivity|]. simpl. destruct (p a); [reflexivity|exact IH]. Qed.

Lemma find_hasItemId_absent itemId l : itemId ∉ ids l -> find (hasItemId itemId) l = None.
Proof.
  induction l as [|a l IH]; [reflexivity|]. intros Hnot. simpl. unfold hasItemId at 1.
  rewrite bool_decide_eq_false_2.
  - apply IH. intros Hin. apply Hnot. simpl. apply list_elem_of_further, Hin.
  - intros Heq. apply Hnot. simpl. rewrite Heq. apply list_elem_of_here.
Qed.

Lemma find_imap_key (g : nat -> Z) itemId l :
  option_map itemKey (find (hasItemId itemId) (imap (fun i it => with_order it (g i)) l))
  = option_map itemKey (find (hasItemId itemId) l).
Proof.
  revert g. induction l as [|a l IH]; intros g; [reflexivity|]. simpl.
  unfold hasItemId at 1 3. simpl.
  destruct (bool_decide (PathSequenceItem.id a = itemId)); [reflexivity|].
  apply (IH (fun i => g (S i))).
Qed.

Lemma find_filter_unprocessed (P : gset string) itemId l :
  itemId ∉ P ->
  find (hasItemId itemId) (filter (fun it => PathSequenceItem.id it ∉ P) l)
  = find (hasItemId itemId) l.
Proof.
  intros Hnot. induction l as [|a l IH]; [reflexivity|].
  destruct (decide (PathSequenceItem.id a = itemId)) as [Heq|Hne].
  - rewrite filter_cons_True by (rewrite Heq; exact Hnot). simpl.
    unfold hasItemId. rewrite bool_decide_eq_true_2 by exact Heq. reflexivity.
  - assert (Hhead : hasItemId itemId a = false)
      by (unfold hasItemId; apply bool_decide_eq_false_2; exact Hne).
    destruct (decide (PathSequenceItem.id a ∉ P)) as [Hin|Hin].
    + rewrite filter_cons_True by exact Hin. simpl. rewrite Hhead. exact IH.
    + rewrite filter_cons_False by exact Hin. simpl. rewrite Hhead. exact IH.
Qed.

Lemma imap_keys_ext (g : nat -> Z) l1 l2 :
  map itemKey l1 = map itemKey l2 ->
  imap (fun i it => with_order it (g i)) l1 = imap (fun i it => with_order it (g i)) l2.
Proof.
  revert g l2. induction l1 as [|a l1 IH]; intros g [|b l2] Hkeys; try discriminate;
    [reflexivity|].
  simpl in Hkeys.
  assert (Hab : itemKey a = itemKey b) by congruence.
  assert (Hrest : map itemKey l1 = map itemKey l2) by congruence.
  simpl. rewrite (with_order_key a b _ Hab). f_equal.
  apply (IH (fun i => g (S i))). exact Hrest.
Qed.

Lemma filter_imap_keys (P : gset string) (g : nat -> Z) l :
  map itemKey (filter (fun it => PathSequenceItem.id it ∉ P)
                 (imap (fun i it => with_order it (g i)) l))
  = map itemKey (filter (fun it => PathSequenceItem.id it ∉ P) l).
Proof.
  revert g. induction l as [|a l IH]; intros g; [reflexivity|]. simpl.
  destruct (decide (PathSequenceItem.id a ∉ P)) as [Hin|Hin].
  - rewrite !filter_cons_True by exact Hin. simpl. f_equal. apply (IH (fun i => g (S i))).
  - rewrite !filter_cons_False by exact Hin. apply (IH (fun i => g (S i))).
Qed.

Lemma filter_unprocessed_visited (items : list PathSequenceItem) rest :
  filter (fun it => PathSequenceItem.id it ∉ (list_to_set (ids items) : gset string))
    (items ++ filter (fun it => PathSequenceItem.id it
                                ∉ (list_to_set (ids items) : gset string)) rest)
  = filter (fun it => PathSequenceItem.id it ∉ (list_to_set (ids items) : gset string)) rest.
Proof.
  set (P := list_to_set (ids items) : gset string).
  rewrite filter_app.
  assert (Hnone : filter (fun it => PathSequenceItem.id it ∉ P) items = []).
  { assert (Hall : forall it, it ∈ items -> PathSequenceItem.id it ∈ P).
    { intros it Hit. unfold P. rewrite elem_of_list_to_set. apply list_elem_of_fmap. eauto. }
    clearbody P. induction items as [|a l IH]; [reflexivity|].
    rewrite filter_cons_False.
    - apply IH. intros it Hit. apply Hall, list_elem_of_further, Hit.
    - intros Hnot. apply Hnot, Hall, list_elem_of_here. }
  rewrite Hnone. simpl.
  induction rest as [|a l IH]; [reflexivity|].
  destruct (decide (PathSequenceItem.id a ∉ P)) as [Hin|Hin].
  - rewrite filter_cons_True by exact Hin. rewrite filter_cons_True by exact Hin.
    f_equal. exact IH.
  - rewrite filter_cons_False by exact Hin. exact IH.
Qed.

Lemma regenerateEdges_again_distinct s :
  NoDup (map Edge.id (Store.edges (regenerateEdges s))) ->
  regenerateEdges (regenerateEdges s) = regenerateEdges s.
Proof.
  intros Hnd. unfold regenerateEdges at 1. simpl.
  unfold regenerateEdges at 2. unfold set_edges. simpl. f_equal.
  apply edgesOfSequence_again; [exact Hnd|]. intros e He. exact He.
Qed.

Lemma reorderedSequenceOf_again s fuel l :
  reorderedSequenceOf fuel s = Some l ->
  reorderedSequenceOf fuel (set_pathSequence l s) = Some l.
Proof.
  intros Hrun. unfold reorderedSequenceOf in Hrun.
  destruct (processStartNodes fuel s _ _ _) as [[order st]|] eqn:Hstart; [|done].
  pose proof (processStartNodes_inv s fuel _ _ _ _ (SeqInv_init s) Hstart)
    as (items & Hre & Hord & Hndi & Hset & Hall).
  simpl in Hre, Hord, Hset.
  rewrite Hre, Hord, addRemaining_spec, Hset in Hrun. injection Hrun as Hl.
  set (P := list_to_set (ids items) : gset string) in *.
  assert (Hsame : sameItems (set_pathSequence l s) s).
  { intros x. simpl. rewrite <- Hl. unfold renumber. rewrite find_imap_key, find_app_first.
    destruct (decide (x ∈ ids items)) as [Hin|Hnot].
    - apply list_elem_of_fmap in Hin as (it & -> & Hit).
      rewrite (find_hasItemId_unique items it Hndi Hit).
      rewrite Forall_forall in Hall. rewrite (Hall it Hit). reflexivity.
    - rewrite (find_hasItemId_absent x items Hnot).
      rewrite find_filter_unprocessed; [reflexivity|].
      unfold P. rewrite elem_of_list_to_set. exact Hnot. }
  unfold reorderedSequenceOf.
  change (Store.nodes (set_pathSequence l s)) with (Store.nodes s).
  change (isStartNode (set_pathSequence l s)) with (isStartNode s).
  rewrite (processStartNodes_sameItems fuel _ s _ Hsame eq_refl), Hstart.
  f_equal. simpl. rewrite Hre, Hord, addRemaining_spec, Hset. fold P.
  rewrite <- Hl at 2. unfold renumber. apply imap_keys_ext.
  rewrite !fmap_app. f_equal.
  rewrite <- Hl. unfold renumber. rewrite filter_imap_keys.
  unfold P. rewrite filter_unprocessed_visited. reflexivity.
Qed.

Lemma reorderedSequenceOf_edges fuel edges s :
  reorderedSequenceOf fuel (set_edges edges s) = reorderedSequenceOf fuel s.
Proof.
  unfold reorderedSequenceOf.
  change (Store.nodes (set_edges edges s)) with (Store.nodes s).
  change (isStartNode (set_edges edges s)) with (isStartNode s).
  rewrite (processStartNodes_sameItems fuel (set_edges edges s) s);
    [reflexivity|intros x; reflexivity|reflexivity].
Qed.

(** A second run of the sequencer regenerates the edges and nothing else. *)
Lemma reorderPathSequence_again fuel s s1 :
  reorderPathSequence fuel s = Some s1 ->
  reorderPathSequence fuel s1 = Some (regenerateEdges s1).
Proof.
  intros Hrun. unfold reorderPathSequence in Hrun.
  destruct (reorderedSequenceOf fuel s) as [l|] eqn:Hseq; [|discriminate].
  injection Hrun as <-.
  unfold reorderPathSequence. unfold regenerateEdges at 1.
  rewrite reorderedSequenceOf_edges, (reorderedSequenceOf_again _ _ _ Hseq). reflexivity.
Qed.

(** A store that the sequencer left with distinct edge ids is a fixed point
    of the sequencer. *)
Lemma reorderPathSequence_settled fuel s s1 :
  reorderPathSequence fuel s = Some s1 ->
  NoDup (map Edge.id (Store.edges s1)) ->
  reorderPathSequence fuel s1 = Some s1.
Proof.
  intros Hrun Hnd. rewrite (reorderPathSequence_again _ _ _ Hrun). f_equal.
  unfold reorderPathSequence in Hrun.
  destruct (reorderedSequenceOf fuel s) as [l|]; [|discriminate].
  injection Hrun as <-. apply regenerateEdges_again_distinct, Hnd.
Qed.

(** X9: running the sequencer a second time, with the same budget, returns
    and leaves the path sequence as the first run made it, on any store; the
    second run only regenerates the edges, and it leaves the whole store
    unchanged when the ids of the edges are pairwise distinct. *)
Theorem reorderPathSequence_twice (fuel : nat) (s s1 : Store) :
  reorderPathSequence fuel s = Some s1 ->
  reorderPathSequence fuel s1 = Some (regenerateEdges s1)
  /\ Store.pathSequence (regenerateEdges s1) = Store.pathSequence s1
  /\ (NoDup (map Edge.id (Store.edges s1)) -> reorderPathSequence fuel s1 = Some s1).
Proof.
  intros Hrun. split; [exact (reorderPathSequence_again _ _ _ Hrun)|].
  split; [reflexivity|]. apply (reorderPathSequence_settled _ _ _ Hrun).
Qed.

Lemma reorderPathSequence_twice_witness :
  exists s1,
    reorderPathSequence 6 cycleStore = Some s1
    /\ NoDup (map Edge.id (Store.edges s1))
    /\ reorderPathSequence 6 s1 = Some s1.
Proof.
  eexists. split; [vm_compute; reflexivity|].
  assert (Hnd : NoDup (map Edge.id (Store.edges (regenerateEdges
            (set_pathSequence
               [PathSequenceItem.mk "E1" item_node 0; PathSequenceItem.mk "CS1" item_corridor 1;
                PathSequenceItem.mk "DP1" item_node 2; PathSequenceItem.mk "CS2" item_corridor 3;
                PathSequenceItem.mk "ghost" item_node 4] cycleStore))))).
  { apply (bool_decide_unpack _). vm_compute. exact I. }
  split; [exact Hnd|].
  refine (proj2 (proj2 (reorderPathSequence_twice 6 cycleStore _ _)) Hnd).
  vm_compute; reflexivity.
Defined.

(** *** Where the journey starts *)

Lemma addItemToSequence_appends s itemId order st :
  exists suffix,
    SeqState.reorderedSequence (addItemToSequence s itemId order st).2
    = SeqState.reorderedSequence st ++ suffix.
Proof.
  unfold addItemToSequence. destruct (bool_decide _).
  - exists []. simpl. by rewrite app_nil_r.
  - destruct (find _ _).
    + eexists. reflexivity.
    + exists []. simpl. by rewrite app_nil_r.
Qed.

Lemma processCorridors_appends recurse s cs :
  appendsOnly recurse ->
  forall order st r,
    processCorridors recurse s cs order st = Some r ->
    exists suffix, SeqState.reorderedSequence r.2 = SeqState.reorderedSequence st ++ suffix.
Proof.
  intros Hrec. induction cs as [|c cs IH]; intros order st r Hrun.
  - injection Hrun as <-. exists []. simpl. by rewrite app_nil_r.
  - cbn [processCorridors] in Hrun.
    destruct (addItemToSequence_appends s (Corridor.id c) order st) as [suffix1 H1].
    destruct (addItemToSequence s (Corridor.id c) order st) as [order1 st1]. simpl in H1.
    assert (Hcont : forall o2 st2,
               (exists suffix, SeqState.reorderedSequence st2
                               = SeqState.reorderedSequence st1 ++ suffix) ->
               processCorridors recurse s cs o2 st2 = Some r ->
               exists suffix, SeqState.reorderedSequence r.2
                              = SeqState.reorderedSequence st ++ suffix).
    { intros o2 st2 [suffix2 H2] Hrest. apply IH in Hrest as [suffix3 H3].
      exists (suffix1 ++ suffix2 ++ suffix3). rewrite H3, H2, H1. by rewrite !app_assoc. }
    destruct (Corridor.to c) as [target|].
    + destruct (_ && _).
      * destruct (recurse target order1 st1) as [[o2 st2]|] eqn:Hr; [|discriminate].
        apply (Hcont o2 st2); [|exact Hrun]. apply Hrec in Hr. exact Hr.
      * apply (Hcont order1 st1); [|exact Hrun]. exists []. by rewrite app_nil_r.
    + apply (Hcont order1 st1); [|exact Hrun]. exists []. by rewrite app_nil_r.
Qed.

Lemma processPath_appends fuel s : appendsOnly (processPath fuel s).
Proof.
  induction fuel as [|fuel IH]; intros nodeId order st r Hrun; [discriminate|].
  cbn [processPath] in Hrun.
  destruct (addItemToSequence_appends s nodeId order st) as [suffix1 H1].
  destruct (addItemToSequence s nodeId order st) as [order1 st1]. simpl in H1.
  apply (processCorridors_appends _ _ _ IH) in Hrun as [suffix2 H2].
  exists (suffix1 ++ suffix2). rewrite H2, H1. by rewrite app_assoc.
Qed.

Lemma processStartNodes_appends fuel s startNodes :
  forall order st r,
    processStartNodes fuel s startNodes order st = Some r ->
    exists suffix, SeqState.reorderedSequence r.2 = SeqState.reorderedSequence st ++ suffix.
Proof.
  induction startNodes as [|n l IH]; intros order st r Hrun.
  - injection Hrun as <-. exists []. simpl. by rewrite app_nil_r.
  - cbn [processStartNodes] in Hrun. destruct (bool_decide _); [by apply IH in Hrun|].
    destruct (processPath fuel s (Node.id n) order st) as [[o1 st1]|] eqn:Hp; [|discriminate].
    apply processPath_appends in Hp as [suffix1 H1]. simpl in H1.
    apply IH in Hrun as [suffix2 H2].
    exists (suffix1 ++ suffix2). rewrite H2, H1. by rewrite app_assoc.
Qed.

(** X10: whenever the sequencer returns, the new path sequence begins with the
    item of the first start node in the order of the node array (an entrance,
    or a node without incoming corridor), at order 0, provided that node has
    an item in the path sequence. *)
Theorem reorderPathSequence_starts_at_first_start_node (fuel : nat) (s s' : Store)
    (startNode : Node) (others : list Node) (item : PathSequenceItem) :
  List.filter (isStartNode s) (Store.nodes s) = startNode :: others ->
  find (hasItemId (Node.id startNode)) (Store.pathSequence s) = Some item ->
  reorderPathSequence fuel s = Some s' ->
  head (Store.pathSequence s') = Some (with_order item 0).
Proof.
  intros Hstarts Hfind Hrun.
  apply reorderPathSequence_sequence in Hrun as [Hseq _].
  unfold reorderedSequenceOf in Hseq. rewrite Hstarts in Hseq.
  destruct (processStartNodes _ _ _ _ _) as [[order st]|] eqn:Hstart; [|discriminate].
  injection Hseq as Hseq.
  pose proof (processStartNodes_inv s fuel _ _ _ _ (SeqInv_init s) Hstart)
    as (items & Hre & Hord & _ & Hset & _).
  simpl in Hre, Hord, Hset.
  rewrite Hre, Hord, addRemaining_spec in Hseq.
  assert (Hhead : exists suffix,
             SeqState.reorderedSequence st = with_order item 0 :: suffix).
  { cbn [processStartNodes] in Hstart.
    rewrite bool_decide_eq_false_2 in Hstart by set_solver.
    destruct fuel as [|fuel]; [discriminate|]. cbn [processPath] in Hstart.
    rewrite (addItemToSequence_fresh s _ item Hfind) in Hstart by set_solver.
    destruct (processCorridors _ _ _ _ _) as [[o1 st1]|] eqn:Hc; [|discriminate].
    apply (processCorridors_appends _ _ _ (processPath_appends fuel s)) in Hc as [suffix1 H1].
    apply processStartNodes_appends in Hstart as [suffix2 H2]. simpl in H1, H2.
    exists (suffix1 ++ suffix2). rewrite H2, H1. reflexivity. }
  destruct Hhead as [suffix Hhead]. rewrite Hre in Hhead.
  destruct items as [|first items]; [discriminate|].
  rewrite <- Hseq. unfold renumber in *. simpl. simpl in Hhead. congruence.
Qed.

Lemma reorderPathSequence_starts_at_first_start_node_witness :
  exists s',
    reorderPathSequence 6 cycleStore = Some s'
    /\ head (Store.pathSequence s') = Some (PathSequenceItem.mk "E1" item_node 0).
Proof.
  eexists. split; [vm_compute; reflexivity|].
  apply (reorderPathSequence_starts_at_first_start_node 6 cycleStore _
           (exampleNode "E1" EntranceExit) [] (PathSequenceItem.mk "E1" item_node 4));
    vm_compute; reflexivity.
Defined.

(** ** Edges stay attached under actions that keep the ids *)

Lemma reorderPathSequence_covered fuel s s' :
  reorderPathSequence fuel s = Some s' ->
  sequenceCovered s -> sequenceCovered s' /\ noDanglingEdges s'.
Proof.
  intros Hrun Hcov.
  destruct (reorderPathSequence_frame _ _ _ Hrun) as (Hn & Hc & _).
  destruct (reorderPathSequence_sequence _ _ _ Hrun) as [Hseq _].
  assert (Hcov' : sequenceCovered s').
  { intros x Hx. apply (reorderedSequenceOf_ids _ _ _ Hseq) in Hx.
    unfold elementIds. rewrite Hn, Hc. apply Hcov, Hx. }
  split; [exact Hcov'|].
  intros e He. destruct (reorderPathSequence_edges_within _ _ _ _ Hrun He) as [Hf Ht].
  split; apply Hcov'; assumption.
Qed.

Lemma updateNode_one_id id updates node :
  NodeUpdate.id updates = None -> Node.id (updateNode_one id updates node) = Node.id node.
Proof.
  intros Hid. unfold updateNode_one. destruct (bool_decide _); [|reflexivity].
  destruct (NodeUpdate.position updates); simpl; rewrite Hid; reflexivity.
Qed.

Lemma updateCorridor_one_id id updates corridor :
  CorridorUpdate.id updates = None ->
  Corridor.id (updateCorridor_one id updates corridor) = Corridor.id corridor.
Proof.
  intros Hid. unfold updateCorridor_one. destruct (bool_decide _); [|reflexivity].
  destruct (CorridorUpdate.path updates); simpl; rewrite Hid; reflexivity.
Qed.

Lemma filter_unanchored id (l : list Corridor) :
  existsb (anchoredAt id) l = false ->
  List.filter
    (fun corridor =>
       negb (bool_decide (Corridor.from corridor = Some id))
       && negb (bool_decide (Corridor.to corridor = Some id))) l
  = l.
Proof.
  induction l as [|c l IH]; [reflexivity|]. simpl. intros H.
  apply orb_false_iff in H as [Hc Hl]. unfold anchoredAt in Hc.
  apply orb_false_iff in Hc as [-> ->]. simpl. f_equal. apply IH, Hl.
Qed.

Lemma ids_filter_renumber id (l : list PathSequenceItem) x :
  x ∈ ids (renumber (List.filter (fun item => negb (hasItemId id item)) l))
  <-> x ∈ ids l /\ x <> id.
Proof.
  rewrite renumber_ids. split.
  - intros Hx. apply list_elem_of_fmap in Hx as (it & -> & Hit).
    apply list_elem_of_In, filter_In in Hit as [Hin Hne].
    apply negb_true_iff, bool_decide_eq_false in Hne.
    split; [|exact Hne]. apply list_elem_of_fmap. exists it.
    split; [reflexivity|apply list_elem_of_In, Hin].
  - intros [Hx Hne]. apply list_elem_of_fmap in Hx as (it & -> & Hit).
    apply list_elem_of_fmap. exists it. split; [reflexivity|].
    apply list_elem_of_In, filter_In. split; [apply list_elem_of_In, Hit|].
    apply negb_true_iff, bool_decide_eq_false. exact Hne.
Qed.

Lemma addNode_set_covered node s : sequenceCovered s -> sequenceCovered (addNode_set node s).
Proof.
  intros Hcov x Hx. unfold addNode_set, elementIds in *. simpl in *.
  rewrite fmap_app in Hx. rewrite fmap_app. simpl in *.
  apply elem_of_app in Hx as [Hx|Hx].
  - apply Hcov, elem_of_app in Hx as [Hx|Hx]; set_solver.
  - set_solver.
Qed.

Lemma addCorridor_set_covered corridor s :
  sequenceCovered s -> sequenceCovered (addCorridor_set corridor s).
Proof.
  intros Hcov x Hx. unfold addCorridor_set, elementIds in *. simpl in *.
  rewrite fmap_app in Hx. rewrite fmap_app. simpl in *.
  apply elem_of_app in Hx as [Hx|Hx].
  - apply Hcov, elem_of_app in Hx as [Hx|Hx]; set_solver.
  - set_solver.
Qed.

Lemma updateNode_set_covered id updates s :
  NodeUpdate.id updates = None ->
  sequenceCovered s -> sequenceCovered (updateNode_set id updates s).
Proof.
  intros Hid Hcov x Hx. unfold updateNode_set, elementIds in *. simpl in *.
  rewrite map_map. rewrite (map_ext _ Node.id); [apply Hcov, Hx|].
  intros node. apply updateNode_one_id, Hid.
Qed.

Lemma updateCorridor_set_covered id updates s :
  CorridorUpdate.id updates = None ->
  sequenceCovered s -> sequenceCovered (updateCorridor_set id updates s).
Proof.
  intros Hid Hcov x Hx. unfold updateCorridor_set, elementIds in *. simpl in *.
  rewrite map_map. rewrite (map_ext _ Corridor.id); [apply Hcov, Hx|].
  intros c. apply updateCorridor_one_id, Hid.
Qed.

Lemma deleteCorridor_set_covered id s :
  sequenceCovered s -> sequenceCovered (deleteCorridor_set id s).
Proof.
  intros Hcov x Hx. unfold deleteCorridor_set in Hx. simpl in Hx.
  apply ids_filter_renumber in Hx as [Hx Hne].
  apply Hcov in Hx. unfold elementIds, deleteCorridor_set in *. simpl.
  apply elem_of_app in Hx as [Hx|Hx]; apply elem_of_app; [left; exact Hx|right].
  apply list_elem_of_fmap in Hx as (c & -> & Hc).
  apply list_elem_of_fmap. exists c. split; [reflexivity|].
  apply list_elem_of_In, filter_In. split; [apply list_elem_of_In, Hc|].
  apply negb_true_iff, bool_decide_eq_false. exact Hne.
Qed.

Lemma deleteNode_set_covered id s :
  existsb (anchoredAt id) (Store.corridors s) = false ->
  sequenceCovered s -> sequenceCovered (deleteNode_set id s).
Proof.
  intros Hfree Hcov x Hx. unfold deleteNode_set in Hx. simpl in Hx.
  apply ids_filter_renumber in Hx as [Hx Hne].
  apply Hcov in Hx. unfold elementIds, deleteNode_set in *. simpl.
  apply elem_of_app in Hx as [Hx|Hx]; apply elem_of_app; [left|right].
  - apply list_elem_of_fmap in Hx as (n & -> & Hn).
    apply list_elem_of_fmap. exists n. split; [reflexivity|].
    apply list_elem_of_In, filter_In. split; [apply list_elem_of_In, Hn|].
    apply negb_true_iff, bool_decide_eq_false. exact Hne.
  - rewrite filter_unanchored by exact Hfree. exact Hx.
Qed.

Lemma moveNode_ids id position s : elementIds (moveNode id position s) = elementIds s.
Proof.
  unfold moveNode, elementIds. simpl. f_equal. rewrite map_map. apply map_ext.
  intros node. destruct (bool_decide _); reflexivity.
Qed.

Lemma step_keeps_edges_attached fuel a s s' :
  keepsIds s a = true ->
  sequenceCovered s -> noDanglingEdges s ->
  step fuel a s = Some s' ->
  sequenceCovered s' /\ noDanglingEdges s'.
Proof.
  intros Hkeeps Hcov Hedges Hstep. destruct a; simpl in Hkeeps, Hstep.
  - apply (reorderPathSequence_covered _ _ _ Hstep), addNode_set_covered, Hcov.
  - apply bool_decide_eq_true in Hkeeps.
    apply (reorderPathSequence_covered _ _ _ Hstep), updateNode_set_covered; assumption.
  - apply negb_true_iff in Hkeeps.
    apply (reorderPathSequence_covered _ _ _ Hstep), deleteNode_set_covered; assumption.
  - injection Hstep as <-. split.
    + intros x Hx. rewrite moveNode_ids. apply Hcov, Hx.
    + intros e He. rewrite moveNode_ids. apply Hedges, He.
  - apply (reorderPathSequence_covered _ _ _ Hstep), addCorridor_set_covered, Hcov.
  - apply bool_decide_eq_true in Hkeeps.
    apply (reorderPathSequence_covered _ _ _ Hstep), updateCorridor_set_covered; assumption.
  - unfold updateCorridorVertex in Hstep.
    destruct (find _ _) as [corridor|]; [|injection Hstep as <-; split; assumption].
    destruct (dense _) as [path|]; [|injection Hstep as <-; split; assumption].
    destruct (updateCorridor fuel corridorId (CorridorUpdate.ofPath path) s)
      as [s1|] eqn:Hupd; simpl in Hstep; [|discriminate].
    injection Hstep as <-.
    apply (reorderPathSequence_covered _ _ _ Hupd), updateCorridor_set_covered;
      [reflexivity|exact Hcov].
  - apply (reorderPathSequence_covered _ _ _ Hstep), deleteCorridor_set_covered, Hcov.
  - discriminate.
Qed.

(** ** The derived fields of the corridors *)

Lemma Forall_List_filter {A} (P : A -> Prop) (f : A -> bool) l :
  Forall P l -> Forall P (List.filter f l).
Proof.
  intros H. apply Forall_forall. intros x Hx.
  apply list_elem_of_In, filter_In in Hx as [Hx _].
  rewrite Forall_forall in H. apply H, list_elem_of_In, Hx.
Qed.

Lemma corridorWithFloor_derived s corridor : segmentsDerived (corridorWithFloor s corridor).
Proof. split; reflexivity. Qed.

Lemma updateCorridor_one_derived id updates corridor :
  keepsSegments (UpdateCorridor id updates) = true ->
  segmentsDerived corridor -> segmentsDerived (updateCorridor_one id updates corridor).
Proof.
  intros Hkeeps Hder. unfold updateCorridor_one. destruct (bool_decide _); [|exact Hder].
  destruct (CorridorUpdate.path updates) as [path|] eqn:Hpath.
  - split; simpl; [rewrite Hpath|]; reflexivity.
  - simpl in Hkeeps. rewrite Hpath in Hkeeps.
    rewrite (bool_decide_eq_false_2 (is_Some None)) in Hkeeps by (intros [? ?]; discriminate).
    simpl in Hkeeps. apply andb_true_iff in Hkeeps as [Hs Hc].
    apply bool_decide_eq_true in Hs, Hc.
    destruct Hder as [Hd1 Hd2]. split; simpl; rewrite ?Hpath, ?Hs, ?Hc; simpl; assumption.
Qed.

Lemma updateCorridor_set_derived id updates s :
  keepsSegments (UpdateCorridor id updates) = true ->
  Forall segmentsDerived (Store.corridors s) ->
  Forall segmentsDerived (Store.corridors (updateCorridor_set id updates s)).
Proof.
  intros Hkeeps Hall. unfold updateCorridor_set. simpl.
  apply Forall_fmap. eapply Forall_impl; [exact Hall|].
  intros c Hc. apply updateCorridor_one_derived; assumption.
Qed.

Lemma step_keeps_segments_derived fuel a s s' :
  keepsSegments a = true ->
  Forall segmentsDerived (Store.corridors s) ->
  step fuel a s = Some s' ->
  Forall segmentsDerived (Store.corridors s').
Proof.
  intros Hkeeps Hall Hstep. destruct a; simpl in Hstep.
  - apply reorderPathSequence_frame in Hstep as (_ & -> & _). exact Hall.
  - apply reorderPathSequence_frame in Hstep as (_ & -> & _). exact Hall.
  - apply reorderPathSequence_frame in Hstep as (_ & -> & _). simpl.
    apply Forall_List_filter, Hall.
  - injection Hstep as <-. exact Hall.
  - apply reorderPathSequence_frame in Hstep as (_ & -> & _). simpl.
    apply Forall_app. split; [exact Hall|].
    apply Forall_cons. split; [apply corridorWithFloor_derived|apply Forall_nil_2].
  - apply reorderPathSequence_frame in Hstep as (_ & -> & _).
    apply updateCorridor_set_derived; assumption.
  - unfold updateCorridorVertex in Hstep.
    destruct (find _ _) as [corridor|]; [|injection Hstep as <-; exact Hall].
    destruct (dense _) as [path|]; [|injection Hstep as <-; exact Hall].
    destruct (updateCorridor fuel corridorId (CorridorUpdate.ofPath path) s)
      as [s1|] eqn:Hupd; simpl in Hstep; [|discriminate].
    injection Hstep as <-.
    apply reorderPathSequence_frame in Hupd as (_ & -> & _).
    apply updateCorridor_set_derived; [reflexivity|exact Hall].
  - apply reorderPathSequence_frame in Hstep as (_ & -> & _). simpl.
    apply Forall_List_filter, Hall.
  - injection Hstep as <-. simpl. apply Forall_List_filter, Hall.
Qed.

(** X12: in a session of actions in which every [updateCorridor] either carries
    a path or carries neither segments nor the cross-floor flag, the derived
    fields of every stored corridor stay in step with its path: the segments
    are those of [generateCorridorSegments] on the path, and the corridor is
    flagged cross-floor exactly when one of its segments is. *)
Theorem actions_keep_segments_derived (fuel : nat) (actions : list Action) (s s' : Store) :
  forallb keepsSegments actions = true ->
  Forall segmentsDerived (Store.corridors s) ->
  run fuel actions s = Some s' ->
  Forall segmentsDerived (Store.corridors s').
Proof.
  revert s. induction actions as [|a rest IH]; intros s Hkeeps Hall Hrun.
  - injection Hrun as <-. exact Hall.
  - simpl in Hkeeps, Hrun. apply andb_true_iff in Hkeeps as [Ha Hrest].
    destruct (step fuel a s) as [s1|] eqn:Hstep; [|discriminate].
    apply (IH s1 Hrest); [|exact Hrun].
    apply (step_keeps_segments_derived fuel a s s1); assumption.
Qed.

Lemma actions_keep_segments_derived_witness :
  exists s',
    run 5 pathUpdateScenario initialStore = Some s'
    /\ map (fun c => length (Corridor.path c)) (Store.corridors s') = [3%nat]
    /\ Forall segmentsDerived (Store.corridors s').
Proof.
  eexists. split; [vm_compute; reflexivity|]. split; [reflexivity|].
  apply (actions_keep_segments_derived 5 pathUpdateScenario initialStore);
    [reflexivity|apply Forall_nil_2|vm_compute; reflexivity].
Defined.

(** ** The actions return *)

Lemma targetSequenced_iff s c :
  targetSequenced s c = true
  <-> forall target, Corridor.to c = Some target ->
                     target = "" \/ target ∈ ids (Store.pathSequence s).
Proof.
  unfold targetSequenced, seqIds. destruct (Corridor.to c) as [t|]; [|split; [|done]].
  - simpl. rewrite orb_true_iff, negb_involutive, !bool_decide_eq_true, elem_of_list_to_set.
    split; [intros H target [= <-]; exact H|intros H; apply H; reflexivity].
  - intros _ target H. discriminate.
Qed.

Lemma targetsSequenced_iff s :
  targetsSequenced s = true
  <-> forall c target, c ∈ Store.corridors s -> Corridor.to c = Some target ->
                       target = "" \/ target ∈ ids (Store.pathSequence s).
Proof.
  unfold targetsSequenced. rewrite forallb_forall. split.
  - intros H c target Hc. apply targetSequenced_iff, H, list_elem_of_In, Hc.
  - intros H c Hc. apply targetSequenced_iff. intros target.
    apply H, list_elem_of_In, Hc.
Qed.

Lemma reorderPathSequence_targets fuel s s' :
  reorderPathSequence fuel s = Some s' ->
  targetsSequenced s = true -> targetsSequenced s' = true.
Proof.
  intros Hrun. rewrite !targetsSequenced_iff.
  destruct (reorderPathSequence_frame _ _ _ Hrun) as (_ & -> & _).
  destruct (reorderPathSequence_sequence _ _ _ Hrun) as [Hseq _].
  intros H c target Hc Hto. destruct (H c target Hc Hto) as [He|Hin]; [left; exact He|right].
  apply (reorderedSequenceOf_ids _ _ _ Hseq), Hin.
Qed.

Lemma deleteNode_set_targets id s :
  targetsSequenced s = true -> targetsSequenced (deleteNode_set id s) = true.
Proof.
  rewrite !targetsSequenced_iff. intros H c target Hc Hto.
  unfold deleteNode_set in *. simpl in *.
  apply list_elem_of_In, filter_In in Hc as [Hc Hkeep].
  apply andb_true_iff in Hkeep as [_ Hne].
  apply negb_true_iff, bool_decide_eq_false in Hne.
  destruct (H c target (proj2 (list_elem_of_In _ _) Hc) Hto) as [He|Hin]; [left; exact He|right].
  apply ids_filter_renumber. split; [exact Hin|]. intros ->. apply Hne, Hto.
Qed.

Lemma deleteCorridor_set_targets id s :
  forallb (fun c => negb (bool_decide (Corridor.to c = Some id))) (Store.corridors s) = true ->
  targetsSequenced s = true -> targetsSequenced (deleteCorridor_set id s) = true.
Proof.
  rewrite forallb_forall, !targetsSequenced_iff. intros Hfree H c target Hc Hto.
  unfold deleteCorridor_set in *. simpl in *.
  apply list_elem_of_In, filter_In in Hc as [Hc _].
  specialize (Hfree c Hc). apply negb_true_iff, bool_decide_eq_false in Hfree.
  destruct (H c target (proj2 (list_elem_of_In _ _) Hc) Hto) as [He|Hin]; [left; exact He|right].
  apply ids_filter_renumber. split; [exact Hin|]. intros ->. apply Hfree, Hto.
Qed.

Lemma deleteFloor_targets floorIndex s :
  targetsSequenced s = true -> targetsSequenced (deleteFloor floorIndex s) = true.
Proof.
  rewrite !targetsSequenced_iff. intros H c target Hc Hto.
  unfold deleteFloor in Hc. simpl in Hc.
  apply list_elem_of_In, filter_In in Hc as [Hc _].
  apply (H c target (proj2 (list_elem_of_In _ _) Hc) Hto).
Qed.

Lemma addCorridor_set_targets corridor s :
  targetSequenced (addCorridor_set corridor s) corridor = true ->
  targetsSequenced s = true -> targetsSequenced (addCorridor_set corridor s) = true.
Proof.
  rewrite targetSequenced_iff, !targetsSequenced_iff. intros Hnew H c target Hc Hto.
  unfold addCorridor_set in Hc. simpl in Hc.
  apply elem_of_app in Hc as [Hc|Hc].
  - destruct (H c target Hc Hto) as [He|Hin]; [left; exact He|right].
    unfold addCorridor_set. simpl. rewrite fmap_app. apply elem_of_app. left. exact Hin.
  - apply list_elem_of_singleton in Hc as ->. apply Hnew. exact Hto.
Qed.

Lemma updateCorridor_one_target id updates c :
  Corridor.to (updateCorridor_one id updates c) = Corridor.to c
  \/ Corridor.to (updateCorridor_one id updates c) = CorridorUpdate.to updates
     /\ is_Some (CorridorUpdate.to updates).
Proof.
  unfold updateCorridor_one. destruct (bool_decide _); [|left; reflexivity].
  destruct (CorridorUpdate.path updates); simpl;
    (destruct (CorridorUpdate.to updates) as [t|]; [right; split; [reflexivity|eauto]|left; reflexivity]).
Qed.

Lemma updateCorridor_set_targets_kept id updates s :
  keepsTargets s (UpdateCorridor id updates) = true ->
  targetsSequenced s = true -> targetsSequenced (updateCorridor_set id updates s) = true.
Proof.
  intros Hkeeps. rewrite !targetsSequenced_iff. intros H c target Hc Hto.
  unfold updateCorridor_set in Hc. simpl in Hc.
  apply list_elem_of_fmap in Hc as (c0 & -> & Hc0).
  change (Store.pathSequence (updateCorridor_set id updates s)) with (Store.pathSequence s).
  destruct (updateCorridor_one_target id updates c0) as [Hsame|[Hnew _]].
  - rewrite Hsame in Hto. apply (H c0 target Hc0 Hto).
  - rewrite Hnew in Hto. simpl in Hkeeps. rewrite Hto in Hkeeps.
    apply orb_true_iff in Hkeeps as [He|Hin].
    + left. simpl in He. rewrite negb_involutive in He. apply bool_decide_eq_true in He. exact He.
    + right. apply bool_decide_eq_true in Hin. unfold seqIds in Hin.
      rewrite elem_of_list_to_set in Hin. exact Hin.
Qed.

Lemma List_filter_length {A} (f : A -> bool) l : (length (List.filter f l) <= length l)%nat.
Proof. induction l as [|a l IH]; simpl; [lia|]. destruct (f a); simpl; lia. Qed.

Lemma sequencer_action_returns (s stage : Store) :
  targetsSequenced stage = true ->
  (length (Store.pathSequence stage) <= S (length (Store.pathSequence s)))%nat ->
  exists s',
    (forall fuel, (S (length (Store.pathSequence s)) < fuel)%nat ->
                  reorderPathSequence fuel stage = Some s')
    /\ targetsSequenced s' = true
    /\ (length (Store.pathSequence s') <= S (length (Store.pathSequence s)))%nat.
Proof.
  intros Htargets Hlen.
  destruct (reorderPathSequence_returns stage Htargets) as [s' Hs'].
  assert (Hrun : reorderPathSequence (S (S (length (Store.pathSequence s)))) stage = Some s')
    by (apply Hs'; lia).
  exists s'. split; [|split].
  - intros fuel Hfuel. apply Hs'. lia.
  - apply (reorderPathSequence_targets _ stage s' Hrun Htargets).
  - destruct (reorderPathSequence_sequence _ _ _ Hrun) as [Hseq _].
    apply reorderedSequenceOf_length in Hseq. lia.
Qed.

(** Whether the assignment of a vertex leaves holes in the path. *)
Lemma assignVertex_holes path vertexIndex v :
  ((Z.of_nat (length path) <? vertexIndex) && (vertexIndex <? maxArrayLength) = true ->
   dense (assignVertex path vertexIndex v) = None)
  /\ ((Z.of_nat (length path) <? vertexIndex) && (vertexIndex <? maxArrayLength) = false ->
      is_Some (dense (assignVertex path vertexIndex v))).
Proof.
  destruct (Z.ltb_spec (Z.of_nat (length path)) vertexIndex) as [Hn|Hn];
    destruct (Z.ltb_spec vertexIndex maxArrayLength) as [Hmax|Hmax]; simpl.
  - split; [|discriminate]. intros _. apply assignVertex_beyond. lia.
  - split; [discriminate|]. intros _. rewrite assignVertex_property; [eauto|lia|exact Hmax].
  - split; [discriminate|]. intros _.
    destruct (Z.ltb_spec vertexIndex 0) as [Hneg|Hpos].
    + rewrite assignVertex_negative by exact Hneg. eauto.
    + destruct (Z.eq_dec vertexIndex (Z.of_nat (length path))) as [->|Hne].
      * rewrite assignVertex_append by exact Hmax. eauto.
      * rewrite <- (Z2Nat.id vertexIndex) by exact Hpos.
        rewrite assignVertex_inside by lia. eauto.
  - split; [discriminate|]. intros _.
    destruct (Z.eq_dec vertexIndex (Z.of_nat (length path))) as [Heq|Hne].
    + rewrite assignVertex_property; [eauto|lia|exact Hmax].
    + rewrite <- (Z2Nat.id vertexIndex) by (unfold maxArrayLength in Hmax; lia).
      rewrite assignVertex_inside by (unfold maxArrayLength in Hmax; lia). eauto.
Qed.

Lemma step_perform fuel a s :
  step fuel a s
  = match perform fuel a s with
    | Returned s' => Some s'
    | Thrown => Some s
    | OutOfFuel => None
    end.
Proof.
  destruct a; simpl; try reflexivity;
    match goal with |- ?x = _ => destruct x; reflexivity end.
Qed.

(** With the guards of [keepsTargets], a step of a session gives a store for
    every budget above the length of the path sequence plus one, the same
    for all of them; its [to] anchors are sequenced again, and its path
    sequence is longer by one item at most. *)
Lemma step_returns (s : Store) (a : Action) :
  targetsSequenced s = true ->
  keepsTargets s a = true ->
  exists s',
    (forall fuel,
        (S (length (Store.pathSequence s)) < fuel)%nat -> step fuel a s = Some s')
    /\ targetsSequenced s' = true
    /\ (length (Store.pathSequence s') <= S (length (Store.pathSequence s)))%nat.
Proof.
  intros Htargets Hkeeps. destruct a; simpl in Hkeeps; simpl step.
  - apply sequencer_action_returns; [apply addNode_set_targets, Htargets|].
    unfold addNode_set. simpl. rewrite length_app. simpl. lia.
  - apply sequencer_action_returns; [apply updateNode_set_targets, Htargets|].
    simpl. lia.
  - apply sequencer_action_returns; [apply deleteNode_set_targets, Htargets|].
    unfold deleteNode_set. simpl. rewrite renumber_length.
    pose proof (List_filter_length (fun item => negb (hasItemId id item))
                  (Store.pathSequence s)). lia.
  - exists (moveNode id position s). split; [reflexivity|]. split; [exact Htargets|].
    simpl. lia.
  - apply sequencer_action_returns; [apply addCorridor_set_targets; assumption|].
    unfold addCorridor_set. simpl. rewrite length_app. simpl. lia.
  - apply sequencer_action_returns; [apply updateCorridor_set_targets_kept; assumption|].
    simpl. lia.
  - unfold updateCorridorVertex.
    destruct (find _ _) as [corridor|];
      [|exists s; split; [reflexivity|split; [exact Htargets|lia]]].
    destruct (dense _) as [path|];
      [|exists s; split; [reflexivity|split; [exact Htargets|lia]]].
    destruct (sequencer_action_returns s
                (updateCorridor_set corridorId (CorridorUpdate.ofPath path) s))
      as (s' & Hs' & Ht' & Hlen).
    { rewrite updateCorridor_set_targets. exact Htargets. }
    { simpl. lia. }
    exists s'. split; [|split; [exact Ht'|exact Hlen]].
    intros fuel Hfuel. unfold updateCorridor. rewrite (Hs' fuel Hfuel). reflexivity.
  - apply sequencer_action_returns; [apply deleteCorridor_set_targets; assumption|].
    unfold deleteCorridor_set. simpl. rewrite renumber_length.
    pose proof (List_filter_length (fun item => negb (hasItemId id item))
                  (Store.pathSequence s)). lia.
  - exists (deleteFloor floorIndex s). split; [reflexivity|].
    split; [apply deleteFloor_targets, Htargets|].
    unfold deleteFloor. simpl. lia.
Qed.

(** X13: on a store in which every [to] anchor of a corridor has an item in
    the path sequence, no action exhausts a budget that exceeds the length
    of the path sequence by more than one.  The action returns, and the
    store it leaves is again such a store; or it is an
    [updateCorridorVertex] that leaves holes in the path (the corridor
    exists, the index is beyond the end of its path and below [2 ^ 32 - 1])
    and it raises.  This needs that a corridor that is added, or whose [to]
    anchor is updated, ends at an id of the path sequence, and that a
    deleted corridor is not the [to] anchor of another corridor. *)
Theorem actions_return (s : Store) (a : Action) :
  targetsSequenced s = true ->
  keepsTargets s a = true ->
  exists o,
    (forall fuel,
        (S (length (Store.pathSequence s)) < fuel)%nat -> perform fuel a s = o)
    /\ (leavesHoles s a = true -> o = Thrown)
    /\ (leavesHoles s a = false ->
        exists s', o = Returned s' /\ targetsSequenced s' = true).
Proof.
  intros Htargets Hkeeps.
  destruct (leavesHoles s a) eqn:Hholes.
  - destruct a; try discriminate. simpl in Hholes. exists Thrown.
    split; [|split; [reflexivity|discriminate]].
    intros fuel _. simpl. unfold updateCorridorVertex.
    destruct (find _ _) as [corridor|]; [|discriminate].
    rewrite (proj1 (assignVertex_holes _ _ _) Hholes). reflexivity.
  - destruct (step_returns s a Htargets Hkeeps) as (s' & Hstep & Ht' & _).
    exists (Returned s'). split; [|split; [discriminate|intros _; eauto]].
    intros fuel Hfuel. specialize (Hstep fuel Hfuel). rewrite step_perform in Hstep.
    destruct (perform fuel a s) as [s1| |] eqn:Hperform; [congruence| |discriminate].
    exfalso. destruct a; simpl in Hholes, Hperform; try discriminate;
      try (match type of Hperform with
           | outcomeOf ?run = Thrown => destruct run; discriminate
           end).
    unfold updateCorridorVertex in Hperform.
    destruct (find _ _) as [corridor|]; [|discriminate].
    destruct (proj2 (assignVertex_holes (Corridor.path corridor) vertexIndex
                       (with_z newPosition (vertexFloor s newPosition newFloor))) Hholes)
      as [path Hpath].
    rewrite Hpath in Hperform. destruct (updateCorridor _ _ _ _); discriminate.
Qed.

Lemma actions_return_witness :
  targetsSequenced linearStore = true
  /\ (exists s',
         (forall fuel,
             (S (length (Store.pathSequence linearStore)) < fuel)%nat ->
             perform fuel (AddCorridor (exampleCorridor "CS3" (Some "AD1") (Some "E1")))
               linearStore
             = Returned s')
         /\ targetsSequenced s' = true)
  /\ (forall fuel,
         (S (length (Store.pathSequence linearStore)) < fuel)%nat ->
         perform fuel (UpdateCorridorVertex "CS1" 7 origin None) linearStore = Thrown).
Proof.
  assert (Htargets : targetsSequenced linearStore = true) by (vm_compute; reflexivity).
  split; [exact Htargets|]. split.
  - destruct (actions_return linearStore
                (AddCorridor (exampleCorridor "CS3" (Some "AD1") (Some "E1"))) Htargets)
      as (o & Ho & _ & Hret); [vm_compute; reflexivity|].
    destruct (Hret eq_refl) as (s' & -> & Ht'). exists s'. split; assumption.
  - assert (Hholes : leavesHoles linearStore (UpdateCorridorVertex "CS1" 7 origin None) = true)
      by (vm_compute; reflexivity).
    destruct (actions_return linearStore (UpdateCorridorVertex "CS1" 7 origin None) Htargets)
      as (o & Ho & Hthrow & _); [reflexivity|].
    rewrite (Hthrow Hholes) in Ho. exact Ho.
Defined.

(** ** Sessions that keep the edges attached *)

(** X11: from a store in which the path sequence names only nodes and
    corridors, no edge has an end that is neither, and every [to] anchor of
    a corridor has an item in the path sequence, every session of guarded
    actions leaves a store (for every budget above the length of the path
    sequence plus the number of actions plus one), and in that store the
    three properties hold again.  The guards: no update renames an element
    and no action deletes a floor; a node that is deleted has no corridor
    attached; a corridor that is added, or whose [to] anchor is updated,
    ends at an id of the path sequence; a corridor that is deleted is not
    the [to] anchor of another one.  An [updateCorridorVertex] that raises
    leaves the store as it was, and the session goes on. *)
Theorem actions_keep_edges_attached (actions : list Action) (s : Store) :
  sequenceCovered s -> noDanglingEdges s -> targetsSequenced s = true ->
  guardedAlong actions s = true ->
  exists s',
    (forall fuel,
        (S (length (Store.pathSequence s)) + length actions < fuel)%nat ->
        run fuel actions s = Some s')
    /\ sequenceCovered s' /\ noDanglingEdges s' /\ targetsSequenced s' = true.
Proof.
  revert s. induction actions as [|a rest IH]; intros s Hcov Hedges Htargets Hguard.
  - exists s. split; [reflexivity|]. split; [exact Hcov|]. split; assumption.
  - simpl in Hguard. apply andb_true_iff in Hguard as [Hguard Hrest].
    apply andb_true_iff in Hguard as [Hids Hkeeps].
    destruct (step_returns s a Htargets Hkeeps) as (s1 & Hstep & Ht1 & Hlen).
    rewrite (Hstep (S (S (length (Store.pathSequence s))))) in Hrest by lia.
    destruct (step_keeps_edges_attached _ a s s1 Hids Hcov Hedges
                (Hstep (S (S (length (Store.pathSequence s)))) ltac:(lia)))
      as [Hcov1 Hedges1].
    destruct (IH s1 Hcov1 Hedges1 Ht1 Hrest) as (s' & Hrun & Hresult).
    exists s'. split; [|exact Hresult].
    intros fuel Hfuel. simpl in Hfuel. simpl. rewrite (Hstep fuel) by lia.
    apply Hrun. lia.
Qed.

Lemma actions_keep_edges_attached_witness :
  exists s',
    run 11 tidyScenario initialStore = Some s'
    /\ elementIds s' = ["E1"; "DP1"; "AD1"; "CS1"]
    /\ length (Store.edges s') = 3%nat
    /\ sequenceCovered s' /\ noDanglingEdges s' /\ targetsSequenced s' = true.
Proof.
  destruct (actions_keep_edges_attached tidyScenario initialStore)
    as (s' & Hrun & Hresult).
  - intros x Hx. inversion Hx.
  - intros e He. inversion He.
  - reflexivity.
  - vm_compute; reflexivity.
  - exists s'. specialize (Hrun 11%nat ltac:(vm_compute; lia)).
    split; [exact Hrun|]. split; [|split; [|exact Hresult]].
    + vm_compute in Hrun. injection Hrun as <-. reflexivity.
    + vm_compute in Hrun. injection Hrun as <-. reflexivity.
Defined.

(** ** Deleting a node or a corridor *)

Lemma reorderPathSequence_without fuel id stage s' :
  id ∉ ids (Store.pathSequence stage) ->
  reorderPathSequence fuel stage = Some s' ->
  id ∉ ids (Store.pathSequence s')
  /\ forall e, e ∈ Store.edges s' -> Edge.from e <> id /\ Edge.to e <> id.
Proof.
  intros Hnot Hrun.
  destruct (reorderPathSequence_sequence _ _ _ Hrun) as [Hseq _].
  assert (Hnot' : id ∉ ids (Store.pathSequence s')).
  { intros Hin. apply Hnot, (reorderedSequenceOf_ids _ _ _ Hseq), Hin. }
  split; [exact Hnot'|].
  intros e He. destruct (reorderPathSequence_edges_within _ _ _ _ Hrun He) as [Hf Ht].
  split; intros Heq; apply Hnot'; congruence.
Qed.

(** X14: whenever [deleteNode] returns, the nodes with the given id and the
    corridors that start or end at it are gone and every other node and
    corridor is kept; the path sequence has lost exactly the id of the node,
    and no edge starts or ends at it.  On a store in which every [to] anchor
    has an item in the path sequence it returns once the budget exceeds the
    length of the path sequence. *)
Theorem deleteNode_removes_node (id : string) (s : Store) :
  (forall fuel s',
      deleteNode fuel id s = Some s' ->
      (forall node, node ∈ Store.nodes s' <-> node ∈ Store.nodes s /\ Node.id node <> id)
      /\ (forall corridor,
             corridor ∈ Store.corridors s'
             <-> corridor ∈ Store.corridors s /\ anchoredAt id corridor = false)
      /\ (forall x, x ∈ ids (Store.pathSequence s')
                    <-> x ∈ ids (Store.pathSequence s) /\ x <> id)
      /\ (forall e, e ∈ Store.edges s' -> Edge.from e <> id /\ Edge.to e <> id))
  /\ (targetsSequenced s = true ->
      exists s', forall fuel,
          (length (Store.pathSequence s) < fuel)%nat -> deleteNode fuel id s = Some s').
Proof.
  split.
  - intros fuel s' Hrun. unfold deleteNode in Hrun.
    destruct (reorderPathSequence_frame _ _ _ Hrun) as (Hn & Hc & _).
    destruct (reorderPathSequence_sequence _ _ _ Hrun) as [Hseq _].
    assert (Hids : forall x, x ∈ ids (Store.pathSequence s')
                             <-> x ∈ ids (Store.pathSequence s) /\ x <> id).
    { intros x. rewrite (reorderedSequenceOf_ids _ _ _ Hseq x).
      apply ids_filter_renumber. }
    split; [|split; [|split; [exact Hids|]]].
    + intros node. rewrite Hn. unfold deleteNode_set. simpl.
      rewrite list_elem_of_In, filter_In, <- list_elem_of_In.
      rewrite negb_true_iff, bool_decide_eq_false. reflexivity.
    + intros corridor. rewrite Hc. unfold deleteNode_set. simpl.
      rewrite list_elem_of_In, filter_In, <- list_elem_of_In.
      unfold anchoredAt. rewrite <- negb_orb, negb_true_iff. reflexivity.
    + apply (reorderPathSequence_without fuel id (deleteNode_set id s)); [|exact Hrun].
      intros Hin. apply ids_filter_renumber in Hin as [_ Hne]. apply Hne. reflexivity.
  - intros Htargets.
    destruct (reorderPathSequence_returns _ (deleteNode_set_targets id s Htargets)) as [s' Hs'].
    exists s'. intros fuel Hfuel. apply Hs'.
    unfold deleteNode_set. simpl. rewrite renumber_length.
    pose proof (List_filter_length (fun item => negb (hasItemId id item))
                  (Store.pathSequence s)). lia.
Qed.

Lemma deleteNode_removes_node_witness :
  targetsSequenced linearStore = true
  /\ exists s',
      deleteNode 6 "AD1" linearStore = Some s'
      /\ map Node.id (Store.nodes s') = ["E1"; "DP1"]
      /\ map Corridor.id (Store.corridors s') = ["CS1"]
      /\ forall e, e ∈ Store.edges s' -> Edge.from e <> "AD1" /\ Edge.to e <> "AD1".
Proof.
  split; [vm_compute; reflexivity|].
  eexists. split; [vm_compute; reflexivity|].
  split; [reflexivity|]. split; [reflexivity|].
  destruct (deleteNode_removes_node "AD1" linearStore) as [H _].
  edestruct (H 6%nat) as (_ & _ & _ & Hedges); [vm_compute; reflexivity|].
  exact Hedges.
Defined.

(** X15: whenever [deleteCorridor] returns, the corridors with the given id are
    gone, every other corridor and every node is kept, the path sequence has
    lost exactly that id, and no edge starts or ends at it.  It returns once
    the budget exceeds the length of the path sequence, on a store in which
    every [to] anchor has an item in the path sequence and no corridor ends
    at the deleted id. *)
Theorem deleteCorridor_removes_corridor (id : string) (s : Store) :
  (forall fuel s',
      deleteCorridor fuel id s = Some s' ->
      Store.nodes s' = Store.nodes s
      /\ (forall corridor,
             corridor ∈ Store.corridors s'
             <-> corridor ∈ Store.corridors s /\ Corridor.id corridor <> id)
      /\ (forall x, x ∈ ids (Store.pathSequence s')
                    <-> x ∈ ids (Store.pathSequence s) /\ x <> id)
      /\ (forall e, e ∈ Store.edges s' -> Edge.from e <> id /\ Edge.to e <> id))
  /\ (targetsSequenced s = true ->
      keepsTargets s (DeleteCorridor id) = true ->
      exists s', forall fuel,
          (length (Store.pathSequence s) < fuel)%nat -> deleteCorridor fuel id s = Some s').
Proof.
  split.
  - intros fuel s' Hrun. unfold deleteCorridor in Hrun.
    destruct (reorderPathSequence_frame _ _ _ Hrun) as (Hn & Hc & _).
    destruct (reorderPathSequence_sequence _ _ _ Hrun) as [Hseq _].
    assert (Hids : forall x, x ∈ ids (Store.pathSequence s')
                             <-> x ∈ ids (Store.pathSequence s) /\ x <> id).
    { intros x. rewrite (reorderedSequenceOf_ids _ _ _ Hseq x).
      apply ids_filter_renumber. }
    split; [exact Hn|]. split; [|split; [exact Hids|]].
    + intros corridor. rewrite Hc. unfold deleteCorridor_set. simpl.
      rewrite list_elem_of_In, filter_In, <- list_elem_of_In.
      rewrite negb_true_iff, bool_decide_eq_false. reflexivity.
    + apply (reorderPathSequence_without fuel id (deleteCorridor_set id s)); [|exact Hrun].
      intros Hin. apply ids_filter_renumber in Hin as [_ Hne]. apply Hne. reflexivity.
  - intros Htargets Hkeeps.
    destruct (reorderPathSequence_returns _
                (deleteCorridor_set_targets id s Hkeeps Htargets)) as [s' Hs'].
    exists s'. intros fuel Hfuel. apply Hs'.
    unfold deleteCorridor_set. simpl. rewrite renumber_length.
    pose proof (List_filter_length (fun item => negb (hasItemId id item))
                  (Store.pathSequence s)). lia.
Qed.

Lemma deleteCorridor_removes_corridor_witness :
  targetsSequenced linearStore = true
  /\ keepsTargets linearStore (DeleteCorridor "CS1") = true
  /\ exists s',
      deleteCorridor 6 "CS1" linearStore = Some s'
      /\ map Node.id (Store.nodes s') = ["E1"; "DP1"; "AD1"]
      /\ map Corridor.id (Store.corridors s') = ["CS2"]
      /\ ids (Store.pathSequence s') = ["E1"; "DP1"; "CS2"; "AD1"]
      /\ forall e, e ∈ Store.edges s' -> Edge.from e <> "CS1" /\ Edge.to e <> "CS1".
Proof.
  split; [vm_compute; reflexivity|]. split; [vm_compute; reflexivity|].
  eexists. split; [vm_compute; reflexivity|].
  split; [reflexivity|]. split; [reflexivity|]. split; [reflexivity|].
  destruct (deleteCorridor_removes_corridor "CS1" linearStore) as [H _].
  edestruct (H 6%nat) as (_ & _ & _ & Hedges); [vm_compute; reflexivity|].
  exact Hedges.
Defined.

(** ** Fresh ids *)

Lemma append_inj_r (p a b : string) : p +:+ a = p +:+ b -> a = b.
Proof. induction p as [|c p IH]; simpl; [done|]. intros [= H]. apply IH, H. Qed.

Lemma idOf_inj type : Inj (=) (=) (idOf type).
Proof. intros m n H. apply append_inj_r in H. by apply (inj pretty) in H. Qed.

Lemma generateId_loop_sound allIds type fuel :
  forall counter id,
    generateId_loop fuel allIds type counter = Some id ->
    id ∉ allIds
    /\ exists n, (counter <= n)%nat /\ id = idOf type n
                 /\ forall m, (counter <= m < n)%nat -> idOf type m ∈ allIds.
Proof.
  induction fuel as [|fuel IH]; intros counter id Hrun; simpl in Hrun.
  - destruct (bool_decide (idOf type counter ∈ allIds)) eqn:E; [discriminate|].
    injection Hrun as <-. apply bool_decide_eq_false in E. split; [exact E|].
    exists counter. split; [lia|]. split; [reflexivity|]. intros m Hm. lia.
  - destruct (bool_decide (idOf type counter ∈ allIds)) eqn:E.
    + apply bool_decide_eq_true in E.
      apply IH in Hrun as (Hnot & n & Hn & -> & Hbelow).
      split; [exact Hnot|]. exists n. split; [lia|]. split; [reflexivity|].
      intros m Hm. destruct (decide (m = counter)) as [->|Hne]; [exact E|].
      apply Hbelow. lia.
    + injection Hrun as <-. apply bool_decide_eq_false in E. split; [exact E|].
      exists counter. split; [lia|]. split; [reflexivity|]. intros m Hm. lia.
Qed.

Lemma generateId_loop_exhausted allIds type fuel :
  forall counter,
    generateId_loop fuel allIds type counter = None ->
    forall m, (counter <= m <= counter + fuel)%nat -> idOf type m ∈ allIds.
Proof.
  induction fuel as [|fuel IH]; intros counter Hrun m Hm; simpl in Hrun;
    destruct (bool_decide (idOf type counter ∈ allIds)) eqn:E; try discriminate;
    apply bool_decide_eq_true in E.
  - replace m with counter by lia. exact E.
  - destruct (decide (m = counter)) as [->|Hne]; [exact E|].
    apply (IH (S counter) Hrun). lia.
Qed.

Lemma generateId_loop_more_fuel allIds type fuel :
  forall counter id,
    generateId_loop fuel allIds type counter = Some id ->
    forall fuel', (fuel <= fuel')%nat -> generateId_loop fuel' allIds type counter = Some id.
Proof.
  induction fuel as [|fuel IH]; intros counter id Hrun fuel' Hle; simpl in Hrun.
  - destruct fuel'; simpl; destruct (bool_decide _); try discriminate; exact Hrun.
  - destruct fuel' as [|fuel']; [lia|]. simpl.
    destruct (bool_decide _); [|exact Hrun]. apply IH; [exact Hrun|lia].
Qed.

Lemma generateId_loop_returns allIds type counter :
  exists id, generateId_loop (length allIds) allIds type counter = Some id.
Proof.
  destruct (generateId_loop (length allIds) allIds type counter) as [id|] eqn:Hrun;
    [eauto|exfalso].
  pose proof (generateId_loop_exhausted _ _ _ _ Hrun) as Hall.
  assert (Hsub : map (idOf type) (seq counter (S (length allIds))) ⊆+ allIds).
  { apply NoDup_submseteq.
    - apply NoDup_fmap_2; [apply idOf_inj|apply NoDup_seq].
    - intros x Hx. apply list_elem_of_fmap in Hx as (m & -> & Hm).
      apply elem_of_seq in Hm. apply Hall. lia. }
  apply submseteq_length in Hsub. rewrite length_map, length_seq in Hsub. lia.
Qed.

(** X16: [generateId] returns, after at most as many rounds of its loop as the
    store has node, corridor and edge ids; the id it returns is the type
    prefix followed by the smallest counter, from 1 on, whose id is not the
    id of a node, of a corridor or of an edge. *)
Theorem generateId_fresh (type : string) (s : Store) :
  exists id n,
    (forall fuel, (length (allIds s) <= fuel)%nat -> generateId fuel type s = Some id)
    /\ id = idOf type n
    /\ (1 <= n <= S (length (allIds s)))%nat
    /\ id ∉ map Node.id (Store.nodes s)
    /\ id ∉ map Corridor.id (Store.corridors s)
    /\ id ∉ map Edge.id (Store.edges s)
    /\ forall m, (1 <= m < n)%nat -> idOf type m ∈ allIds s.
Proof.
  destruct (generateId_loop_returns (allIds s) type 1) as [id Hrun].
  destruct (generateId_loop_sound _ _ _ _ _ Hrun) as (Hnot & n & Hn & Hid & Hbelow).
  exists id, n. split; [|split; [exact Hid|split; [split; [exact Hn|]|]]].
  - intros fuel Hfuel. unfold generateId.
    apply (generateId_loop_more_fuel _ _ _ _ _ Hrun). exact Hfuel.
  - assert (Hsub : map (idOf type) (seq 1 (n - 1)) ⊆+ allIds s).
    { apply NoDup_submseteq.
      - apply NoDup_fmap_2; [apply idOf_inj|apply NoDup_seq].
      - intros x Hx. apply list_elem_of_fmap in Hx as (m & -> & Hm).
        apply elem_of_seq in Hm. apply Hbelow. lia. }
    apply submseteq_length in Hsub. rewrite length_map, length_seq in Hsub. lia.
  - unfold allIds in Hnot. rewrite !elem_of_app in Hnot.
    split; [tauto|]. split; [tauto|]. split; [tauto|exact Hbelow].
Qed.

Lemma generateId_example :
  generateId 0 "CS" initialStore = Some "CS1"
  /\ generateId 5 "DP" (storeOf [exampleNode "DP1" DecisionPoint; exampleNode "DP2" DecisionPoint] [] [])
     = Some "DP3".
Proof. split; vm_compute; reflexivity. Qed.

(** ** The name of the saved file *)

Lemma append_cons (x : Ascii.ascii) (a b : string) : String x a +:+ b = String x (a +:+ b).
Proof. reflexivity. Qed.

Lemma append_length (a b : string) :
  String.length (a +:+ b) = (String.length a + String.length b)%nat.
Proof.
  induction a as [|c a IH]; [reflexivity|].
  rewrite append_cons. simpl. f_equal. exact IH.
Qed.

Lemma append_assoc (a b c : string) : (a +:+ b) +:+ c = a +:+ (b +:+ c).
Proof.
  induction a as [|x a IH]; [reflexivity|].
  rewrite !append_cons. f_equal. exact IH.
Qed.

Lemma append_inj_l (a b c : string) : a +:+ c = b +:+ c -> a = b.
Proof.
  revert b. induction a as [|x a IH]; intros [|y b] H.
  - reflexivity.
  - apply (f_equal String.length) in H. rewrite !append_length in H. simpl in H. lia.
  - apply (f_equal String.length) in H. rewrite !append_length in H. simpl in H. lia.
  - rewrite !append_cons in H. injection H as -> H. f_equal. apply IH, H.
Qed.

Lemma append_underscore_hyphen (a b : string) : a +:+ "_" <> b +:+ "-".
Proof.
  revert b. induction a as [|c a IH]; intros [|d b] H; rewrite ?append_cons in H.
  - discriminate.
  - injection H as _ H. destruct b; discriminate.
  - injection H as _ H. destruct a; discriminate.
  - injection H as _ H. apply (IH b H).
Qed.

Lemma concat_snoc sep (parts : list string) (last : string) :
  parts <> [] ->
  String.concat sep (parts ++ [last]) = (String.concat sep parts +:+ sep) +:+ last.
Proof.
  induction parts as [|p parts IH]; [done|]. intros _.
  destruct parts as [|q parts].
  - simpl. by rewrite append_assoc.
  - change (String.concat sep ((p :: q :: parts) ++ [last]))
      with (p +:+ sep +:+ String.concat sep ((q :: parts) ++ [last])).
    rewrite IH by done.
    change (String.concat sep (p :: q :: parts))
      with (p +:+ sep +:+ String.concat sep (q :: parts)).
    by rewrite !append_assoc.
Qed.

(** X17: the date being a string that [trim] does not empty (as every ISO date
    is), [generateFileName] returns the identifiers of the project that
    [trim] does not empty and the date, joined by [_], with the extension
    [.json]; when [trim] empties the three identifiers this is the date
    alone, and in no case the name [spatial-annotation-<date>.json] of the
    branch for an empty list of parts.  This holds whatever [trim] does. *)
Theorem generateFileName_spec (trim : string -> string) (date : string) (s : Store) :
  trim date <> "" ->
  let identifiers :=
    List.filter (fun part => negb (bool_decide (trim part = "")))
      [ProjectIdentification.buildingId (Store.projectId s);
       ProjectIdentification.architectId (Store.projectId s);
       ProjectIdentification.routeId (Store.projectId s)] in
  generateFileName trim date s
  = String.concat "_" (identifiers ++ [date]) +:+ ".json"
  /\ (identifiers = [] -> generateFileName trim date s = date +:+ ".json")
  /\ generateFileName trim date s <> "spatial-annotation-" +:+ date +:+ ".json".
Proof.
  intros Hdate identifiers.
  assert (Hparts :
            List.filter (fun part => negb (bool_decide (trim part = "")))
              [ProjectIdentification.buildingId (Store.projectId s);
               ProjectIdentification.architectId (Store.projectId s);
               ProjectIdentification.routeId (Store.projectId s); date]
            = identifiers ++ [date]).
  { change [ProjectIdentification.buildingId (Store.projectId s);
            ProjectIdentification.architectId (Store.projectId s);
            ProjectIdentification.routeId (Store.projectId s); date]
      with ([ProjectIdentification.buildingId (Store.projectId s);
             ProjectIdentification.architectId (Store.projectId s);
             ProjectIdentification.routeId (Store.projectId s)] ++ [date]).
    rewrite List.filter_app. simpl. rewrite (bool_decide_eq_false_2 _ Hdate). reflexivity. }
  assert (Hname : generateFileName trim date s
                  = String.concat "_" (identifiers ++ [date]) +:+ ".json").
  { unfold generateFileName. cbv zeta. rewrite Hparts.
    destruct (identifiers ++ [date]) eqn:E; [|reflexivity].
    destruct identifiers; discriminate. }
  split; [exact Hname|]. split.
  - intros Hnone. rewrite Hname, Hnone. reflexivity.
  - rewrite Hname. rewrite <- append_assoc. intros Heq. apply append_inj_l in Heq.
    destruct identifiers as [|p rest] eqn:E.
    + simpl in Heq. apply (f_equal String.length) in Heq.
      rewrite append_length in Heq. simpl in Heq. lia.
    + rewrite concat_snoc in Heq by done. apply append_inj_l in Heq.
      apply (append_underscore_hyphen (String.concat "_" (p :: rest)) "spatial-annotation").
      exact Heq.
Qed.

(** X17 with the [trim] of ASCII: an identifier that is a space is left
    out. *)
Lemma generateFileName_spec_witness :
  trimAscii "2026-11-03" <> ""
  /\ generateFileName trimAscii "2026-11-03" initialStore = "2026-11-03.json"
  /\ generateFileName trimAscii "2026-11-03"
       (setProjectId (ProjectIdentification.mk "B1" " " "R7") initialStore)
     = "B1_R7_2026-11-03.json".
Proof.
  assert (Hdate : trimAscii "2026-11-03" <> "") by discriminate.
  split; [exact Hdate|]. split.
  - apply (proj1 (proj2 (generateFileName_spec trimAscii "2026-11-03" initialStore Hdate))).
    reflexivity.
  - rewrite (proj1 (generateFileName_spec trimAscii "2026-11-03" _ Hdate)).
    reflexivity.
Defined.

(** ** The node near a position *)

Lemma nearNode_hitNodes {arith : Arithmetic} position tolerance nodes :
  hitNodes position tolerance nodes
  = option_map (fun id => (id, element_node)) (nearNode position tolerance nodes).
Proof.
  induction nodes as [|node rest IH]; [reflexivity|]. simpl.
  destruct (nodeHit position tolerance node); [reflexivity|exact IH].
Qed.

(** A number below a tolerance is below every larger one. *)
Lemma double_ltb_wider (d : double) (t t' : Q) :
  (t <= t')%Q -> double_ltb d (finite t) = true -> double_ltb d (finite t') = true.
Proof.
  intros Hle. destruct d as [v| | |]; simpl; try done.
  rewrite !Qltb_lt. intros Hlt. eapply Qlt_le_trans; eassumption.
Qed.

Lemma nodeHit_wider {arith : Arithmetic} position (t t' : Q) node :
  (t <= t')%Q -> nodeHit position t node = true -> nodeHit position t' node = true.
Proof. unfold nodeHit. apply double_ltb_wider. Qed.

Lemma nearNode_some {arith : Arithmetic} position tolerance nodes node :
  node ∈ nodes -> nodeHit position tolerance node = true ->
  is_Some (nearNode position tolerance nodes).
Proof.
  induction nodes as [|n rest IH]; intros Hin Hhit; [inversion Hin|]. simpl.
  destruct (nodeHit position tolerance n) eqn:E; [eauto|].
  apply elem_of_cons in Hin as [->|Hin]; [congruence|]. apply IH; assumption.
Qed.

Lemma nearNode_hit {arith : Arithmetic} position tolerance nodes id :
  nearNode position tolerance nodes = Some id ->
  exists node, node ∈ nodes /\ Node.id node = id /\ nodeHit position tolerance node = true.
Proof.
  induction nodes as [|n rest IH]; [discriminate|]. simpl.
  destruct (nodeHit position tolerance n) eqn:E.
  - intros [= <-]. exists n. split; [apply list_elem_of_here|]. split; [reflexivity|exact E].
  - intros H. apply IH in H as (node & Hin & Hid & Hhit).
    exists node. split; [apply list_elem_of_further, Hin|]. split; assumption.
Qed.

(** X18: [isNearNode] and [getElementByPosition] agree on nodes: with the same
    tolerance, one returns the id of a node exactly when the other returns
    that node.  With their default tolerances (30 and 20), every position at
    which [getElementByPosition] finds a node is near some node for
    [isNearNode], and a wider tolerance never loses the answer "some node". *)
Theorem isNearNode_getElementByPosition {arith : Arithmetic} (position : Position) (s : Store) :
  (forall tolerance id,
      isNearNode position (Some tolerance) s = Some id
      <-> getElementByPosition position (Some tolerance) s = Some (id, element_node))
  /\ (forall t t' : Q,
         (t <= t')%Q ->
         is_Some (isNearNode position (Some t) s) ->
         is_Some (isNearNode position (Some t') s))
  /\ (forall id,
         getElementByPosition position None s = Some (id, element_node) ->
         is_Some (isNearNode position None s)).
Proof.
  assert (Hagree : forall tolerance id,
             isNearNode position (Some tolerance) s = Some id
             <-> getElementByPosition position (Some tolerance) s = Some (id, element_node)).
  { intros tolerance id. unfold isNearNode, getElementByPosition. simpl.
    rewrite nearNode_hitNodes.
    destruct (nearNode position tolerance (getVisibleNodes s)) as [found|]; simpl.
    - split; intros [= ->]; reflexivity.
    - split; [discriminate|]. intros H. exfalso.
      induction (getVisibleCorridors s) as [|c l IH]; [discriminate|]. simpl in H.
      destruct (corridorHit s position tolerance c); [discriminate|]. exact (IH H). }
  assert (Hwider : forall t t' : Q,
             (t <= t')%Q ->
             is_Some (isNearNode position (Some t) s) ->
             is_Some (isNearNode position (Some t') s)).
  { intros t t' Hle [id Hid]. unfold isNearNode in *. simpl in *.
    apply nearNode_hit in Hid as (node & Hin & _ & Hhit).
    apply (nearNode_some _ _ _ node Hin). apply (nodeHit_wider _ t); assumption. }
  split; [exact Hagree|]. split; [exact Hwider|].
  intros id Hfound.
  change (getElementByPosition position None s)
    with (getElementByPosition position (Some 20%Q) s) in Hfound.
  apply Hagree in Hfound.
  change (isNearNode position None s) with (isNearNode position (Some 30%Q) s).
  apply (Hwider 20%Q 30%Q); [discriminate|]. eauto.
Qed.

Lemma isNearNode_getElementByPosition_witness :
  getElementByPosition origin None hitStore = Some ("Far", element_node)
  /\ is_Some (isNearNode origin None hitStore)
  /\ isNearNode origin (Some 20%Q) hitStore = Some "Far".
Proof.
  assert (H : getElementByPosition origin None hitStore = Some ("Far", element_node))
    by (vm_compute; reflexivity).
  split; [exact H|]. split.
  - apply (proj2 (proj2 (isNearNode_getElementByPosition origin hitStore)) "Far" H).
  - apply (proj1 (isNearNode_getElementByPosition origin hitStore)). exact H.
Defined.

(** ** The current floor *)

Lemma find_floor_Some floorIndex floors floor :
  find (fun f => Floor.index f =? floorIndex) floors = Some floor ->
  floor ∈ floors /\ Floor.index floor = floorIndex.
Proof.
  intros H. apply find_some in H as [Hin Heq].
  split; [apply list_elem_of_In, Hin|apply Z.eqb_eq, Heq].
Qed.

Lemma find_floor_is_Some floorIndex floors :
  is_Some (find (fun f => Floor.index f =? floorIndex) floors)
  <-> exists floor, floor ∈ floors /\ Floor.index floor = floorIndex.
Proof.
  split.
  - intros [floor H]. apply find_floor_Some in H. eauto.
  - intros (floor & Hin & Heq).
    destruct (find _ floors) as [f|] eqn:E; [eauto|].
    exfalso. pose proof (find_none _ _ E floor (proj1 (list_elem_of_In _ _) Hin)) as Hf.
    simpl in Hf. rewrite Heq, Z.eqb_refl in Hf. discriminate.
Qed.

(** X19: a store whose current floor index is the index of one of its floors
    stays so under [addFloor], under [setCurrentFloor] with any index (an
    index without floor changes nothing), under [updateFloor] with an update
    that carries no index, and under [deleteFloor] as long as a floor is
    left; [addFloor] on a store without floors makes the new floor current,
    and [setCurrentFloor] with the index of a floor makes the first floor of
    that index current and loads its image, scale and pan. *)
Theorem current_floor_stays_valid (s : Store) :
  (forall floor, Store.floors s = [] -> getCurrentFloor (addFloor floor s) = Some floor)
  /\ (forall floorIndex,
         (forall floor, floor ∈ Store.floors s -> Floor.index floor <> floorIndex) ->
         setCurrentFloor floorIndex s = s)
  /\ (forall floorIndex floor,
         find (fun f => Floor.index f =? floorIndex) (Store.floors s) = Some floor ->
         getCurrentFloor (setCurrentFloor floorIndex s) = Some floor
         /\ Store.canvasState (setCurrentFloor floorIndex s)
            = CanvasState.mk (Floor.scale floor) (Floor.pan floor)
                (Some (Floor.backgroundImage floor)) floorIndex)
  /\ (is_Some (getCurrentFloor s) ->
      (forall floor, is_Some (getCurrentFloor (addFloor floor s)))
      /\ (forall floorIndex, is_Some (getCurrentFloor (setCurrentFloor floorIndex s)))
      /\ (forall id updates,
             FloorUpdate.index updates = None ->
             is_Some (getCurrentFloor (updateFloor id updates s)))
      /\ (forall floorIndex,
             Store.floors (deleteFloor floorIndex s) <> [] ->
             is_Some (getCurrentFloor (deleteFloor floorIndex s)))).
Proof.
  split; [|split; [|split]].
  - intros floor Hnone. unfold addFloor, getCurrentFloor. rewrite Hnone. simpl.
    rewrite Z.eqb_refl. reflexivity.
  - intros floorIndex Hnone. unfold setCurrentFloor.
    destruct (find _ (Store.floors s)) as [floor|] eqn:E; [|reflexivity].
    apply find_floor_Some in E as [Hin Hidx]. destruct (Hnone floor Hin Hidx).
  - intros floorIndex floor Hfind. unfold setCurrentFloor. rewrite Hfind.
    split; [|reflexivity]. unfold getCurrentFloor. simpl. exact Hfind.
  - intros Hcur. unfold getCurrentFloor in Hcur.
    apply find_floor_is_Some in Hcur as (cur & Hin & Hidx).
    split; [|split; [|split]].
    + intros floor. unfold getCurrentFloor. apply find_floor_is_Some. exists cur.
      assert (Hfloors : Store.floors (addFloor floor s) = Store.floors s ++ [floor])
        by (unfold addFloor; destruct (Store.floors s); reflexivity).
      assert (Hsame : currentFloorIndex (addFloor floor s) = currentFloorIndex s).
      { unfold addFloor. destruct (Store.floors s) eqn:E; [inversion Hin|reflexivity]. }
      rewrite Hfloors, Hsame. split; [apply elem_of_app; left; exact Hin|exact Hidx].
    + intros floorIndex. unfold setCurrentFloor.
      destruct (find _ (Store.floors s)) as [floor|] eqn:E.
      * change (is_Some (find (fun f => Floor.index f =? floorIndex) (Store.floors s))).
        rewrite E. eauto.
      * unfold getCurrentFloor. apply find_floor_is_Some. eauto.
    + intros id updates Hnoindex. unfold getCurrentFloor. apply find_floor_is_Some.
      unfold updateFloor. simpl.
      exists (if bool_decide (Floor.id cur = id) then mergeFloor cur updates else cur).
      split.
      * apply list_elem_of_fmap. exists cur. split; [reflexivity|exact Hin].
      * destruct (bool_decide _); [|exact Hidx]. simpl. rewrite Hnoindex. exact Hidx.
    + intros floorIndex Hleft. unfold getCurrentFloor. apply find_floor_is_Some.
      unfold deleteFloor in *. simpl in *.
      destruct (List.filter (fun f => negb (Floor.index f =? floorIndex)) (Store.floors s))
        as [|f0 fs] eqn:E; [congruence|].
      destruct (currentFloorIndex s =? floorIndex) eqn:Ecur.
      * exists f0. split; [apply list_elem_of_here|reflexivity].
      * exists cur. split; [|exact Hidx].
        rewrite <- E. apply list_elem_of_In, filter_In.
        split; [apply list_elem_of_In, Hin|]. rewrite Hidx, Ecur. reflexivity.
Qed.

Lemma current_floor_stays_valid_witness :
  getCurrentFloor twoFloorStore = Some (exampleFloor 0 "F0" "ground.png")
  /\ setCurrentFloor 7 twoFloorStore = twoFloorStore
  /\ getCurrentFloor (setCurrentFloor 1 twoFloorStore) = Some (exampleFloor 1 "F1" "first.png")
  /\ is_Some (getCurrentFloor (deleteFloor 0 twoFloorStore)).
Proof.
  assert (Hcur : getCurrentFloor twoFloorStore = Some (exampleFloor 0 "F0" "ground.png"))
    by reflexivity.
  split; [exact Hcur|]. split; [|split].
  - apply (proj1 (proj2 (current_floor_stays_valid twoFloorStore)) 7).
    intros floor Hin. simpl in Hin.
    apply elem_of_cons in Hin as [->|Hin]; [discriminate|].
    apply list_elem_of_singleton in Hin as ->. discriminate.
  - apply (proj1 (proj2 (proj2 (current_floor_stays_valid twoFloorStore))) 1). reflexivity.
  - apply (proj2 (proj2 (proj2 (current_floor_stays_valid twoFloorStore)))).
    + rewrite Hcur. eauto.
    + discriminate.
Defined.

(** ** Edits of the edges and their regeneration *)

Lemma edgesOfSequence_shape edges1 edges2 sorted :
  map edgeShape (edgesOfSequence edges1 sorted) = map edgeShape (edgesOfSequence edges2 sorted).
Proof.
  induction sorted as [|a [|b rest] IH]; [reflexivity..|].
  change (edgesOfSequence edges1 (a :: b :: rest))
    with (newEdge edges1 a b :: edgesOfSequence edges1 (b :: rest)).
  change (edgesOfSequence edges2 (a :: b :: rest))
    with (newEdge edges2 a b :: edgesOfSequence edges2 (b :: rest)).
  simpl map. f_equal. exact IH.
Qed.

Lemma edgeStep_pathSequence a s : Store.pathSequence (edgeStep a s) = Store.pathSequence s.
Proof. destruct a; reflexivity. Qed.

(** X20: which edges exist after [regenerateEdges] (their ids, sources and
    targets, in order) depends on the path sequence alone: whatever edges
    were added, updated or deleted by hand before, the regenerated edges are
    the consecutive pairs of the sequence, so an edge added by hand for
    another pair is dropped and a deleted edge of the sequence comes back. *)
Theorem regenerateEdges_forgets_edits (edits : list EdgeAction) (s : Store) :
  let edited := fold_left (fun s' a => edgeStep a s') edits s in
  Store.pathSequence edited = Store.pathSequence s
  /\ map edgeShape (Store.edges (regenerateEdges edited))
     = map edgeShape (Store.edges (regenerateEdges s)).
Proof.
  cbv zeta.
  assert (Hseq : Store.pathSequence (fold_left (fun s' a => edgeStep a s') edits s)
                 = Store.pathSequence s).
  { revert s. induction edits as [|a rest IH]; intros s; [reflexivity|].
    simpl. rewrite IH. apply edgeStep_pathSequence. }
  split; [exact Hseq|].
  unfold regenerateEdges. simpl. rewrite Hseq. apply edgesOfSequence_shape.
Qed.

Lemma find_updated_edge id updates (edges : list Edge) :
  default id (EdgeUpdate.id updates) = id ->
  find (fun e => bool_decide (Edge.id e = id))
    (map (fun edge => if bool_decide (Edge.id edge = id) then mergeEdge edge updates
                      else edge) edges)
  = option_map (fun edge => mergeEdge edge updates)
      (find (fun e => bool_decide (Edge.id e = id)) edges).
Proof.
  intros Hid. induction edges as [|e rest IH]; [reflexivity|]. simpl.
  destruct (bool_decide (Edge.id e = id)) eqn:E.
  - apply bool_decide_eq_true in E. simpl.
    assert (Hsame : default (Edge.id e) (EdgeUpdate.id updates) = id).
    { destruct (EdgeUpdate.id updates); simpl in *; congruence. }
    rewrite Hsame, bool_decide_eq_true_2 by reflexivity. reflexivity.
  - rewrite E. exact IH.
Qed.

(** X21: an update of the metadata of an edge survives the regeneration of the
    edges: when the update does not rename the edge and the edge still joins
    two consecutive items of the path sequence, the regenerated edge carries
    the updated importance, decision properties and design intent, while its
    source and target are again those of the sequence, whatever the update
    set them to. *)
Theorem updateEdge_survives_regeneration (s : Store) (id : string) (updates : EdgeUpdate.t)
    (i : nat) (current next : PathSequenceItem) (old : Edge) :
  default id (EdgeUpdate.id updates) = id ->
  sortByOrder (Store.pathSequence s) !! i = Some current ->
  sortByOrder (Store.pathSequence s) !! S i = Some next ->
  edgeId current next = id ->
  find (fun e => bool_decide (Edge.id e = id)) (Store.edges s) = Some old ->
  Store.edges (regenerateEdges (updateEdge id updates s)) !! i
  = Some (Edge.mk id (PathSequenceItem.id current) (PathSequenceItem.id next)
            (default (Edge.design_importance old) (EdgeUpdate.design_importance updates))
            (default (Edge.decision_properties old) (EdgeUpdate.decision_properties updates))
            (default (Edge.design_intent old) (EdgeUpdate.design_intent updates))).
Proof.
  intros Hid Hi HSi Hedge Hold. unfold regenerateEdges, updateEdge. simpl.
  rewrite (edgesOfSequence_lookup _ _ i current next Hi HSi).
  unfold newEdge. cbv zeta. rewrite Hedge.
  rewrite (find_updated_edge id updates _ Hid), Hold. reflexivity.
Qed.

Lemma updateEdge_survives_regeneration_witness :
  exists e,
    Store.edges (regenerateEdges (updateEdge "E1-CS1" importantEdge linearStore)) !! 0%nat
    = Some e
    /\ edgeShape e = ("E1-CS1", "E1", "CS1")
    /\ Edge.design_importance e = imp_yes
    /\ DecisionProperties.rationale (Edge.decision_properties e) = ["signage"].
Proof.
  eexists. split.
  - apply (updateEdge_survives_regeneration linearStore "E1-CS1" importantEdge 0
             (PathSequenceItem.mk "E1" item_node 0) (PathSequenceItem.mk "CS1" item_corridor 1)
             (Edge.mk "E1-CS1" "E1" "CS1" imp_neutral defaultDecisionProperties
                (defaultDesignIntent (PathSequenceItem.mk "E1" item_node 0))));
      vm_compute; reflexivity.
  - split; [reflexivity|]. split; reflexivity.
Defined.

(** ** A corridor with fewer than two vertices *)

(** X22: [addCorridor] does not validate the path: a corridor whose path has
    fewer than two vertices, which [validateCorridorPath] rejects, is stored
    all the same, without segments; it is among the visible corridors of no
    floor, and its item is in the path sequence. *)
Theorem addCorridor_short_path (s : Store) (corridor : Corridor) (fuel : nat) (s' : Store) :
  (length (Corridor.path corridor) < 2)%nat ->
  addCorridor fuel corridor s = Some s' ->
  exists stored,
    Store.corridors s' = Store.corridors s ++ [stored]
    /\ Corridor.id stored = Corridor.id corridor
    /\ Validation.isValid (validateCorridorPath (Corridor.path stored)) = false
    /\ Corridor.segments stored = []
    /\ (forall canvasState, stored ∉ getVisibleCorridors (set_canvasState canvasState s'))
    /\ Corridor.id corridor ∈ ids (Store.pathSequence s').
Proof.
  intros Hshort Hrun. exists (corridorWithFloor s corridor).
  assert (Hpath : (length (map (stampFloor s) (Corridor.path corridor)) < 2)%nat)
    by (rewrite length_map; exact Hshort).
  assert (Hsegs : Corridor.segments (corridorWithFloor s corridor) = []).
  { simpl. destruct (map (stampFloor s) (Corridor.path corridor)) as [|a [|b l]];
      [reflexivity|reflexivity|simpl in Hpath; lia]. }
  split; [exact (addCorridor_stored _ _ _ _ Hrun)|]. split; [reflexivity|].
  split; [|split; [exact Hsegs|split]].
  - apply validateCorridorPath_spec. left. exact Hpath.
  - intros canvasState Hin. unfold getVisibleCorridors in Hin.
    apply list_elem_of_In, filter_In in Hin as [_ Hvis].
    rewrite Hsegs in Hvis. discriminate.
  - unfold addCorridor in Hrun.
    destruct (reorderPathSequence_sequence _ _ _ Hrun) as [Hseq _].
    apply (reorderedSequenceOf_ids _ _ _ Hseq). unfold addCorridor_set. simpl.
    rewrite fmap_app. apply elem_of_app. right. apply list_elem_of_here.
Qed.

Lemma addCorridor_short_path_witness :
  exists s',
    addCorridor 5 (Corridor.mk "CS1" [Position.mk 3 4 None] [] 0 None None false None None
                     None None None "" "" None) initialStore = Some s'
    /\ exists stored,
        Store.corridors s' = [stored]
        /\ Corridor.segments stored = []
        /\ stored ∉ getVisibleCorridors s'
        /\ ids (Store.pathSequence s') = ["CS1"].
Proof.
  eexists. split; [vm_compute; reflexivity|].
  edestruct (addCorridor_short_path initialStore
               (Corridor.mk "CS1" [Position.mk 3 4 None] [] 0 None None false None None
                  None None None "" "" None) 5)
    as (stored & Hc & _ & _ & Hsegs & Hvis & _); [simpl; lia|vm_compute; reflexivity|].
  exists stored. split; [exact Hc|]. split; [exact Hsegs|]. split; [|reflexivity].
  apply (Hvis (CanvasState.mk 1 (Position.mk 0 0 None) None 0)).
Defined.

(** ** The drawing buffer *)

Lemma z_or_stampFloor s p : z_or (stampFloor s p) 0 = z_or p (currentFloorIndex s).
Proof. reflexivity. Qed.

Lemma detectFloorTransitionsFrom_snoc path point :
  forall i,
    detectFloorTransitionsFrom i (path ++ [point])
    = detectFloorTransitionsFrom i path
      ++ match last path with
         | Some prev =>
             if negb (z_or prev 0 =? z_or point 0)
             then [i + Z.of_nat (length path) - 1] else []
         | None => []
         end.
Proof.
  induction path as [|a [|b rest] IH]; intros i.
  - reflexivity.
  - simpl. destruct (negb (z_or a 0 =? z_or point 0)); [|reflexivity].
    simpl. f_equal. lia.
  - change ((a :: b :: rest) ++ [point]) with (a :: (b :: rest) ++ [point]).
    change (detectFloorTransitionsFrom i (a :: (b :: rest) ++ [point]))
      with (if negb (z_or a 0 =? z_or b 0)
            then i :: detectFloorTransitionsFrom (i + 1) ((b :: rest) ++ [point])
            else detectFloorTransitionsFrom (i + 1) ((b :: rest) ++ [point])).
    change (detectFloorTransitionsFrom i (a :: b :: rest))
      with (if negb (z_or a 0 =? z_or b 0)
            then i :: detectFloorTransitionsFrom (i + 1) (b :: rest)
            else detectFloorTransitionsFrom (i + 1) (b :: rest)).
    rewrite IH.
    change (last (a :: b :: rest)) with (last (b :: rest)).
    replace (i + 1 + Z.of_nat (length (b :: rest)) - 1)
      with (i + Z.of_nat (length (a :: b :: rest)) - 1) by (simpl length; lia).
    destruct (negb (z_or a 0 =? z_or b 0)); reflexivity.
Qed.

Lemma lookup_before_last {A} (l : list A) (x : A) :
  (l ++ [x]) !! (length (l ++ [x]) - 2)%nat
  = match l with [] => Some x | _ => last l end.
Proof.
  destruct l as [|a l]; [reflexivity|].
  rewrite length_app. simpl length.
  replace (S (length l) + 1 - 2)%nat with (length l) by lia.
  rewrite lookup_app_l by (simpl; lia).
  rewrite last_lookup. simpl. reflexivity.
Qed.

Lemma addDrawingPoint_markers point s drawingState :
  DrawingState.crossFloorVertices drawingState
  = detectFloorTransitions (map (stampFloor s) (DrawingState.currentPath drawingState)) ->
  DrawingState.crossFloorVertices (addDrawingPoint point s drawingState)
  = detectFloorTransitions
      (map (stampFloor s) (DrawingState.currentPath (addDrawingPoint point s drawingState))).
Proof.
  intros Hinv. unfold addDrawingPoint. cbv zeta. simpl DrawingState.currentPath.
  simpl DrawingState.crossFloorVertices.
  unfold detectFloorTransitions in *. rewrite List.map_app.
  change (map (stampFloor s) [point]) with [stampFloor s point].
  rewrite detectFloorTransitionsFrom_snoc, <- Hinv.
  rewrite lookup_before_last.
  destruct (DrawingState.currentPath drawingState) as [|a l] eqn:E.
  - simpl. rewrite app_nil_r. reflexivity.
  - assert (Hlen : (1 <? length ((a :: l) ++ [point]))%nat = true).
    { apply Nat.ltb_lt. rewrite length_app. simpl. lia. }
    rewrite Hlen.
    assert (Hlast : last (map (stampFloor s) (a :: l))
                    = option_map (stampFloor s) (last (a :: l))).
    { rewrite !last_lookup, length_map, list_lookup_fmap. reflexivity. }
    rewrite Hlast.
    destruct (last (a :: l)) as [prev|] eqn:El.
    + simpl option_map. cbv iota beta. rewrite !z_or_stampFloor.
      rewrite (Z.eqb_sym (z_or point (currentFloorIndex s))).
      rewrite length_map.
      replace (0 + Z.of_nat (length (a :: l)) - 1)
        with (Z.of_nat (length ((a :: l) ++ [point])) - 2)
        by (rewrite length_app; simpl length; lia).
      destruct (negb (z_or prev (currentFloorIndex s) =? z_or point (currentFloorIndex s)));
        [reflexivity|by rewrite app_nil_r].
    + simpl. rewrite app_nil_r. reflexivity.
Qed.

(** X23: while the current floor does not change, the floor-transition markers
    of the drawing buffer follow the path: after [startDrawing] and any
    number of [addDrawingPoint], the buffer holds the start point and the
    added points in order, and its markers are [detectFloorTransitions] of
    the path with every vertex put on the current floor when it has no floor
    of its own, which is the path [addCorridor] stores. *)
Theorem drawing_marks_floor_transitions (s : Store) (type : DrawingType)
    (startPoint : option Position) (points : list Position) :
  let drawn := drawPoints points s (startDrawing type startPoint s) in
  DrawingState.currentPath drawn
  = match startPoint with Some p => [p] | None => [] end ++ points
  /\ DrawingState.crossFloorVertices drawn
     = detectFloorTransitions (map (stampFloor s) (DrawingState.currentPath drawn))
  /\ DrawingState.isDrawing drawn = true
  /\ DrawingState.drawingType drawn = Some type
  /\ DrawingState.startFloor drawn = Some (currentFloorIndex s).
Proof.
  cbv zeta. unfold drawPoints.
  assert (Hgen : forall ds,
             DrawingState.crossFloorVertices ds
             = detectFloorTransitions (map (stampFloor s) (DrawingState.currentPath ds)) ->
             let drawn := fold_left (fun ds point => addDrawingPoint point s ds) points ds in
             DrawingState.currentPath drawn = DrawingState.currentPath ds ++ points
             /\ DrawingState.crossFloorVertices drawn
                = detectFloorTransitions (map (stampFloor s) (DrawingState.currentPath drawn))
             /\ DrawingState.isDrawing drawn = DrawingState.isDrawing ds
             /\ DrawingState.drawingType drawn = DrawingState.drawingType ds
             /\ DrawingState.startFloor drawn = DrawingState.startFloor ds).
  { induction points as [|p rest IH]; intros ds Hinv; cbv zeta.
    - simpl. rewrite app_nil_r. done.
    - simpl fold_left.
      destruct (IH (addDrawingPoint p s ds) (addDrawingPoint_markers p s ds Hinv))
        as (Hpath & Hmarks & H1 & H2 & H3).
      split; [|split; [exact Hmarks|split; [exact H1|split; [exact H2|exact H3]]]].
      rewrite Hpath. simpl. rewrite <- app_assoc. reflexivity. }
  apply (Hgen (startDrawing type startPoint s)).
  destruct startPoint; reflexivity.
Qed.

Lemma removelast_snoc {A} (l : list A) (x : A) : removelast (l ++ [x]) = l.
Proof. apply removelast_last. Qed.

(** X24: [undoLastPoint] takes the last point back off the path but leaves the
    floor-transition markers as they are: after [addDrawingPoint] and
    [undoLastPoint] the path is the one before, and the markers are the ones
    before exactly when the point was on the floor of the point it followed
    (or was the first point). *)
Theorem undoLastPoint_keeps_markers (s : Store) (point : Position)
    (drawingState : DrawingState) :
  let undone := undoLastPoint (addDrawingPoint point s drawingState) in
  DrawingState.currentPath undone = DrawingState.currentPath drawingState
  /\ DrawingState.crossFloorVertices undone
     = DrawingState.crossFloorVertices (addDrawingPoint point s drawingState)
  /\ (DrawingState.crossFloorVertices undone = DrawingState.crossFloorVertices drawingState
      <-> forall prev,
          last (DrawingState.currentPath drawingState) = Some prev ->
          z_or point (currentFloorIndex s) = z_or prev (currentFloorIndex s)).
Proof.
  cbv zeta. split; [apply removelast_snoc|]. split; [reflexivity|].
  unfold undoLastPoint, addDrawingPoint. cbv zeta. simpl DrawingState.crossFloorVertices.
  rewrite lookup_before_last.
  destruct (DrawingState.currentPath drawingState) as [|a l] eqn:E.
  - simpl. split; [intros _ prev H; discriminate|reflexivity].
  - assert (Hlen : (1 <? length ((a :: l) ++ [point]))%nat = true).
    { apply Nat.ltb_lt. rewrite length_app. simpl. lia. }
    rewrite Hlen.
    destruct (last (a :: l)) as [prev|] eqn:El.
    + destruct (z_or point (currentFloorIndex s) =? z_or prev (currentFloorIndex s)) eqn:Ez;
        simpl negb; cbv iota.
      * apply Z.eqb_eq in Ez. split; [intros _ prev' [= <-]; exact Ez|reflexivity].
      * apply Z.eqb_neq in Ez. split.
        -- intros Habs. exfalso.
           apply (f_equal length) in Habs. rewrite length_app in Habs. simpl in Habs. lia.
        -- intros H. destruct Ez. apply H. reflexivity.
    + split; [intros _ prev H; discriminate|reflexivity].
Qed.

Lemma undoLastPoint_keeps_markers_witness :
  let drawn :=
    drawPoints [Position.mk 5 5 (Some 0)] initialStore
      (startDrawing drawing_corridor (Some (Position.mk 0 0 (Some 0))) initialStore) in
  let undone := undoLastPoint (addDrawingPoint (Position.mk 9 9 (Some 1)) initialStore drawn) in
  DrawingState.currentPath undone = DrawingState.currentPath drawn
  /\ DrawingState.crossFloorVertices drawn = []
  /\ DrawingState.crossFloorVertices undone = [1].
Proof.
  cbv zeta. split; [|split; [reflexivity|]].
  - apply (undoLastPoint_keeps_markers initialStore).
  - rewrite (proj1 (proj2 (undoLastPoint_keeps_markers initialStore _ _))). reflexivity.
Defined.

(** ** The canvas *)

Lemma nearVertexFrom_spec {arith : Arithmetic} position tolerance path :
  forall i k,
    nearVertexFrom i position tolerance path = Some k ->
    exists (j : nat) vertex,
      k = i + Z.of_nat j /\ path !! j = Some vertex
      /\ vertexHit position tolerance vertex = true.
Proof.
  induction path as [|v rest IH]; intros i k Hrun; [discriminate|]. simpl in Hrun.
  destruct (vertexHit position tolerance v) eqn:E.
  - injection Hrun as <-. exists 0%nat, v. split; [lia|]. split; [reflexivity|exact E].
  - apply IH in Hrun as (j & vertex & -> & Hj & Hhit).
    exists (S j), vertex. split; [lia|]. split; [exact Hj|exact Hhit].
Qed.

Lemma nearCorridorVertex_spec {arith : Arithmetic} corridors position tolerance id k :
  nearCorridorVertex corridors position tolerance = Some (id, k) ->
  exists corridor (j : nat) vertex,
    corridor ∈ corridors /\ Corridor.id corridor = id /\ k = Z.of_nat j
    /\ Corridor.path corridor !! j = Some vertex
    /\ vertexHit position tolerance vertex = true.
Proof.
  induction corridors as [|c rest IH]; [discriminate|]. simpl.
  destruct (nearVertexFrom 0 position tolerance (Corridor.path c)) as [i|] eqn:E.
  - intros [= <- <-]. apply nearVertexFrom_spec in E as (j & vertex & -> & Hj & Hhit).
    exists c, j, vertex. split; [apply list_elem_of_here|]. split; [reflexivity|].
    split; [lia|]. split; assumption.
  - intros H. apply IH in H as (corridor & j & vertex & Hin & Hrest).
    exists corridor, j, vertex. split; [apply list_elem_of_further, Hin|exact Hrest].
Qed.

(** X25: the vertex that [isNearCorridorVertex] reports is a vertex of the path
    of a corridor of its list, within the tolerance (it passes the test
    [distance < tolerance] of the loop); dragging it therefore
    takes the in-range case of [updateCorridorVertex]: as long as the store
    finds that corridor under its id, the call never raises and replaces
    that one vertex, the path keeping its length. *)
Theorem isNearCorridorVertex_in_range {arith : Arithmetic} (corridors : list Corridor)
    (position : Position) (tolerance : option Q) (id : string) (vertexIndex : Z) :
  isNearCorridorVertex corridors position tolerance = Some (id, vertexIndex) ->
  exists corridor vertex,
    corridor ∈ corridors
    /\ Corridor.id corridor = id
    /\ 0 <= vertexIndex < Z.of_nat (length (Corridor.path corridor))
    /\ Corridor.path corridor !! Z.to_nat vertexIndex = Some vertex
    /\ vertexHit position (default 12%Q tolerance) vertex = true
    /\ forall fuel s newPosition newFloor,
        find (fun c => bool_decide (Corridor.id c = id)) (Store.corridors s) = Some corridor ->
        updateCorridorVertex fuel id vertexIndex newPosition newFloor s
        = outcomeOf
            (updateCorridor fuel id
               (CorridorUpdate.ofPath
                  (<[ Z.to_nat vertexIndex
                      := with_z newPosition (vertexFloor s newPosition newFloor) ]>
                     (Corridor.path corridor))) s).
Proof.
  intros Hnear. unfold isNearCorridorVertex in Hnear.
  apply nearCorridorVertex_spec in Hnear as (corridor & j & vertex & Hin & Hid & -> & Hj & Hhit).
  exists corridor, vertex. rewrite Nat2Z.id.
  pose proof (lookup_lt_Some _ _ _ Hj) as Hlt.
  split; [exact Hin|]. split; [exact Hid|]. split; [lia|]. split; [exact Hj|].
  split; [exact Hhit|].
  intros fuel s newPosition newFloor Hfind. unfold updateCorridorVertex.
  rewrite Hfind, (assignVertex_inside _ _ _ Hlt). reflexivity.
Qed.

Lemma isNearCorridorVertex_in_range_witness :
  isNearCorridorVertex (getVisibleCorridors vertexStore) (Position.mk 9 9 None) None
  = Some ("CS1", 1)
  /\ exists s',
      updateCorridorVertex 5 "CS1" 1 (Position.mk 20 20 None) None vertexStore = Returned s'
      /\ map Corridor.path (Store.corridors s')
         = [[Position.mk 0 0 (Some 0); Position.mk 20 20 (Some 0)]].
Proof.
  assert (Hnear : isNearCorridorVertex (getVisibleCorridors vertexStore)
                    (Position.mk 9 9 None) None = Some ("CS1", 1))
    by (vm_compute; reflexivity).
  split; [exact Hnear|].
  destruct (isNearCorridorVertex_in_range _ _ _ _ _ Hnear)
    as (corridor & vertex & Hin & _ & _ & _ & _ & Hupd).
  assert (Hcorridor : corridor = vertexCorridor).
  { change (getVisibleCorridors vertexStore) with [vertexCorridor] in Hin.
    apply list_elem_of_singleton in Hin. exact Hin. }
  subst corridor.
  eexists. split.
  - rewrite (Hupd 5%nat vertexStore (Position.mk 20 20 None) None eq_refl).
    vm_compute; reflexivity.
  - vm_compute; reflexivity.
Defined.

Lemma corridor_ids_unique (l : list Corridor) c1 c2 :
  NoDup (map Corridor.id l) -> c1 ∈ l -> c2 ∈ l -> Corridor.id c1 = Corridor.id c2 -> c1 = c2.
Proof.
  induction l as [|c l IH]; intros Hnd H1 H2 Hid; [inversion H1|].
  simpl in Hnd. apply NoDup_cons in Hnd as [Hnot Hnd].
  apply elem_of_cons in H1 as [->|H1], H2 as [->|H2].
  - reflexivity.
  - exfalso. apply Hnot. rewrite Hid. apply list_elem_of_fmap. eauto.
  - exfalso. apply Hnot. rewrite <- Hid. apply list_elem_of_fmap. eauto.
  - apply IH; assumption.
Qed.

Lemma assignVertex_zero path v :
  exists path', dense (assignVertex path 0 v) = Some path'
                /\ head path' = Some v /\ tail path' = tail path.
Proof.
  destruct path as [|p rest].
  - exists [v]. split; [apply (assignVertex_append [] v); reflexivity|]. split; reflexivity.
  - exists (v :: rest). split; [|split; reflexivity].
    apply (assignVertex_inside (p :: rest) 0 v). simpl. lia.
Qed.

Lemma find_corridor_updated id updates (corridors : list Corridor) :
  CorridorUpdate.id updates = None ->
  find (fun c => bool_decide (Corridor.id c = id))
    (map (updateCorridor_one id updates) corridors)
  = option_map (updateCorridor_one id updates)
      (find (fun c => bool_decide (Corridor.id c = id)) corridors).
Proof.
  intros Hid. induction corridors as [|c rest IH]; [reflexivity|]. simpl.
  rewrite (updateCorridor_one_id id updates c Hid).
  destruct (bool_decide (Corridor.id c = id)); [reflexivity|exact IH].
Qed.

Lemma updateCorridor_one_path id path c :
  Corridor.id c = id ->
  Corridor.path (updateCorridor_one id (CorridorUpdate.ofPath path) c) = path.
Proof.
  intros Hid. unfold updateCorridor_one. rewrite bool_decide_eq_true_2 by exact Hid.
  reflexivity.
Qed.

(** What a call of [updateCorridorVertex] at index 0 does to the corridors. *)
Lemma updateCorridorVertex_zero fuel id v s s' :
  updateCorridorVertex fuel id 0 v None s = Returned s' ->
  Store.nodes s' = Store.nodes s
  /\ (find (fun c => bool_decide (Corridor.id c = id)) (Store.corridors s) = None /\ s' = s
      \/ exists c0 path',
          find (fun c => bool_decide (Corridor.id c = id)) (Store.corridors s) = Some c0
          /\ head path' = Some (with_z v (z_or v (currentFloorIndex s)))
          /\ tail path' = tail (Corridor.path c0)
          /\ Store.corridors s'
             = map (updateCorridor_one id (CorridorUpdate.ofPath path')) (Store.corridors s)).
Proof.
  unfold updateCorridorVertex. intros Hrun.
  destruct (find _ (Store.corridors s)) as [c0|] eqn:Hfind.
  - destruct (assignVertex_zero (Corridor.path c0) (with_z v (vertexFloor s v None)))
      as (path' & Hdense & Hhead & Htail).
    rewrite Hdense in Hrun.
    destruct (updateCorridor fuel id (CorridorUpdate.ofPath path') s) as [s1|] eqn:Hupd;
      simpl in Hrun; [|discriminate].
    injection Hrun as <-. unfold updateCorridor in Hupd.
    apply reorderPathSequence_frame in Hupd as (Hn & Hc & _).
    split; [exact Hn|]. right. exists c0, path'.
    split; [reflexivity|]. split; [exact Hhead|]. split; [exact Htail|exact Hc].
  - injection Hrun as <-. split; [reflexivity|]. left. split; reflexivity.
Qed.

Lemma updateCorridorVertex_zero_later fuel id v s s' :
  NoDup (map Corridor.id (Store.corridors s)) ->
  updateCorridorVertex fuel id 0 v None s = Returned s' ->
  Store.nodes s' = Store.nodes s
  /\ map laterVertices (Store.corridors s') = map laterVertices (Store.corridors s).
Proof.
  intros Hnd Hrun.
  destruct (updateCorridorVertex_zero _ _ _ _ _ Hrun)
    as [Hn [[_ ->]|(c0 & path' & Hfind & _ & Htail & Hc)]]; [done|].
  split; [exact Hn|]. rewrite Hc, map_map. apply map_ext_in. intros c Hin.
  apply find_corridor_Some in Hfind as [Hin0 Hid0].
  unfold laterVertices.
  rewrite (updateCorridor_one_id id (CorridorUpdate.ofPath path') c eq_refl). f_equal.
  destruct (decide (Corridor.id c = id)) as [Hid|Hne].
  - rewrite (updateCorridor_one_path id path' c Hid), Htail.
    rewrite (corridor_ids_unique _ c c0 Hnd); [reflexivity|apply list_elem_of_In, Hin|
                                               exact Hin0|congruence].
  - unfold updateCorridor_one. rewrite bool_decide_eq_false_2 by exact Hne. reflexivity.
Qed.

Lemma patchCorridor_later fuel currentFloorIndex nodeId newPosition corridor s s' :
  NoDup (map Corridor.id (Store.corridors s)) ->
  patchedStore (patchCorridor fuel currentFloorIndex nodeId newPosition corridor s) = Some s' ->
  Store.nodes s' = Store.nodes s
  /\ map laterVertices (Store.corridors s') = map laterVertices (Store.corridors s).
Proof.
  intros Hnd Hrun. unfold patchCorridor in Hrun.
  destruct (_ || _); [|injection Hrun as <-; done].
  destruct (head _) as [first|].
  - destruct (updateCorridorVertex fuel (Corridor.id corridor) 0 first None s)
      as [s1| |] eqn:Hupd; simpl in Hrun; [|injection Hrun as <-; done|discriminate].
    injection Hrun as <-. apply (updateCorridorVertex_zero_later _ _ _ _ _ Hnd Hupd).
  - destruct (find _ _); injection Hrun as <-; done.
Qed.

Lemma later_ids (l l' : list Corridor) :
  map laterVertices l' = map laterVertices l -> map Corridor.id l' = map Corridor.id l.
Proof.
  intros H. apply (f_equal (map fst)) in H. rewrite !map_map in H. exact H.
Qed.

Lemma last_tail {A} (l : list A) : (2 <= length l)%nat -> last l = last (tail l).
Proof. destruct l as [|a [|b l]]; simpl; intros H; [lia|lia|reflexivity]. Qed.

(** X26: dragging a node, [updateConnectedCorridors] rewrites nothing but the
    first vertex of corridors: whatever the corridors and the floor it closed
    over, and whether the loop completes or a call raises in its middle, it
    leaves the nodes, the ids of the corridors and every vertex after the
    first of every corridor as they were (the ids of the corridors being
    distinct); so the last vertex of a corridor of two vertices or more stays
    where it was, also when the corridor ends at the node.  The first vertex
    of a corridor that starts at the node is put at the new position. *)
Theorem updateConnectedCorridors_first_vertex_only (fuel : nat) (currentFloorIndex : Z)
    (nodeId : string) (newPosition : Position) (s : Store) :
  NoDup (map Corridor.id (Store.corridors s)) ->
  (forall corridors s',
      patchedStore (updateConnectedCorridors fuel corridors currentFloorIndex nodeId
                      newPosition s) = Some s' ->
      Store.nodes s' = Store.nodes s
      /\ map laterVertices (Store.corridors s') = map laterVertices (Store.corridors s)
      /\ forall corridor,
          corridor ∈ Store.corridors s -> (2 <= length (Corridor.path corridor))%nat ->
          exists stored,
            stored ∈ Store.corridors s'
            /\ Corridor.id stored = Corridor.id corridor
            /\ last (Corridor.path stored) = last (Corridor.path corridor))
  /\ (forall corridor s',
         find (fun c => bool_decide (Corridor.id c = Corridor.id corridor)) (Store.corridors s)
         = Some corridor ->
         Corridor.from corridor = Some nodeId ->
         patchCorridor fuel currentFloorIndex nodeId newPosition corridor s = Completed s' ->
         exists stored,
           find (fun c => bool_decide (Corridor.id c = Corridor.id corridor))
             (Store.corridors s') = Some stored
           /\ head (Corridor.path stored)
              = Some (with_z newPosition (z_or newPosition currentFloorIndex))).
Proof.
  intros Hnd. split.
  - intros corridors s' Hrun.
    assert (Hgen : Store.nodes s' = Store.nodes s
                   /\ map laterVertices (Store.corridors s')
                      = map laterVertices (Store.corridors s)).
    { revert s Hnd Hrun. induction corridors as [|c rest IH]; intros s Hnd Hrun.
      - injection Hrun as <-. done.
      - simpl in Hrun.
        destruct (patchCorridor fuel currentFloorIndex nodeId newPosition c s)
          as [s1|s1|] eqn:Hstep.
        + destruct (patchCorridor_later fuel currentFloorIndex nodeId newPosition c s s1 Hnd)
            as [Hn1 Hl1]; [rewrite Hstep; reflexivity|].
          destruct (IH s1) as [Hn Hl]; [rewrite (later_ids _ _ Hl1); exact Hnd|exact Hrun|].
          split; congruence.
        + apply (patchCorridor_later fuel currentFloorIndex nodeId newPosition c s s' Hnd).
          rewrite Hstep. exact Hrun.
        + discriminate. }
    destruct Hgen as [Hn Hl]. split; [exact Hn|]. split; [exact Hl|].
    intros corridor Hin Hlen. apply list_elem_of_lookup in Hin as [k Hk].
    assert (Hk' : map laterVertices (Store.corridors s) !! k = Some (laterVertices corridor))
      by (rewrite list_lookup_fmap, Hk; reflexivity).
    rewrite <- Hl, list_lookup_fmap in Hk'.
    destruct (Store.corridors s' !! k) as [stored|] eqn:Ek; [|discriminate].
    injection Hk' as Hid Htail. exists stored.
    split; [apply list_elem_of_lookup; eauto|]. split; [exact Hid|].
    assert (Hlen' : (2 <= length (Corridor.path stored))%nat).
    { destruct (Corridor.path corridor) as [|a [|b l]]; simpl in Hlen; try lia.
      destruct (Corridor.path stored) as [|a' [|b' l']]; simpl in *; try discriminate. lia. }
    rewrite (last_tail _ Hlen), (last_tail _ Hlen'), Htail. reflexivity.
  - intros corridor s' Hfind Hfrom Hstep. unfold patchCorridor in Hstep.
    rewrite (bool_decide_eq_true_2 _ Hfrom) in Hstep. simpl orb in Hstep. cbv iota in Hstep.
    set (moved := with_z newPosition (z_or newPosition currentFloorIndex)) in *.
    assert (Hhead : head (patchedPath currentFloorIndex nodeId newPosition corridor)
                    = Some moved).
    { unfold patchedPath. cbv zeta. rewrite (bool_decide_eq_true_2 _ Hfrom). fold moved.
      destruct (bool_decide (Corridor.to corridor = Some nodeId));
        destruct (Corridor.path corridor) as [|p [|q rest]]; reflexivity. }
    rewrite Hhead in Hstep.
    destruct (updateCorridorVertex fuel (Corridor.id corridor) 0 moved None s)
      as [s1| |] eqn:Hupd; try discriminate.
    injection Hstep as <-.
    destruct (updateCorridorVertex_zero _ _ _ _ _ Hupd)
      as [_ [[Hnone _]|(c0 & path' & Hfind0 & Hhead' & _ & Hc)]]; [congruence|].
    exists (updateCorridor_one (Corridor.id corridor) (CorridorUpdate.ofPath path') corridor).
    split.
    + rewrite Hc, find_corridor_updated by reflexivity. rewrite Hfind. reflexivity.
    + rewrite updateCorridor_one_path by reflexivity. exact Hhead'.
Qed.

Lemma updateConnectedCorridors_first_vertex_only_witness :
  NoDup (map Corridor.id (Store.corridors linearStore))
  /\ exists s',
      updateConnectedCorridors 6 (getVisibleCorridors linearStore) 0 "DP1"
        (Position.mk 50 50 None) linearStore = Completed s'
      /\ map laterVertices (Store.corridors s') = map laterVertices (Store.corridors linearStore)
      /\ map Corridor.path (Store.corridors s')
         = [[Position.mk 0 0 (Some 0); Position.mk 10 10 (Some 0)];
            [Position.mk 50 50 (Some 0); Position.mk 10 10 (Some 0)]].
Proof.
  assert (Hnd : NoDup (map Corridor.id (Store.corridors linearStore))).
  { apply (bool_decide_unpack _). vm_compute. exact I. }
  split; [exact Hnd|].
  eexists. split; [vm_compute; reflexivity|].
  split; [|vm_compute; reflexivity].
  eapply (proj1 (updateConnectedCorridors_first_vertex_only 6 0 "DP1" (Position.mk 50 50 None)
                   linearStore Hnd) (getVisibleCorridors linearStore)).
  vm_compute; reflexivity.
Defined.

(** ** Updates and deletions that name no element *)

Lemma map_unchanged {A} (f : A -> A) (l : list A) :
  (forall a, a ∈ l -> f a = a) -> map f l = l.
Proof.
  induction l as [|a l IH]; intros H; [reflexivity|]. simpl.
  rewrite (H a) by apply list_elem_of_here. f_equal.
  apply IH. intros b Hb. apply H, list_elem_of_further, Hb.
Qed.

Lemma List_filter_unchanged {A} (f : A -> bool) (l : list A) :
  (forall a, a ∈ l -> f a = true) -> List.filter f l = l.
Proof.
  induction l as [|a l IH]; intros H; [reflexivity|]. simpl.
  rewrite (H a) by apply list_elem_of_here. f_equal.
  apply IH. intros b Hb. apply H, list_elem_of_further, Hb.
Qed.

Lemma renumber_renumber items : renumber (renumber items) = renumber items.
Proof.
  unfold renumber at 1. rewrite <- (imap_keys_ext _ items (renumber items)).
  - reflexivity.
  - symmetry. apply renumber_keys.
Qed.

Lemma store_eta (s : Store) :
  Store.mk (Store.nodes s) (Store.corridors s) (Store.edges s) (Store.pathSequence s)
    (Store.floors s) (Store.projectId s) (Store.journeyReflection s) (Store.canvasState s)
    (Store.currentNode s) (Store.currentCorridor s) = s.
Proof. destruct s. reflexivity. Qed.

(** X27: on a store that the sequencer left with pairwise distinct edge ids,
    the actions that name no element change nothing and return with the same
    budget: [updateNode] and [moveNode] with an id that no node (and not the
    node being edited) has, [updateCorridor] and [updateCorridorVertex] with
    an id that no corridor (and not the corridor being edited) has, and
    [deleteNode] and [deleteCorridor] with an id that is neither the id of a
    node or corridor, nor an anchor of a corridor, nor in the path
    sequence. *)
Theorem actions_on_unknown_id (fuel : nat) (id : string) (s0 s : Store) :
  reorderPathSequence fuel s0 = Some s ->
  NoDup (map Edge.id (Store.edges s)) ->
  ((forall node, node ∈ Store.nodes s -> Node.id node <> id) ->
   (forall position, moveNode id position s = s)
   /\ ((forall node, Store.currentNode s = Some node -> Node.id node <> id) ->
       forall updates, updateNode fuel id updates s = Some s))
  /\ ((forall corridor, corridor ∈ Store.corridors s -> Corridor.id corridor <> id) ->
      (forall vertexIndex newPosition newFloor,
          updateCorridorVertex fuel id vertexIndex newPosition newFloor s = Returned s)
      /\ ((forall corridor, Store.currentCorridor s = Some corridor -> Corridor.id corridor <> id) ->
          forall updates, updateCorridor fuel id updates s = Some s))
  /\ (id ∉ elementIds s -> id ∉ ids (Store.pathSequence s) ->
      deleteCorridor fuel id s = Some s
      /\ (existsb (anchoredAt id) (Store.corridors s) = false ->
          deleteNode fuel id s = Some s)).
Proof.
  intros Hrun Hnd.
  pose proof (reorderPathSequence_settled _ _ _ Hrun Hnd) as Hfix.
  assert (Hdense : renumber (Store.pathSequence s) = Store.pathSequence s).
  { apply reorderPathSequence_sequence in Hrun as [Hseq _].
    destruct (reorderedSequenceOf_renumbered _ _ _ Hseq) as [items ->].
    apply renumber_renumber. }
  split; [|split].
  - intros Hnone.
    assert (Hmove : forall position, moveNode id position s = s).
    { intros position. unfold moveNode, set_nodes. rewrite map_unchanged; [apply store_eta|].
      intros node Hin. rewrite bool_decide_eq_false_2 by (apply Hnone, Hin). reflexivity. }
    split; [exact Hmove|]. intros Hcur updates. unfold updateNode.
    replace (updateNode_set id updates s) with s; [exact Hfix|].
    unfold updateNode_set, set_currentNode, set_nodes. simpl. rewrite map_unchanged.
    + destruct (Store.currentNode s) as [node|] eqn:E.
      * rewrite bool_decide_eq_false_2 by (apply Hcur; reflexivity).
        rewrite <- E. symmetry. apply store_eta.
      * rewrite <- E. symmetry. apply store_eta.
    + intros node Hin. unfold updateNode_one.
      rewrite bool_decide_eq_false_2 by (apply Hnone, Hin). reflexivity.
  - intros Hnone. split.
    + intros vertexIndex newPosition newFloor. unfold updateCorridorVertex.
      destruct (find _ _) as [corridor|] eqn:E; [|reflexivity].
      apply find_corridor_Some in E as [Hin Hid]. destruct (Hnone corridor Hin Hid).
    + intros Hcur updates. unfold updateCorridor.
      replace (updateCorridor_set id updates s) with s; [exact Hfix|].
      unfold updateCorridor_set, set_currentCorridor, set_corridors. simpl.
      rewrite map_unchanged.
      * destruct (Store.currentCorridor s) as [corridor|] eqn:E.
        -- rewrite bool_decide_eq_false_2 by (apply Hcur; reflexivity).
           rewrite <- E. symmetry. apply store_eta.
        -- rewrite <- E. symmetry. apply store_eta.
      * intros corridor Hin. unfold updateCorridor_one.
        rewrite bool_decide_eq_false_2 by (apply Hnone, Hin). reflexivity.
  - intros Hfree Hseq.
    assert (Hitems : List.filter (fun item => negb (hasItemId id item)) (Store.pathSequence s)
                     = Store.pathSequence s).
    { apply List_filter_unchanged. intros item Hin. apply negb_true_iff.
      unfold hasItemId. apply bool_decide_eq_false_2. intros Heq. apply Hseq.
      rewrite <- Heq. apply list_elem_of_fmap. eauto. }
    assert (Hcorridors : List.filter (fun corridor => negb (bool_decide (Corridor.id corridor = id)))
                           (Store.corridors s) = Store.corridors s).
    { apply List_filter_unchanged. intros corridor Hin. apply negb_true_iff.
      apply bool_decide_eq_false_2. intros Heq. apply Hfree. unfold elementIds.
      apply elem_of_app. right. rewrite <- Heq. apply list_elem_of_fmap. eauto. }
    assert (Hnodes : List.filter (fun node => negb (bool_decide (Node.id node = id)))
                       (Store.nodes s) = Store.nodes s).
    { apply List_filter_unchanged. intros node Hin. apply negb_true_iff.
      apply bool_decide_eq_false_2. intros Heq. apply Hfree. unfold elementIds.
      apply elem_of_app. left. rewrite <- Heq. apply list_elem_of_fmap. eauto. }
    split.
    + unfold deleteCorridor. replace (deleteCorridor_set id s) with s; [exact Hfix|].
      unfold deleteCorridor_set, set_pathSequence, set_corridors. simpl.
      rewrite Hitems, Hcorridors, Hdense. symmetry. apply store_eta.
    + intros Hanchor. unfold deleteNode. replace (deleteNode_set id s) with s; [exact Hfix|].
      unfold deleteNode_set, set_pathSequence, set_corridors, set_nodes. simpl.
      rewrite Hitems, Hnodes, (filter_unanchored id _ Hanchor), Hdense.
      symmetry. apply store_eta.
Qed.

Lemma actions_on_unknown_id_witness :
  reorderPathSequence 6 linearStore = Some linearStore
  /\ NoDup (map Edge.id (Store.edges linearStore))
  /\ updateNode 6 "N9" importanceUpdate linearStore = Some linearStore
  /\ updateCorridor 6 "N9" noteUpdate linearStore = Some linearStore
  /\ deleteNode 6 "N9" linearStore = Some linearStore.
Proof.
  assert (Hrun : reorderPathSequence 6 linearStore = Some linearStore)
    by (vm_compute; reflexivity).
  assert (Hnd : NoDup (map Edge.id (Store.edges linearStore))).
  { apply (bool_decide_unpack _). vm_compute. exact I. }
  split; [exact Hrun|]. split; [exact Hnd|].
  destruct (actions_on_unknown_id 6 "N9" linearStore linearStore Hrun Hnd)
    as (Hnode & Hcorridor & Hdelete).
  assert (Hfree : "N9" ∉ elementIds linearStore).
  { apply (bool_decide_unpack _). vm_compute. exact I. }
  assert (Hseq : "N9" ∉ ids (Store.pathSequence linearStore)).
  { apply (bool_decide_unpack _). vm_compute. exact I. }
  split; [|split].
  - apply Hnode.
    + intros node Hin Heq. apply Hfree. unfold elementIds. apply elem_of_app. left.
      rewrite <- Heq. apply list_elem_of_fmap. eauto.
    + intros node Hcur. discriminate Hcur.
  - apply Hcorridor.
    + intros corridor Hin Heq. apply Hfree. unfold elementIds. apply elem_of_app. right.
      rewrite <- Heq. apply list_elem_of_fmap. eauto.
    + intros corridor Hcur. discriminate Hcur.
  - apply (proj2 (Hdelete Hfree Hseq)). vm_compute; reflexivity.
Defined.

(** ** Ids from [generateId] keep the ids distinct *)

(** X28: when the ids of the nodes and corridors are pairwise distinct, they
    are still so after [addNode] of a node, or [addCorridor] of a corridor,
    whose id is the one [generateId] returned on that store. *)
Theorem generateId_keeps_ids_distinct (fuel fuel' : nat) (type id : string) (s s' : Store) :
  NoDup (elementIds s) ->
  generateId fuel type s = Some id ->
  (forall node, Node.id node = id -> addNode fuel' node s = Some s' -> NoDup (elementIds s'))
  /\ (forall corridor,
         Corridor.id corridor = id -> addCorridor fuel' corridor s = Some s' ->
         NoDup (elementIds s')).
Proof.
  intros Hnd Hgen. unfold generateId in Hgen.
  apply generateId_loop_sound in Hgen as (Hnot & _).
  assert (Hfresh : id ∉ elementIds s).
  { intros Hin. apply Hnot. unfold allIds. unfold elementIds in Hin.
    rewrite app_assoc. apply elem_of_app. left. exact Hin. }
  assert (Hperm : forall l, l ≡ₚ id :: elementIds s -> NoDup l).
  { intros l Hl. rewrite Hl. apply NoDup_cons. split; assumption. }
  split.
  - intros node Hid Hrun. unfold addNode in Hrun.
    apply reorderPathSequence_frame in Hrun as (Hn & Hc & _).
    apply Hperm. unfold elementIds. rewrite Hn, Hc. unfold addNode_set. simpl.
    rewrite fmap_app. simpl. rewrite Hid.
    rewrite <- app_assoc. simpl. symmetry. apply Permutation_middle.
  - intros corridor Hid Hrun. unfold addCorridor in Hrun.
    apply reorderPathSequence_frame in Hrun as (Hn & Hc & _).
    apply Hperm. unfold elementIds. rewrite Hn, Hc. unfold addCorridor_set. simpl.
    rewrite fmap_app. simpl. rewrite Hid.
    rewrite app_assoc. symmetry. apply Permutation_cons_append.
Qed.

Lemma generateId_keeps_ids_distinct_witness :
  NoDup (elementIds linearStore)
  /\ generateId 9 "CS" linearStore = Some "CS3"
  /\ exists s',
      addCorridor 7 (exampleCorridor "CS3" (Some "AD1") (Some "E1")) linearStore = Some s'
      /\ NoDup (elementIds s').
Proof.
  assert (Hnd : NoDup (elementIds linearStore)).
  { apply (bool_decide_unpack _). vm_compute. exact I. }
  assert (Hgen : generateId 9 "CS" linearStore = Some "CS3") by (vm_compute; reflexivity).
  split; [exact Hnd|]. split; [exact Hgen|].
  eexists. split; [vm_compute; reflexivity|].
  eapply (proj2 (generateId_keeps_ids_distinct 9 7 "CS" "CS3" linearStore _ Hnd Hgen)
            (exampleCorridor "CS3" (Some "AD1") (Some "E1")) eq_refl).
  vm_compute; reflexivity.
Defined.

(** ** The two hit tests for corridors *)

Lemma find_corridor_unique (corridors : list Corridor) corridor :
  NoDup (map Corridor.id corridors) -> corridor ∈ corridors ->
  find (fun c => bool_decide (Corridor.id c = Corridor.id corridor)) corridors
  = Some corridor.
Proof.
  intros Hnd Hin.
  destruct (find _ corridors) as [c|] eqn:E.
  - apply find_corridor_Some in E as [Hc Hid].
    f_equal. apply (corridor_ids_unique corridors); assumption.
  - exfalso.
    pose proof (find_none _ _ E corridor (proj1 (list_elem_of_In _ _) Hin)) as Hf.
    simpl in Hf. rewrite bool_decide_eq_true_2 in Hf by reflexivity. discriminate.
Qed.

(** X29: called on the corridors visible on the current floor, with the same
    tolerance, the canvas's [isNearCorridorSegment] (which looks the segments
    up by corridor id) and the corridor loop of [getElementByPosition] give
    the same answer, the ids of the corridors being pairwise distinct: where
    [getElementByPosition] returns a corridor, [isNearCorridorSegment]
    returns its id. *)
Theorem isNearCorridorSegment_getElementByPosition {arith : Arithmetic} (position : Position)
    (tolerance : Q) (s : Store) :
  NoDup (map Corridor.id (Store.corridors s)) ->
  isNearCorridorSegment (getVisibleCorridors s) (currentFloorIndex s) position (Some tolerance) s
  = option_map fst (hitCorridors s position tolerance (getVisibleCorridors s))
  /\ forall id,
      getElementByPosition position (Some tolerance) s = Some (id, element_corridor) ->
      isNearCorridorSegment (getVisibleCorridors s) (currentFloorIndex s) position
        (Some tolerance) s = Some id.
Proof.
  intros Hnd.
  assert (Hsame : forall visible,
             (forall c, c ∈ visible -> c ∈ Store.corridors s) ->
             nearCorridorSegment visible (currentFloorIndex s) position tolerance s
             = option_map fst (hitCorridors s position tolerance visible)).
  { induction visible as [|c rest IH]; intros Hsub; [reflexivity|]. simpl.
    unfold getCorridorSegmentsForFloor, corridorHit.
    rewrite (find_corridor_unique _ c Hnd) by apply Hsub, list_elem_of_here.
    destruct (existsb _ _); [reflexivity|].
    apply IH. intros c' Hc'. apply Hsub, list_elem_of_further, Hc'. }
  assert (Hagree :
            isNearCorridorSegment (getVisibleCorridors s) (currentFloorIndex s) position
              (Some tolerance) s
            = option_map fst (hitCorridors s position tolerance (getVisibleCorridors s))).
  { apply Hsame. intros c Hc. unfold getVisibleCorridors in Hc.
    apply list_elem_of_In, filter_In in Hc as [Hc _]. apply list_elem_of_In, Hc. }
  split; [exact Hagree|].
  intros id Hfound. rewrite Hagree. unfold getElementByPosition in Hfound. simpl in Hfound.
  destruct (hitNodes position tolerance (getVisibleNodes s)) as [hit|] eqn:En.
  - rewrite nearNode_hitNodes in En.
    destruct (nearNode position tolerance (getVisibleNodes s)); simpl in En; congruence.
  - rewrite Hfound. reflexivity.
Qed.

Lemma isNearCorridorSegment_getElementByPosition_witness :
  NoDup (map Corridor.id (Store.corridors vertexStore))
  /\ getElementByPosition (Position.mk 5 6 None) (Some 15%Q) vertexStore
     = Some ("CS1", element_corridor)
  /\ isNearCorridorSegment (getVisibleCorridors vertexStore) (currentFloorIndex vertexStore)
       (Position.mk 5 6 None) (Some 15%Q) vertexStore = Some "CS1".
Proof.
  assert (Hnd : NoDup (map Corridor.id (Store.corridors vertexStore))).
  { apply (bool_decide_unpack _). vm_compute. exact I. }
  assert (Hhit : getElementByPosition (Position.mk 5 6 None) (Some 15%Q) vertexStore
                 = Some ("CS1", element_corridor)) by (vm_compute; reflexivity).
  split; [exact Hnd|]. split; [exact Hhit|].
  apply (proj2 (isNearCorridorSegment_getElementByPosition _ _ _ Hnd) "CS1" Hhit).
Defined.
